(** * langchaingo-graphs: graph documents, value sanitization and the Neo4j store

    A shallow embedding of the Go packages [graphs] and [graphs/neo4j] and the
    properties of them that the specification states.

    - Go's [interface{}] values that flow through property maps and query
      records are the inductive type [Value].
    - [map[string]interface{}] is stdpp's [gmap string Value]: key order is
      irrelevant and equality is extensional, as for Go maps.
    - Methods with a pointer receiver are functions from the old object to
      the new one; methods of the Neo4j store run in a state-and-error monad
      over the store object, the remote database and the log of issued
      queries. *)

From stdpp Require Import gmap strings list fin_maps pretty.

Set Warnings "-register-all,-clear-no-such-hyp".
#[local] Open Scope string_scope.
#[local] Open Scope list_scope.
#[local] Open Scope nat_scope.

(** ** Dynamic values *)

(** The values an [interface{}] holds in this code base: the nil interface,
    scalars, [[]interface{}] and [map[string]interface{}].  A float64 is kept
    as its bit pattern: no operation of the embedded code looks inside one.
    A nil slice and an empty slice are both [VList []]: the code only ever
    takes [len] of a slice and ranges over it, which cannot tell them apart,
    and either one stored in an interface is different from the nil
    interface [VNil]. *)
Inductive Value :=
  | VNil
  | VBool (b : bool)
  | VInt (z : Z)
  | VFloat (bits : Z)
  | VStr (s : string)
  | VList (l : list Value)
  | VMap (m : gmap string Value).

(** [v != nil] for an interface value. *)
Definition isNil (v : Value) : bool :=
  match v with VNil => true | _ => false end.

(** Size of a value, used to justify induction through the nested
    containers. *)
Fixpoint vsize (v : Value) : nat :=
  match v with
  | VList l => S (foldr (λ x n, vsize x + n) 0 l)
  | VMap m => S (map_fold (λ _ x n, vsize x + n) 0 m)
  | _ => 1
  end.

(** Modelled from the spec: [schema.Document] is declared by the langchaingo
    library, outside this repository; the spec describes the provenance
    record as raw text plus metadata. *)
Module Document.
Record t := mk { PageContent : string; Metadata : gmap string Value }.
End Document.

(** ** Package graphs *)

Module graphs.

Module Node.
Record t := mk {
  ID : string;
  Type_ : string;
  Properties : gmap string Value
}.
End Node.

Module Relationship.
Record t := mk {
  Source : Node.t;
  Target : Node.t;
  Type_ : string;
  Properties : gmap string Value
}.
End Relationship.

Module RelationshipIdentifier.
Record t := mk { SourceID : string; TargetID : string; Type_ : string }.
End RelationshipIdentifier.

Module GraphDocument.
Record t := mk {
  Nodes : list Node.t;
  Relationships : list Relationship.t;
  Source : Document.t
}.
End GraphDocument.

Import GraphDocument.

Definition NewNode (id nodeType : string) : Node.t :=
  Node.mk id nodeType ∅.

Definition NewRelationship (source target : Node.t) (relType : string)
  : Relationship.t :=
  Relationship.mk source target relType ∅.

Definition GetIdentifier (r : Relationship.t) : RelationshipIdentifier.t :=
  RelationshipIdentifier.mk
    (Node.ID (Relationship.Source r)) (Node.ID (Relationship.Target r))
    (Relationship.Type_ r).

Definition NewGraphDocument (source : Document.t) : GraphDocument.t :=
  GraphDocument.mk [] [] source.

(** [gd.Nodes = append(gd.Nodes, node)] *)
Definition AddNode (node : Node.t) (gd : GraphDocument.t) : GraphDocument.t :=
  GraphDocument.mk (Nodes gd ++ [node]) (Relationships gd) (Source gd).

Definition AddRelationship (rel : Relationship.t) (gd : GraphDocument.t)
  : GraphDocument.t :=
  GraphDocument.mk (Nodes gd) (Relationships gd ++ [rel]) (Source gd).

(** The condition of the filter loop: the relationship touches neither end. *)
Definition keepsRelationship (nodeID : string) (rel : Relationship.t) : Prop :=
  Node.ID (Relationship.Source rel) ≠ nodeID
  ∧ Node.ID (Relationship.Target rel) ≠ nodeID.

#[global] Instance keepsRelationship_dec nodeID rel :
  Decision (keepsRelationship nodeID rel).
Proof. unfold keepsRelationship. apply _. Defined.

Definition removeRelationshipsByNodeID (nodeID : string) (gd : GraphDocument.t)
  : GraphDocument.t :=
  GraphDocument.mk (Nodes gd)
    (filter (keepsRelationship nodeID) (Relationships gd)) (Source gd).

(** [for i, node := range gd.Nodes { if node.ID == nodeID { ... return true } }
    return false]: [list_find] yields the first index whose node matches;
    [append(gd.Nodes[:i], gd.Nodes[i+1:]...)] drops exactly that index. *)
Definition RemoveNode (nodeID : string) (gd : GraphDocument.t)
  : GraphDocument.t * bool :=
  match list_find (λ node, Node.ID node = nodeID) (Nodes gd) with
  | Some (i, _) =>
      let gd1 :=
        GraphDocument.mk (take i (Nodes gd) ++ drop (S i) (Nodes gd))
          (Relationships gd) (Source gd) in
      (removeRelationshipsByNodeID nodeID gd1, true)
  | None => (gd, false)
  end.

Definition RemoveNodes (nodeIDs : list string) (gd : GraphDocument.t)
  : GraphDocument.t * Z :=
  foldl (λ '(g, removed) nodeID,
           let '(g', ok) := RemoveNode nodeID g in
           (g', if ok then (removed + 1)%Z else removed))
        (gd, 0%Z) nodeIDs.

Definition matchesRelationship (sourceID targetID relType : string)
  (rel : Relationship.t) : Prop :=
  Node.ID (Relationship.Source rel) = sourceID
  ∧ Node.ID (Relationship.Target rel) = targetID
  ∧ Relationship.Type_ rel = relType.

#[global] Instance matchesRelationship_dec s t ty rel :
  Decision (matchesRelationship s t ty rel).
Proof. unfold matchesRelationship. apply _. Defined.

Definition RemoveRelationship (sourceID targetID relType : string)
  (gd : GraphDocument.t) : GraphDocument.t * bool :=
  match list_find (matchesRelationship sourceID targetID relType)
          (Relationships gd) with
  | Some (i, _) =>
      (GraphDocument.mk (Nodes gd)
         (take i (Relationships gd) ++ drop (S i) (Relationships gd))
         (Source gd), true)
  | None => (gd, false)
  end.

(** [FindNode] returns [&gd.Nodes[i]] for the first match: the index and the
    node it points at, or nil. *)
Definition FindNode (nodeID : string) (gd : GraphDocument.t)
  : option (nat * Node.t) :=
  list_find (λ node, Node.ID node = nodeID) (Nodes gd).

Definition FindRelationship (sourceID targetID relType : string)
  (gd : GraphDocument.t) : option (nat * Relationship.t) :=
  list_find (matchesRelationship sourceID targetID relType) (Relationships gd).

Definition NodeExists (nodeID : string) (gd : GraphDocument.t) : bool :=
  bool_decide (is_Some (FindNode nodeID gd)).

Definition RelationshipExists (sourceID targetID relType : string)
  (gd : GraphDocument.t) : bool :=
  bool_decide (is_Some (FindRelationship sourceID targetID relType gd)).

Definition GetNodeCount (gd : GraphDocument.t) : nat := length (Nodes gd).

Definition GetRelationshipCount (gd : GraphDocument.t) : nat :=
  length (Relationships gd).

(** One iteration of each loop of [Merge]; the receiver is the accumulator,
    so the existence test sees what earlier iterations appended. *)
Definition mergeNode (gd : GraphDocument.t) (node : Node.t) : GraphDocument.t :=
  if NodeExists (Node.ID node) gd then gd else AddNode node gd.

Definition mergeRelationship (gd : GraphDocument.t) (rel : Relationship.t)
  : GraphDocument.t :=
  if RelationshipExists (Node.ID (Relationship.Source rel))
       (Node.ID (Relationship.Target rel)) (Relationship.Type_ rel) gd
  then gd else AddRelationship rel gd.

(** [gd.Merge(other)]: both [range] loops read [other]'s slices as they
    were when the loop started. *)
Definition Merge (other gd : GraphDocument.t) : GraphDocument.t :=
  let gd1 := foldl mergeNode gd (Nodes other) in
  foldl mergeRelationship gd1 (Relationships other).

(** [RemoveRelationships]: one [RemoveRelationship] per identifier, in
    order, counting the calls that returned true. *)
Definition RemoveRelationships (identifiers : list RelationshipIdentifier.t)
  (gd : GraphDocument.t) : GraphDocument.t * Z :=
  foldl (λ '(g, removed) id,
           let '(g', ok) :=
             RemoveRelationship (RelationshipIdentifier.SourceID id)
               (RelationshipIdentifier.TargetID id)
               (RelationshipIdentifier.Type_ id) g in
           (g', if ok then (removed + 1)%Z else removed))
        (gd, 0%Z) identifiers.

(** The three [Find...By...] loops append the matching entries in slice
    order. *)
Definition FindNodesByType (nodeType : string) (gd : GraphDocument.t)
  : list Node.t :=
  filter (λ node, Node.Type_ node = nodeType) (Nodes gd).

Definition FindRelationshipsByType (relType : string) (gd : GraphDocument.t)
  : list Relationship.t :=
  filter (λ rel, Relationship.Type_ rel = relType) (Relationships gd).

Definition touchesNode (nodeID : string) (rel : Relationship.t) : Prop :=
  Node.ID (Relationship.Source rel) = nodeID
  ∨ Node.ID (Relationship.Target rel) = nodeID.

#[global] Instance touchesNode_dec nodeID rel :
  Decision (touchesNode nodeID rel).
Proof. unfold touchesNode. apply _. Defined.

Definition FindRelationshipsByNode (nodeID : string) (gd : GraphDocument.t)
  : list Relationship.t :=
  filter (touchesNode nodeID) (Relationships gd).

(** [GetNodeTypes] and [GetRelationshipTypes] collect the types as the keys
    of a [map[string]bool] and return the keys in the order a [range] over
    that map yields them, which Go leaves unspecified: the result lists
    every element of this set once. *)
Definition GetNodeTypes (gd : GraphDocument.t) : gset string :=
  list_to_set (Node.Type_ <$> Nodes gd).

Definition GetRelationshipTypes (gd : GraphDocument.t) : gset string :=
  list_to_set (Relationship.Type_ <$> Relationships gd).

(** *** Options of the graph store operations *)

(** [MergeMode] is an [int] enumeration; the four declared constants are its
    only named values. *)
Inductive MergeMode :=
  | MergeModeCreate   (* creates new entities, fails if they already exist *)
  | MergeModeUpdate   (* updates existing entities, fails if they don't exist *)
  | MergeModeUpsert   (* creates new or updates existing entities *)
  | MergeModeReplace. (* replaces existing entities completely *)

Module Options.
Record t := mk {
  IncludeSource : bool;
  BatchSize : Z;
  Timeout : Z;
  MergeMode : MergeMode;
  CascadeDelete : bool;
  IncludeProperties : list string;
  ExcludeProperties : list string;
  Limit : Z;
  Offset : Z
}.
End Options.

(** A functional option: a function that updates the options it is given. *)
Definition Option : Type := Options.t → Options.t.

Definition NewOptions : Options.t :=
  Options.mk false 100 0 MergeModeUpsert false [] [] 0 0.

Definition WithIncludeSource (include : bool) : Option :=
  λ o, Options.mk include (Options.BatchSize o) (Options.Timeout o)
         (Options.MergeMode o) (Options.CascadeDelete o)
         (Options.IncludeProperties o) (Options.ExcludeProperties o)
         (Options.Limit o) (Options.Offset o).

Definition WithBatchSize (size : Z) : Option :=
  λ o, Options.mk (Options.IncludeSource o) size (Options.Timeout o)
         (Options.MergeMode o) (Options.CascadeDelete o)
         (Options.IncludeProperties o) (Options.ExcludeProperties o)
         (Options.Limit o) (Options.Offset o).

Definition WithMergeMode (mode : MergeMode) : Option :=
  λ o, Options.mk (Options.IncludeSource o) (Options.BatchSize o)
         (Options.Timeout o) mode (Options.CascadeDelete o)
         (Options.IncludeProperties o) (Options.ExcludeProperties o)
         (Options.Limit o) (Options.Offset o).

Definition WithCascadeDelete (cascade : bool) : Option :=
  λ o, Options.mk (Options.IncludeSource o) (Options.BatchSize o)
         (Options.Timeout o) (Options.MergeMode o) cascade
         (Options.IncludeProperties o) (Options.ExcludeProperties o)
         (Options.Limit o) (Options.Offset o).

Definition WithTimeout (timeout : Z) : Option :=
  λ o, Options.mk (Options.IncludeSource o) (Options.BatchSize o) timeout
         (Options.MergeMode o) (Options.CascadeDelete o)
         (Options.IncludeProperties o) (Options.ExcludeProperties o)
         (Options.Limit o) (Options.Offset o).

Definition WithIncludeProperties (properties : list string) : Option :=
  λ o, Options.mk (Options.IncludeSource o) (Options.BatchSize o)
         (Options.Timeout o) (Options.MergeMode o) (Options.CascadeDelete o)
         properties (Options.ExcludeProperties o)
         (Options.Limit o) (Options.Offset o).

Definition WithExcludeProperties (properties : list string) : Option :=
  λ o, Options.mk (Options.IncludeSource o) (Options.BatchSize o)
         (Options.Timeout o) (Options.MergeMode o) (Options.CascadeDelete o)
         (Options.IncludeProperties o) properties
         (Options.Limit o) (Options.Offset o).

Definition WithLimit (limit : Z) : Option :=
  λ o, Options.mk (Options.IncludeSource o) (Options.BatchSize o)
         (Options.Timeout o) (Options.MergeMode o) (Options.CascadeDelete o)
         (Options.IncludeProperties o) (Options.ExcludeProperties o)
         limit (Options.Offset o).

Definition WithOffset (offset : Z) : Option :=
  λ o, Options.mk (Options.IncludeSource o) (Options.BatchSize o)
         (Options.Timeout o) (Options.MergeMode o) (Options.CascadeDelete o)
         (Options.IncludeProperties o) (Options.ExcludeProperties o)
         (Options.Limit o) offset.

(** [opts := NewOptions(); for _, opt := range options { opt(opts) }] *)
Definition applyOptions (options : list Option) : Options.t :=
  foldl (λ opts opt, opt opts) NewOptions options.

End graphs.

(** ** Package graphs, with property maps as shared objects *)

(** A Go map value is a reference to a map object, or nil.  Copying a
    [Node] or a [Relationship] copies the reference, so two structs can
    share one property map; the functions that write to a property map are
    modelled here over a store of map objects.  Slices are still lists: none
    of the functions below makes two documents share a backing array. *)
Module shared.

(** Addresses of map objects, and the map objects allocated so far. *)
Abbreviation loc := nat.
Abbreviation Heap := (gmap loc (gmap string Value)).

(** [make(map[string]interface{})], and later writes to it. *)
Definition alloc (content : gmap string Value) (h : Heap) : Heap * loc :=
  let l := fresh (dom h) in (<[ l := content ]> h, l).

(** Reading through a reference: a nil map reads as the empty map. *)
Definition read (h : Heap) (r : option loc) : gmap string Value :=
  match r with
  | Some l => default ∅ (h !! l)
  | None => ∅
  end.

(** [for k, v := range src { dst[k] = v }] *)
Definition assignAll (src dst : gmap string Value) : gmap string Value :=
  map_fold (λ k v acc, <[ k := v ]> acc) dst src.

Module Node.
Record t := mk {
  ID : string;
  Type_ : string;
  Properties : option loc
}.

(** The node as a value: its property map read from the store. *)
Definition view (h : Heap) (n : t) : graphs.Node.t :=
  graphs.Node.mk (ID n) (Type_ n) (read h (Properties n)).
End Node.

Module Relationship.
Record t := mk {
  Source : Node.t;
  Target : Node.t;
  Type_ : string;
  Properties : option loc
}.

Definition view (h : Heap) (r : t) : graphs.Relationship.t :=
  graphs.Relationship.mk (Node.view h (Source r)) (Node.view h (Target r))
    (Type_ r) (read h (Properties r)).
End Relationship.

Module GraphDocument.
Record t := mk {
  Nodes : list Node.t;
  Relationships : list Relationship.t;
  Source : Document.t
}.

Definition view (h : Heap) (gd : t) : graphs.GraphDocument.t :=
  graphs.GraphDocument.mk (Node.view h <$> Nodes gd)
    (Relationship.view h <$> Relationships gd) (Source gd).
End GraphDocument.

(** [NewNode]: the property map is a new, empty map object. *)
Definition NewNode (id nodeType : string) (h : Heap) : Heap * Node.t :=
  let '(h1, l) := alloc ∅ h in (h1, Node.mk id nodeType (Some l)).

(** [if props == nil { props = make(...) }]: the reference to write
    through, allocated when the field was nil. *)
Definition ensureMap (props : option loc) (h : Heap) : Heap * loc :=
  match props with
  | Some l => (h, l)
  | None => alloc ∅ h
  end.

(** [n.SetProperty(key, value)]: the receiver's field changes only when it
    was nil. *)
Definition Node_SetProperty (key : string) (value : Value) (n : Node.t)
  (h : Heap) : Heap * Node.t :=
  let '(h1, l) := ensureMap (Node.Properties n) h in
  (<[ l := <[ key := value ]> (read h1 (Some l)) ]> h1,
   Node.mk (Node.ID n) (Node.Type_ n) (Some l)).

Definition Node_GetProperty (key : string) (n : Node.t) (h : Heap)
  : Value * bool :=
  match Node.Properties n with
  | None => (VNil, false)
  | Some l =>
      match read h (Some l) !! key with
      | Some val => (val, true)
      | None => (VNil, false)
      end
  end.

Definition Node_HasProperty (key : string) (n : Node.t) (h : Heap) : bool :=
  (Node_GetProperty key n h).2.

Definition Node_RemoveProperty (key : string) (n : Node.t) (h : Heap)
  : Heap * bool :=
  match Node.Properties n with
  | None => (h, false)
  | Some l =>
      if decide (is_Some (read h (Some l) !! key))
      then (<[ l := delete key (read h (Some l)) ]> h, true)
      else (h, false)
  end.

(** [GetPropertyKeys]: the keys in the unspecified order of a [range] over
    the map, each once; the empty slice for a nil map. *)
Definition Node_GetPropertyKeys (n : Node.t) (h : Heap) : gset string :=
  dom (read h (Node.Properties n)).

(** [n.Clone()]: a new map object that receives every entry of the
    receiver's map. *)
Definition Node_Clone (n : Node.t) (h : Heap) : Heap * Node.t :=
  let '(h1, l) := alloc ∅ h in
  (<[ l := assignAll (read h1 (Node.Properties n)) (read h1 (Some l)) ]> h1,
   Node.mk (Node.ID n) (Node.Type_ n) (Some l)).

Definition NewRelationship (source target : Node.t) (relType : string)
  (h : Heap) : Heap * Relationship.t :=
  let '(h1, l) := alloc ∅ h in
  (h1, Relationship.mk source target relType (Some l)).

Definition Relationship_SetProperty (key : string) (value : Value)
  (r : Relationship.t) (h : Heap) : Heap * Relationship.t :=
  let '(h1, l) := ensureMap (Relationship.Properties r) h in
  (<[ l := <[ key := value ]> (read h1 (Some l)) ]> h1,
   Relationship.mk (Relationship.Source r) (Relationship.Target r)
     (Relationship.Type_ r) (Some l)).

Definition Relationship_GetProperty (key : string) (r : Relationship.t)
  (h : Heap) : Value * bool :=
  match Relationship.Properties r with
  | None => (VNil, false)
  | Some l =>
      match read h (Some l) !! key with
      | Some val => (val, true)
      | None => (VNil, false)
      end
  end.

Definition Relationship_HasProperty (key : string) (r : Relationship.t)
  (h : Heap) : bool :=
  (Relationship_GetProperty key r h).2.

Definition Relationship_RemoveProperty (key : string) (r : Relationship.t)
  (h : Heap) : Heap * bool :=
  match Relationship.Properties r with
  | None => (h, false)
  | Some l =>
      if decide (is_Some (read h (Some l) !! key))
      then (<[ l := delete key (read h (Some l)) ]> h, true)
      else (h, false)
  end.

Definition Relationship_GetPropertyKeys (r : Relationship.t) (h : Heap)
  : gset string :=
  dom (read h (Relationship.Properties r)).

(** [r.Clone()]: the end nodes are cloned too, source first. *)
Definition Relationship_Clone (r : Relationship.t) (h : Heap)
  : Heap * Relationship.t :=
  let '(h1, source) := Node_Clone (Relationship.Source r) h in
  let '(h2, target) := Node_Clone (Relationship.Target r) h1 in
  let '(h3, l) := alloc ∅ h2 in
  (<[ l := assignAll (read h3 (Relationship.Properties r)) (read h3 (Some l)) ]> h3,
   Relationship.mk source target (Relationship.Type_ r) (Some l)).

Import GraphDocument.

Definition AddNode (node : Node.t) (gd : GraphDocument.t) : GraphDocument.t :=
  GraphDocument.mk (Nodes gd ++ [node]) (Relationships gd) (Source gd).

Definition AddRelationship (rel : Relationship.t) (gd : GraphDocument.t)
  : GraphDocument.t :=
  GraphDocument.mk (Nodes gd) (Relationships gd ++ [rel]) (Source gd).

Definition FindNode (nodeID : string) (gd : GraphDocument.t)
  : option (nat * Node.t) :=
  list_find (λ node, Node.ID node = nodeID) (Nodes gd).

Definition FindRelationship (sourceID targetID relType : string)
  (gd : GraphDocument.t) : option (nat * Relationship.t) :=
  list_find (λ rel, Node.ID (Relationship.Source rel) = sourceID
                    ∧ Node.ID (Relationship.Target rel) = targetID
                    ∧ Relationship.Type_ rel = relType)
    (Relationships gd).

(** [gd.UpdateNode(nodeID, properties)]: [node] points into [gd.Nodes], so
    a map allocated for a nil field is stored in the slice element. *)
Definition UpdateNode (nodeID : string) (properties : gmap string Value)
  (gd : GraphDocument.t) (h : Heap) : Heap * GraphDocument.t * bool :=
  match FindNode nodeID gd with
  | None => (h, gd, false)
  | Some (i, node) =>
      let '(h1, l) := ensureMap (Node.Properties node) h in
      let node' := Node.mk (Node.ID node) (Node.Type_ node) (Some l) in
      (<[ l := assignAll properties (read h1 (Some l)) ]> h1,
       GraphDocument.mk (<[ i := node' ]> (Nodes gd)) (Relationships gd)
         (Source gd),
       true)
  end.

Definition UpdateRelationship (sourceID targetID relType : string)
  (properties : gmap string Value) (gd : GraphDocument.t) (h : Heap)
  : Heap * GraphDocument.t * bool :=
  match FindRelationship sourceID targetID relType gd with
  | None => (h, gd, false)
  | Some (i, rel) =>
      let '(h1, l) := ensureMap (Relationship.Properties rel) h in
      let rel' :=
        Relationship.mk (Relationship.Source rel) (Relationship.Target rel)
          (Relationship.Type_ rel) (Some l) in
      (<[ l := assignAll properties (read h1 (Some l)) ]> h1,
       GraphDocument.mk (Nodes gd) (<[ i := rel' ]> (Relationships gd))
         (Source gd),
       true)
  end.

(** The two loops of [gd.Clone()].  Every node gets a new map object with
    the entries of the original's; every relationship gets a new map object
    for its own properties, while [Source: rel.Source] and
    [Target: rel.Target] copy the end nodes as they are, references
    included. *)
Definition cloneNodeInto (acc : Heap * GraphDocument.t) (node : Node.t)
  : Heap * GraphDocument.t :=
  let '(h, clone) := acc in
  let '(h1, l) := alloc ∅ h in
  (<[ l := assignAll (read h1 (Node.Properties node)) (read h1 (Some l)) ]> h1,
   AddNode (Node.mk (Node.ID node) (Node.Type_ node) (Some l)) clone).

Definition cloneRelationshipInto (acc : Heap * GraphDocument.t)
  (rel : Relationship.t) : Heap * GraphDocument.t :=
  let '(h, clone) := acc in
  let '(h1, l) := alloc ∅ h in
  (<[ l := assignAll (read h1 (Relationship.Properties rel))
             (read h1 (Some l)) ]> h1,
   AddRelationship
     (Relationship.mk (Relationship.Source rel) (Relationship.Target rel)
        (Relationship.Type_ rel) (Some l)) clone).

Definition Clone (gd : GraphDocument.t) (h : Heap) : Heap * GraphDocument.t :=
  let clone := GraphDocument.mk [] [] (Source gd) in
  let acc := foldl cloneNodeInto (h, clone) (Nodes gd) in
  foldl cloneRelationshipInto acc (Relationships gd).

(** [gd.Merge(other)]: the appended structs are copies of [other]'s, so
    they share its property maps. *)
Definition mergeNode (gd : GraphDocument.t) (node : Node.t) : GraphDocument.t :=
  if bool_decide (is_Some (FindNode (Node.ID node) gd)) then gd
  else AddNode node gd.

Definition mergeRelationship (gd : GraphDocument.t) (rel : Relationship.t)
  : GraphDocument.t :=
  if bool_decide
       (is_Some (FindRelationship (Node.ID (Relationship.Source rel))
                   (Node.ID (Relationship.Target rel))
                   (Relationship.Type_ rel) gd))
  then gd else AddRelationship rel gd.

Definition Merge (other gd : GraphDocument.t) : GraphDocument.t :=
  let gd1 := foldl mergeNode gd (Nodes other) in
  foldl mergeRelationship gd1 (Relationships other).

End shared.

(** ** Package neo4j *)

Module neo4j.

(** LIST_LIMIT is the maximum size of lists to include in results. *)
Definition LIST_LIMIT : nat := 128.
Definition EXHAUSTIVE_SEARCH_LIMIT : Z := 10000.
Definition DISTINCT_VALUE_LIMIT : nat := 10.
Definition BASE_ENTITY_LABEL : string := "__Entity__".

(** [if sanitized != nil { ... }]: the guard both loops of [valueSanitize]
    put in front of storing a sanitized value. *)
Definition keep (sanitized : Value) : option Value :=
  if isNil sanitized then None else Some sanitized.

(** [valueSanitize]: the type switch on [map[string]interface{}],
    [[]interface{}] and everything else.  The map loop stores under the same
    key, so it is an [omap] over the map; the slice loop appends in range
    order, so it is an [omap] over the list.  [newList] starts as a nil
    slice, and the function returns it wrapped in an interface, which is not
    the nil interface even when nothing was appended. *)
Fixpoint valueSanitize (d : Value) : Value :=
  match d with
  | VMap v => VMap (omap (λ value, keep (valueSanitize value)) v)
  | VList v =>
      if decide (LIST_LIMIT ≤ length v) then VNil
      else VList (omap (λ item, keep (valueSanitize item)) v)
  | _ => d
  end.

(** *** Errors and results *)

(** The double-quote character, for query texts that contain it. *)
Definition dq : string := String (Ascii.ascii_of_nat 34) "".

(** A Go [error] value.  The embedded code never inspects an error other
    than through its message ([err.Error()], and [%w] / [%v] formatting),
    so an error is its message. *)
Record error := Err { Error : string }.

Definition ErrDriverNotInitialized : error := Err "neo4j driver not initialized".
Definition ErrInvalidURI : error := Err "invalid neo4j URI".
Definition ErrConnectionFailed : error := Err "failed to connect to neo4j".
Definition ErrQueryExecution : error := Err "failed to execute query".
Definition ErrAPOCNotAvailable : error := Err "APOC procedures not available".

(** What a call returns next to the new state: a value, or a non-nil
    [error]. *)
Inductive result (A : Type) :=
  | Ok (a : A)
  | Fail (err : error).
Arguments Ok {A} a.
Arguments Fail {A} err.

(** *** String helpers of the Go standard library *)

(** [strings.Contains] *)
Fixpoint Contains (s substr : string) : bool :=
  if String.prefix substr s then true
  else match s with
       | EmptyString => false
       | String _ s' => Contains s' substr
       end.

(** [strings.ReplaceAll(s, old, new)] for a one-byte [old], the only way the
    code calls it. *)
Fixpoint ReplaceAll (s : string) (old : Ascii.ascii) (new : string) : string :=
  match s with
  | EmptyString => EmptyString
  | String c s' =>
      (if Ascii.eqb c old then new else String c EmptyString)
      +:+ ReplaceAll s' old new
  end.

(** [strings.Join] *)
Definition Join (elems : list string) (sep : string) : string :=
  String.concat sep elems.

(** Library functions that are kept abstract: [strings.ToUpper] (Unicode
    case mapping) and the hexadecimal MD5 digest of a text. *)
Class GoRuntime := {
  ToUpper : string → string;
  md5Hex : string → string
}.

(** cleanString removes backticks (byte 96) and cleans strings for Neo4j
    usage. *)
Definition cleanString (text : string) : string :=
  ReplaceAll text (Ascii.ascii_of_nat 96) "".

(** cleanStringValues cleans string values for schema display: newlines
    (byte 10) and carriage returns (byte 13) become spaces. *)
Definition cleanStringValues (text : string) : string :=
  let cleaned := ReplaceAll text (Ascii.ascii_of_nat 10) " " in
  ReplaceAll cleaned (Ascii.ascii_of_nat 13) " ".

(** isAPOCError, for a non-nil error. *)
Definition isAPOCError (err : error) : bool :=
  let errorStr := Error err in
  Contains errorStr "Neo.ClientError.Procedure.ProcedureNotFound"
  || Contains errorStr "apoc.meta.data"
  || Contains errorStr "apoc.merge.node"
  || Contains errorStr "apoc.merge.relationship".

Definition wrapAPOCError (err : error) : error :=
  if negb (isAPOCError err) then err
  else Err (Error ErrAPOCNotAvailable +:+ ": " +:+ Error err +:+
            "

APOC procedures are not available. Please ensure:
1. APOC plugin is installed in your Neo4j instance
2. APOC procedures are allowed in Neo4j configuration
3. The procedures 'apoc.meta.data', 'apoc.merge.node', and 'apoc.merge.relationship' are accessible
Visit https://neo4j.com/labs/apoc/ for installation instructions").

(** generateDocumentID: the declared id when the metadata holds a non-empty
    string under "id", else the digest of the page content. *)
Definition generateDocumentID `{GoRuntime} (doc : Document.t) : string :=
  match Document.Metadata doc !! "id" with
  | Some (VStr idStr) =>
      if negb (String.eqb idStr "") then idStr
      else md5Hex (Document.PageContent doc)
  | _ => md5Hex (Document.PageContent doc)
  end.

(** *** The driver and the store object *)

(** A record of a query result, [record.AsMap()]. *)
Abbreviation Row := (gmap string Value).

(** What [session.Run] and the iteration over its result deliver: an error
    from [Run] itself, or the records read by [result.Next] followed by the
    value of [result.Err()]. *)
Inductive RunOutcome :=
  | RunError (err : error)
  | RunStream (rows : list Row) (iterErr : option error).

(** The Neo4j driver together with the server behind it, which are not part
    of the repository: a transition on the remote database, for every query
    text and parameter map.  Timeouts and cancellation of the context show
    up as outcomes that are errors. *)
Class Driver := {
  DB : Type;
  session_Run : DB → string → gmap string Value → DB * RunOutcome
}.

(** The values stored under the keys of the structured schema, a
    [map[string]interface{}]: a map from label to property list, a
    [[]map[string]interface{}], or the metadata map. *)
Inductive SchemaEntry :=
  | SchemaProps (props : gmap string Value)
  | SchemaRecords (records : list Row)
  | SchemaMetadata (metadata : gmap string (list Row)).

(** The store object.  [driver] is whether [n.driver != nil]; the mutex is
    not modelled (calls are sequential here). *)
Record Neo4j := mkNeo4j {
  driver : bool;
  uri : string;
  username : string;
  password : string;
  database : string;
  sanitize : bool;
  enhancedSchema : bool;
  baseEntityLabel : bool;
  timeout : Z;
  schemaCache : string;
  structuredSchema : gmap string SchemaEntry
}.

(** [formatSchema] is kept abstract: its text depends on Go's unspecified
    map iteration order and on [fmt]'s rendering of arbitrary driver values,
    and no property stated below depends on the rendering. *)
Class SchemaRenderer := {
  formatSchema : Neo4j → gmap string SchemaEntry → string
}.

(** The result of [Query]: the map with the keys "records" and "summary". *)
Record QueryResult := mkQueryResult {
  records : list Row;
  summary_query : string;
  summary_parameters : gmap string Value
}.

Section Store.
Context `{Driver} `{GoRuntime} `{SchemaRenderer}.

(** The state the methods run on: the store object, the remote database and
    the log of every query handed to [session.Run], in order. *)
Record State := mkState {
  self : Neo4j;
  db : DB;
  issued : list (string * gmap string Value)
}.

Definition M (A : Type) : Type := State → State * result A.

Definition ret {A} (a : A) : M A := λ st, (st, Ok a).

Definition bind {A B} (m : M A) (k : A → M B) : M B :=
  λ st, match m st with
        | (st', Ok a) => k a st'
        | (st', Fail err) => (st', Fail err)
        end.

#[local] Instance M_ret : MRet M := @ret.
#[local] Instance M_bind : MBind M := λ A B k m, bind m k.

(** [for _, x := range l { if err := body(x); err != nil { return err } }] *)
Fixpoint forEach {A} (body : A → M unit) (l : list A) : M unit :=
  match l with
  | [] => ret tt
  | x :: l' => body x ;; forEach body l'
  end.

(** [if n.driver == nil { return ErrDriverNotInitialized }] *)
Definition requireDriver : M unit :=
  λ st, if driver (self st) then (st, Ok tt)
        else (st, Fail ErrDriverNotInitialized).

(** [session.Run(ctx, query, params)] on a fresh session. *)
Definition sessionRun (query : string) (params : gmap string Value)
  : State → State * RunOutcome :=
  λ st, let '(db', outcome) := session_Run (db st) query params in
        (mkState (self st) db' (issued st ++ [(query, params)]), outcome).

(** The sanitization pass of [Query]: a record is kept when its sanitized
    form is a non-nil map. *)
Definition sanitizeRecords (rows : list Row) : list Row :=
  omap (λ record, match valueSanitize (VMap record) with
                  | VMap sanitizedMap => Some sanitizedMap
                  | _ => None
                  end) rows.

(** Query executes a Cypher query against the Neo4j database. *)
Definition Query (query : string) (params : gmap string Value)
  : M QueryResult :=
  λ st,
    if negb (driver (self st)) then (st, Fail ErrDriverNotInitialized)
    else
      let '(st', outcome) := sessionRun query params st in
      match outcome with
      | RunError err =>
          (st', Fail (Err (Error ErrQueryExecution +:+ ": " +:+ Error err)))
      | RunStream rows (Some err) =>
          (st', Fail (Err (Error ErrQueryExecution +:+ ": " +:+ Error err)))
      | RunStream rows None =>
          let records :=
            if sanitize (self st) then sanitizeRecords rows else rows in
          (st', Ok (mkQueryResult records query params))
      end.

(** *** Batch import of graph documents *)

(** [docs[i:end]] *)
Definition slice {A} (l : list A) (i j : Z) : list A :=
  take (Z.to_nat (j - i)) (drop (Z.to_nat i) l).

(** ensureBaseEntityConstraint creates the base entity constraint if needed:
    a failed lookup falls through to the creation. *)
Definition ensureBaseEntityConstraint : M unit :=
  λ st,
    if negb (baseEntityLabel (self st)) then (st, Ok tt)
    else
      let constraintQuery :=
        "SHOW CONSTRAINTS YIELD name, labelsOrTypes, properties WHERE $label IN labelsOrTypes AND $property IN properties" in
      let createConstraintQuery :=
        "CREATE CONSTRAINT IF NOT EXISTS FOR (b:`" +:+ BASE_ENTITY_LABEL
        +:+ "`) REQUIRE b.id IS UNIQUE" in
      let create : M unit := Query createConstraintQuery ∅ ;; ret tt in
      match Query constraintQuery
              {[ "label" := VStr BASE_ENTITY_LABEL; "property" := VStr "id" ]}
              st with
      | (st1, Fail _) => create st1
      | (st1, Ok result) =>
          if decide (0 < length (records result)) then (st1, Ok tt)
          else create st1
      end.

(** getNodeImportQuery generates the node import query. *)
Definition getNodeImportQuery (n : Neo4j) (includeSource : bool) : string :=
  let queryParts : list string :=
    if includeSource then
      ["MERGE (d:Document {id: $document_id})";
       "SET d.text = $document_text";
       "SET d += $document_metadata";
       "WITH d"]
    else [] in
  let queryParts := queryParts ++ ["UNWIND $nodes AS node"] in
  let queryParts :=
    if baseEntityLabel n then
      queryParts
      ++ ["MERGE (source:`" +:+ BASE_ENTITY_LABEL +:+ "` {id: node.id})"]
      ++ ["SET source += node.properties"]
      ++ [if includeSource then "WITH source, node, d" else "WITH source, node"]
      ++ ["CALL apoc.create.addLabels(source, [node.type]) YIELD node AS n"]
    else
      queryParts
      ++ (if includeSource then ["WITH d, node"] else [])
      ++ ["CALL apoc.merge.node([node.type], {id: node.id}, node.properties, {}) YIELD node AS n"] in
  let queryParts :=
    if includeSource then
      queryParts ++ ["WITH d, n"] ++ ["MERGE (d)-[:MENTIONS]->(n)"]
    else queryParts in
  let queryParts := queryParts ++ ["RETURN count(n) AS nodes_created"] in
  Join queryParts " ".

(** getRelImportQuery generates the relationship import query. *)
Definition getRelImportQuery (n : Neo4j) : string :=
  if baseEntityLabel n then
    "UNWIND $relationships AS rel " +:+
    "MERGE (source:" +:+ BASE_ENTITY_LABEL +:+ " {id: rel.source}) " +:+
    "MERGE (target:" +:+ BASE_ENTITY_LABEL +:+ " {id: rel.target}) " +:+
    "WITH source, target, rel " +:+
    "CALL apoc.merge.relationship(source, rel.type, {}, rel.properties, target) YIELD rel AS r " +:+
    "RETURN count(r) AS relationships_created"
  else
    "UNWIND $relationships AS rel " +:+
    "CALL apoc.merge.node([rel.source_label], {id: rel.source}, {}, {}) YIELD node AS source " +:+
    "CALL apoc.merge.node([rel.target_label], {id: rel.target}, {}, {}) YIELD node AS target " +:+
    "CALL apoc.merge.relationship(source, rel.type, {}, rel.properties, target) YIELD rel AS r " +:+
    "RETURN count(r) AS relationships_created".

(** The tail shared by both import functions:
    [if err != nil && isAPOCError(err) { return wrapAPOCError(err) }; return err]. *)
Definition reportImport (m : M QueryResult) : M unit :=
  λ st, match m st with
        | (st', Ok _) => (st', Ok tt)
        | (st', Fail err) =>
            if isAPOCError err then (st', Fail (wrapAPOCError err))
            else (st', Fail err)
        end.

(** Turns the error of [m], if any, into [wrap err]. *)
Definition mapError {A} (wrap : error → error) (m : M A) : M A :=
  λ st, match m st with
        | (st', Ok a) => (st', Ok a)
        | (st', Fail err) => (st', Fail (wrap err))
        end.

(** importNodes imports nodes from a graph document. *)
Definition importNodes (opts : graphs.Options.t) (doc : graphs.GraphDocument.t)
  : M unit :=
  if decide (length (graphs.GraphDocument.Nodes doc) = 0) then ret tt
  else
    mapError (λ err, Err ("failed to ensure base entity constraint: "
                          +:+ Error err))
      ensureBaseEntityConstraint ;;
    ((λ st,
      let query :=
        getNodeImportQuery (self st) (graphs.Options.IncludeSource opts) in
      let nodeData :=
        (λ node, VMap {[ "id" := VStr (graphs.Node.ID node);
                         "type" := VStr (cleanString (graphs.Node.Type_ node));
                         "properties" := VMap (graphs.Node.Properties node) ]})
        <$> graphs.GraphDocument.Nodes doc in
      let params : gmap string Value := {[ "nodes" := VList nodeData ]} in
      let params :=
        if graphs.Options.IncludeSource opts then
          let source := graphs.GraphDocument.Source doc in
          <[ "document_metadata" := VMap (Document.Metadata source) ]>
            (<[ "document_text" := VStr (Document.PageContent source) ]>
               (<[ "document_id" := VStr (generateDocumentID source) ]> params))
        else params in
      reportImport (Query query params) st) : M unit).

(** importRelationships imports relationships from a graph document. *)
Definition importRelationships (opts : graphs.Options.t)
  (doc : graphs.GraphDocument.t) : M unit :=
  if decide (length (graphs.GraphDocument.Relationships doc) = 0) then ret tt
  else
    λ st,
      let query := getRelImportQuery (self st) in
      let relData :=
        (λ rel,
           let source := graphs.Relationship.Source rel in
           let target := graphs.Relationship.Target rel in
           VMap {[ "source" := VStr (graphs.Node.ID source);
                   "source_label" := VStr (cleanString (graphs.Node.Type_ source));
                   "target" := VStr (graphs.Node.ID target);
                   "target_label" := VStr (cleanString (graphs.Node.Type_ target));
                   "type" :=
                     VStr (cleanString
                             (ReplaceAll (ToUpper (graphs.Relationship.Type_ rel))
                                (Ascii.ascii_of_nat 32) "_"));
                   "properties" := VMap (graphs.Relationship.Properties rel) ]})
        <$> graphs.GraphDocument.Relationships doc in
      let params : gmap string Value := {[ "relationships" := VList relData ]} in
      reportImport (Query query params) st.

(** processBatch processes a batch of graph documents: nodes first, then
    relationships. *)
Definition processBatch (docs : list graphs.GraphDocument.t)
  (opts : graphs.Options.t) : M unit :=
  forEach (importNodes opts) docs ;;
  forEach (importRelationships opts) docs.

(** The batching loop of [AddGraphDocument],
    [for i := 0; i < len(docs); i += batchSize { ... }], from index [i] on.
    Every iteration advances [i] by [batchSize >= 1], so [len(docs)]
    iterations are enough; [fuel] counts them.  The indices stay below
    twice the length of the slice, so the machine integers do not wrap. *)
Fixpoint batchLoop (fuel : nat) (docs : list graphs.GraphDocument.t)
  (opts : graphs.Options.t) (batchSize i : Z) : M unit :=
  match fuel with
  | O => ret tt
  | S fuel' =>
      if decide (i < Z.of_nat (length docs))%Z then
        let end_ := (i + batchSize)%Z in
        let end_ :=
          if decide (end_ > Z.of_nat (length docs))%Z
          then Z.of_nat (length docs) else end_ in
        let batch := slice docs i end_ in
        processBatch batch opts ;;
        batchLoop fuel' docs opts batchSize (i + batchSize)%Z
      else ret tt
  end.

(** AddGraphDocument adds graph documents to the Neo4j store. *)
Definition AddGraphDocument (docs : list graphs.GraphDocument.t)
  (options : list graphs.Option) : M unit :=
  requireDriver ;;
  let opts := graphs.applyOptions options in
  let batchSize := graphs.Options.BatchSize opts in
  let batchSize := if decide (batchSize ≤ 0)%Z then 100%Z else batchSize in
  batchLoop (length docs) docs opts batchSize 0%Z.

(** *** Adding, updating and removing single entities *)

(** The query [AddNodes] builds for one node under a merge mode. *)
Definition addNodeQuery (n : Neo4j) (mode : graphs.MergeMode)
  (node : graphs.Node.t) : string :=
  let nodeType := graphs.Node.Type_ node in
  match mode with
  | graphs.MergeModeCreate =>
      if baseEntityLabel n then
        "CREATE (n:`" +:+ nodeType +:+ "`:`" +:+ BASE_ENTITY_LABEL
        +:+ "` {id: $id}) SET n += $properties"
      else "CREATE (n:`" +:+ nodeType +:+ "` {id: $id}) SET n += $properties"
  | graphs.MergeModeUpdate =>
      "MATCH (n:`" +:+ nodeType +:+ "` {id: $id}) SET n += $properties"
  | graphs.MergeModeReplace =>
      if baseEntityLabel n then
        "MERGE (n:`" +:+ nodeType +:+ "`:`" +:+ BASE_ENTITY_LABEL
        +:+ "` {id: $id}) SET n = $properties"
      else "MERGE (n:`" +:+ nodeType +:+ "` {id: $id}) SET n = $properties"
  | graphs.MergeModeUpsert =>
      if baseEntityLabel n then
        "MERGE (n:`" +:+ nodeType +:+ "`:`" +:+ BASE_ENTITY_LABEL
        +:+ "` {id: $id}) SET n += $properties"
      else "MERGE (n:`" +:+ nodeType +:+ "` {id: $id}) SET n += $properties"
  end.

(** The body of the loop of [AddNodes]: only the error of [session.Run]
    is looked at, the result is dropped. *)
Definition addNode (opts : graphs.Options.t) (node : graphs.Node.t) : M unit :=
  λ st,
    let query := addNodeQuery (self st) (graphs.Options.MergeMode opts) node in
    let params : gmap string Value :=
      {[ "id" := VStr (graphs.Node.ID node);
         "properties" := VMap (graphs.Node.Properties node) ]} in
    match sessionRun query params st with
    | (st', RunError err) =>
        (st', Fail (Err ("failed to add node " +:+ graphs.Node.ID node
                         +:+ ": " +:+ Error err)))
    | (st', RunStream _ _) => (st', Ok tt)
    end.

(** AddNodes adds individual nodes to the Neo4j store. *)
Definition AddNodes (nodes : list graphs.Node.t)
  (options : list graphs.Option) : M unit :=
  requireDriver ;;
  let opts := graphs.applyOptions options in
  forEach (addNode opts) nodes.

(** The query [AddRelationships] builds for one relationship. *)
Definition addRelationshipQuery (mode : graphs.MergeMode)
  (rel : graphs.Relationship.t) : string :=
  match mode with
  | graphs.MergeModeCreate =>
      "
				MATCH (s {id: $sourceId}), (t {id: $targetId})
				CREATE (s)-[r:" +:+ graphs.Relationship.Type_ rel +:+ "]->(t)
				SET r = $properties
			"
  | graphs.MergeModeUpdate =>
      "
				MATCH (s {id: $sourceId})-[r:" +:+ graphs.Relationship.Type_ rel +:+ "]->(t {id: $targetId})
				SET r += $properties
			"
  | graphs.MergeModeReplace =>
      "
				MATCH (s {id: $sourceId}), (t {id: $targetId})
				MERGE (s)-[r:" +:+ graphs.Relationship.Type_ rel +:+ "]->(t)
				SET r = $properties
			"
  | graphs.MergeModeUpsert =>
      "
				MATCH (s {id: $sourceId}), (t {id: $targetId})
				MERGE (s)-[r:" +:+ graphs.Relationship.Type_ rel +:+ "]->(t)
				SET r += $properties
			"
  end.

Definition addRelationship (opts : graphs.Options.t)
  (rel : graphs.Relationship.t) : M unit :=
  λ st,
    let query := addRelationshipQuery (graphs.Options.MergeMode opts) rel in
    let sourceID := graphs.Node.ID (graphs.Relationship.Source rel) in
    let targetID := graphs.Node.ID (graphs.Relationship.Target rel) in
    let params : gmap string Value :=
      {[ "sourceId" := VStr sourceID;
         "targetId" := VStr targetID;
         "properties" := VMap (graphs.Relationship.Properties rel) ]} in
    match sessionRun query params st with
    | (st', RunError err) =>
        (st', Fail (Err ("failed to add relationship " +:+ sourceID +:+ "-"
                         +:+ graphs.Relationship.Type_ rel +:+ "->"
                         +:+ targetID +:+ ": " +:+ Error err)))
    | (st', RunStream _ _) => (st', Ok tt)
    end.

(** AddRelationships adds individual relationships to the Neo4j store. *)
Definition AddRelationships (relationships : list graphs.Relationship.t)
  (options : list graphs.Option) : M unit :=
  requireDriver ;;
  let opts := graphs.applyOptions options in
  forEach (addRelationship opts) relationships.

(** UpdateNode updates an existing node in the Neo4j store; [result.Next]
    is false when the result holds no record. *)
Definition UpdateNode (nodeID : string) (properties : gmap string Value)
  : M unit :=
  requireDriver ;;
  ((λ st,
    let query := "
		MATCH (n {id: $id})
		SET n += $properties
		RETURN n
	" in
    let params : gmap string Value :=
      {[ "id" := VStr nodeID; "properties" := VMap properties ]} in
    match sessionRun query params st with
    | (st', RunError err) =>
        (st', Fail (Err ("failed to update node " +:+ nodeID +:+ ": "
                         +:+ Error err)))
    | (st', RunStream [] _) =>
        (st', Fail (Err ("node " +:+ nodeID +:+ " not found")))
    | (st', RunStream (_ :: _) _) => (st', Ok tt)
    end) : M unit).

(** UpdateRelationship updates an existing relationship in the Neo4j store. *)
Definition UpdateRelationship (sourceID targetID relType : string)
  (properties : gmap string Value) : M unit :=
  requireDriver ;;
  ((λ st,
    let query := "
		MATCH (s {id: $sourceId})-[r:" +:+ relType +:+ "]->(t {id: $targetId})
		SET r += $properties
		RETURN r
	" in
    let params : gmap string Value :=
      {[ "sourceId" := VStr sourceID;
         "targetId" := VStr targetID;
         "properties" := VMap properties ]} in
    match sessionRun query params st with
    | (st', RunError err) =>
        (st', Fail (Err ("failed to update relationship " +:+ sourceID +:+ "-"
                         +:+ relType +:+ "->" +:+ targetID +:+ ": "
                         +:+ Error err)))
    | (st', RunStream [] _) =>
        (st', Fail (Err ("relationship " +:+ sourceID +:+ "-" +:+ relType
                         +:+ "->" +:+ targetID +:+ " not found")))
    | (st', RunStream (_ :: _) _) => (st', Ok tt)
    end) : M unit).

(** The two query texts of [RemoveNode], chosen by [opts.CascadeDelete]. *)
Definition removeNodeQuery (cascade : bool) : string :=
  if cascade then "
			MATCH (n {id: $id})
			DETACH DELETE n
		"
  else "
			MATCH (n {id: $id})
			WHERE NOT (n)--()
			DELETE n
		".

(** RemoveNode removes a node from the Neo4j store: only the error of
    [session.Run] is looked at. *)
Definition RemoveNode (nodeID : string) (options : list graphs.Option)
  : M unit :=
  requireDriver ;;
  let opts := graphs.applyOptions options in
  ((λ st,
    let params : gmap string Value := {[ "id" := VStr nodeID ]} in
    match sessionRun (removeNodeQuery (graphs.Options.CascadeDelete opts))
            params st with
    | (st', RunError err) =>
        (st', Fail (Err ("failed to remove node " +:+ nodeID +:+ ": "
                         +:+ Error err)))
    | (st', RunStream _ _) => (st', Ok tt)
    end) : M unit).

Definition removeNodesQuery (cascade : bool) : string :=
  if cascade then "
			UNWIND $ids AS id
			MATCH (n {id: id})
			DETACH DELETE n
		"
  else "
			UNWIND $ids AS id
			MATCH (n {id: id})
			WHERE NOT (n)--()
			DELETE n
		".

(** RemoveNodes removes multiple nodes from the Neo4j store with a single
    query that receives all the IDs. *)
Definition RemoveNodes (nodeIDs : list string) (options : list graphs.Option)
  : M unit :=
  requireDriver ;;
  let opts := graphs.applyOptions options in
  ((λ st,
    let params : gmap string Value := {[ "ids" := VList (VStr <$> nodeIDs) ]} in
    match sessionRun (removeNodesQuery (graphs.Options.CascadeDelete opts))
            params st with
    | (st', RunError err) =>
        (st', Fail (Err ("failed to remove nodes: " +:+ Error err)))
    | (st', RunStream _ _) => (st', Ok tt)
    end) : M unit).

(** The query and parameters [RemoveRelationship] hands to the driver. *)
Definition removeRelationshipQuery (relType : string) : string :=
  "
		MATCH (s {id: $sourceId})-[r:" +:+ relType +:+ "]->(t {id: $targetId})
		DELETE r
	".

Definition removeRelationshipParams (sourceID targetID : string)
  : gmap string Value :=
  {[ "sourceId" := VStr sourceID; "targetId" := VStr targetID ]}.

(** RemoveRelationship removes a specific relationship from the Neo4j
    store. *)
Definition RemoveRelationship (sourceID targetID relType : string) : M unit :=
  requireDriver ;;
  ((λ st,
    match sessionRun (removeRelationshipQuery relType)
            (removeRelationshipParams sourceID targetID) st with
    | (st', RunError err) =>
        (st', Fail (Err ("failed to remove relationship " +:+ sourceID +:+ "-"
                         +:+ relType +:+ "->" +:+ targetID +:+ ": "
                         +:+ Error err)))
    | (st', RunStream _ _) => (st', Ok tt)
    end) : M unit).

(** RemoveRelationships removes multiple relationships from the Neo4j
    store: one [RemoveRelationship] per identifier, in order, returning the
    first error. *)
Definition RemoveRelationships
  (relationships : list graphs.RelationshipIdentifier.t) : M unit :=
  requireDriver ;;
  forEach (λ rel,
             RemoveRelationship (graphs.RelationshipIdentifier.SourceID rel)
               (graphs.RelationshipIdentifier.TargetID rel)
               (graphs.RelationshipIdentifier.Type_ rel))
          relationships.

(** *** Schema refresh *)

Definition nodePropsQuery : string :=
  "
		CALL apoc.meta.data()
		YIELD label, other, elementType, type, property
		WHERE NOT type = " +:+ dq +:+ "RELATIONSHIP" +:+ dq +:+ " AND elementType = " +:+ dq +:+ "node" +:+ dq +:+ " 
		  AND NOT label IN $EXCLUDED_LABELS
		WITH label AS nodeLabels, collect({property:property, type:type}) AS properties
		RETURN {labels: nodeLabels, properties: properties} AS output
	".

Definition relPropsQuery : string :=
  "
		CALL apoc.meta.data()
		YIELD label, other, elementType, type, property
		WHERE NOT type = " +:+ dq +:+ "RELATIONSHIP" +:+ dq +:+ " AND elementType = " +:+ dq +:+ "relationship" +:+ dq +:+ "
		      AND NOT label in $EXCLUDED_LABELS
		WITH label AS nodeLabels, collect({property:property, type:type}) AS properties
		RETURN {type: nodeLabels, properties: properties} AS output
	".

Definition relQuery : string :=
  "
		CALL apoc.meta.data()
		YIELD label, other, elementType, type, property
		WHERE type = " +:+ dq +:+ "RELATIONSHIP" +:+ dq +:+ " AND elementType = " +:+ dq +:+ "node" +:+ dq +:+ "
		UNWIND other AS other_node
		WITH * WHERE NOT label IN $EXCLUDED_LABELS
		    AND NOT other_node IN $EXCLUDED_LABELS
		RETURN {start: label, type: property, end: toString(other_node)} AS output
	".

Definition constraintsQuery : string := "SHOW CONSTRAINTS".

Definition indexQuery : string :=
  "CALL apoc.schema.nodes() YIELD label, properties, type, size, valuesSelectivity " +:+
  "WHERE type = 'RANGE' RETURN *, size * valuesSelectivity as distinctValues".

Definition excludedLabels : Value :=
  VList [VStr "_Bloom_Perspective_"; VStr "_Bloom_Scene_"; VStr "__Entity__"].

Definition excludedRels : Value := VList [VStr "_Bloom_HAS_SCENE_"].

(** The loops that fill [nodeProps] and [relProps]: for every record whose
    "output" is a map with a string under [nameKey] and any value under
    "properties", store the properties under that name. *)
Definition collectProps (nameKey : string) (rows : list Row)
  : gmap string Value :=
  foldl (λ props record,
           match record !! "output" with
           | Some (VMap output) =>
               match output !! nameKey with
               | Some (VStr name) =>
                   match output !! "properties" with
                   | Some properties => <[ name := properties ]> props
                   | None => props
                   end
               | _ => props
               end
           | _ => props
           end) ∅ rows.

(** The loop that fills [relationships]: the "output" maps, in order. *)
Definition collectRelationships (rows : list Row) : list Row :=
  omap (λ record, match record !! "output" with
                  | Some (VMap output) => Some output
                  | _ => None
                  end) rows.

(** The metadata entry for one best-effort query: its records, or the
    empty list when the query failed. *)
Definition metadataEntry (queried : result QueryResult) : list Row :=
  match queried with
  | Ok queryResult => records queryResult
  | Fail _ => []
  end.

(** RefreshSchema refreshes the schema information from the Neo4j
    database. *)
Definition RefreshSchema : M unit :=
  requireDriver ;;
  nodeResult ←
    mapError (λ err, if isAPOCError err then wrapAPOCError err
                     else Err ("failed to query node properties: "
                               +:+ Error err))
      (Query nodePropsQuery {[ "EXCLUDED_LABELS" := excludedLabels ]});
  relPropsResult ←
    mapError (λ err, Err ("failed to query relationship properties: "
                          +:+ Error err))
      (Query relPropsQuery {[ "EXCLUDED_LABELS" := excludedRels ]});
  relsResult ←
    mapError (λ err, Err ("failed to query relationships: " +:+ Error err))
      (Query relQuery {[ "EXCLUDED_LABELS" := excludedLabels ]});
  ((λ st,
    let nodeProps := collectProps "labels" (records nodeResult) in
    let relProps := collectProps "type" (records relPropsResult) in
    let relationships := collectRelationships (records relsResult) in
    let schema : gmap string SchemaEntry :=
      <[ "relationships" := SchemaRecords relationships ]>
        (<[ "rel_props" := SchemaProps relProps ]>
           (<[ "node_props" := SchemaProps nodeProps ]> ∅)) in
    let '(st1, constraintResult) := Query constraintsQuery ∅ st in
    let metadata : gmap string (list Row) :=
      <[ "constraint" := metadataEntry constraintResult ]> ∅ in
    let '(st2, indexResult) := Query indexQuery ∅ st1 in
    let metadata := <[ "index" := metadataEntry indexResult ]> metadata in
    let schema := <[ "metadata" := SchemaMetadata metadata ]> schema in
    let n := self st2 in
    let n1 :=
      mkNeo4j (driver n) (uri n) (username n) (password n) (database n)
        (sanitize n) (enhancedSchema n) (baseEntityLabel n) (timeout n)
        (schemaCache n) schema in
    let n2 :=
      mkNeo4j (driver n1) (uri n1) (username n1) (password n1) (database n1)
        (sanitize n1) (enhancedSchema n1) (baseEntityLabel n1) (timeout n1)
        (formatSchema n1 schema) (structuredSchema n1) in
    (mkState n2 (db st2) (issued st2), Ok tt)) : M unit).

(** GetSchema returns the current schema as a string representation;
    GetStructuredSchema returns the structured schema information. *)
Definition GetSchema (n : Neo4j) : string := schemaCache n.

Definition GetStructuredSchema (n : Neo4j) : gmap string SchemaEntry :=
  structuredSchema n.

End Store.

(** *** Nodes read back from the store *)

(** The fields of the driver's [neo4j.Node] that the code reads. *)
Record DriverNode := mkDriverNode {
  Labels : list string;
  Props : gmap string Value
}.

(** convertNeo4jNodeToGraphNode converts a Neo4j node to a graphs.Node: the
    type is the first label other than the base entity label, the ID is the
    string stored under "id", and the property map is the node's own. *)
Definition convertNeo4jNodeToGraphNode (node : DriverNode) : graphs.Node.t :=
  let nodeType :=
    match list_find (λ label, label ≠ BASE_ENTITY_LABEL) (Labels node) with
    | Some (_, label) => label
    | None => ""
    end in
  let nodeID :=
    match Props node !! "id" with
    | Some (VStr idStr) => idStr
    | _ => ""
    end in
  graphs.Node.mk nodeID nodeType (Props node).

(** *** Connection options *)



(** The fields of the driver's [neo4j.Config] that the options write. *)
Module Config.
Record t := mk {
  MaxConnectionLifetime : Z;
  MaxConnectionPoolSize : Z;
  ConnectionAcquisitionTimeout : Z
}.
End Config.

(** options holds the configuration for Neo4j connections. *)
Module options.
Record t := mk {
  uri : string;
  username : string;
  password : string;
  database : string;
  sanitize : bool;
  enhancedSchema : bool;
  baseEntityLabel : bool;
  timeout : Z;
  config : Config.t
}.

End options.

(** Option is a function type that can be used to modify the Neo4j
    configuration. *)
Definition Option : Type := options.t → options.t.

Definition WithURI (uri : string) : Option :=
  λ o, options.mk uri (options.username o) (options.password o)
         (options.database o) (options.sanitize o) (options.enhancedSchema o)
         (options.baseEntityLabel o) (options.timeout o) (options.config o).

Definition WithHost (host : string) : Option :=
  WithURI ("bolt://" +:+ host +:+ ":7687").

(** [fmt.Sprintf] renders the port with the verb for decimal integers. *)
Definition WithHostAndPort (host : string) (port : Z) : Option :=
  WithURI ("bolt://" +:+ host +:+ ":" +:+ pretty port).

Definition WithUsername (username : string) : Option :=
  λ o, options.mk (options.uri o) username (options.password o)
         (options.database o) (options.sanitize o) (options.enhancedSchema o)
         (options.baseEntityLabel o) (options.timeout o) (options.config o).


Definition WithAuth (username password : string) : Option :=
  λ o, options.mk (options.uri o) username password
         (options.database o) (options.sanitize o) (options.enhancedSchema o)
         (options.baseEntityLabel o) (options.timeout o) (options.config o).

Definition WithDatabase (database : string) : Option :=
  λ o, options.mk (options.uri o) (options.username o) (options.password o)
         database (options.sanitize o) (options.enhancedSchema o)
         (options.baseEntityLabel o) (options.timeout o) (options.config o).

Definition WithConfig (config : Config.t) : Option :=
  λ o, options.mk (options.uri o) (options.username o) (options.password o)
         (options.database o) (options.sanitize o) (options.enhancedSchema o)
         (options.baseEntityLabel o) (options.timeout o) config.

Definition WithMaxConnectionLifetime (lifetime : Z) : Option :=
  λ o, WithConfig
         (Config.mk lifetime
            (Config.MaxConnectionPoolSize (options.config o))
            (Config.ConnectionAcquisitionTimeout (options.config o))) o.

Definition WithMaxConnectionPoolSize (size : Z) : Option :=
  λ o, WithConfig
         (Config.mk (Config.MaxConnectionLifetime (options.config o)) size
            (Config.ConnectionAcquisitionTimeout (options.config o))) o.

Definition WithConnectionAcquisitionTimeout (timeout : Z) : Option :=
  λ o, WithConfig
         (Config.mk (Config.MaxConnectionLifetime (options.config o))
            (Config.MaxConnectionPoolSize (options.config o)) timeout) o.

Definition WithSanitize (sanitize : bool) : Option :=
  λ o, options.mk (options.uri o) (options.username o) (options.password o)
         (options.database o) sanitize (options.enhancedSchema o)
         (options.baseEntityLabel o) (options.timeout o) (options.config o).

Definition WithEnhancedSchema (enhanced : bool) : Option :=
  λ o, options.mk (options.uri o) (options.username o) (options.password o)
         (options.database o) (options.sanitize o) enhanced
         (options.baseEntityLabel o) (options.timeout o) (options.config o).

Definition WithTimeout (timeout : Z) : Option :=
  λ o, options.mk (options.uri o) (options.username o) (options.password o)
         (options.database o) (options.sanitize o) (options.enhancedSchema o)
         (options.baseEntityLabel o) timeout (options.config o).

Definition WithBaseEntityLabel (enable : bool) : Option :=
  λ o, options.mk (options.uri o) (options.username o) (options.password o)
         (options.database o) (options.sanitize o) (options.enhancedSchema o)
         enable (options.timeout o) (options.config o).





End neo4j.

(** * Specification vocabulary and sample data *)

(** ** Lists keyed by an identity *)

(** The first occurrence of every key, in list order. *)
Fixpoint first_by {A K : Type} `{EqDecision K} (key : A → K) (l : list A)
  : list A :=
  match l with
  | [] => []
  | x :: l' => x :: filter (λ y, key y ≠ key x) (first_by key l')
  end.

(** The loop body shared by both loops of [Merge], on the bare slice. *)
Definition append_new {A K : Type} `{EqDecision K} (key : A → K)
  (acc : list A) (x : A) : list A :=
  if decide (key x ∈ key <$> acc) then acc else acc ++ [x].

(** ** Consecutive chunks of a list *)

(** The number of chunks of [size] elements that [n] elements fill, the last
    one possibly short. *)
Definition chunkCount (n size : nat) : nat := (n + size - 1) / size.

(** The partition of [l] into consecutive chunks of [size] elements: chunk
    number [k] is [l[k*size : (k+1)*size]], cut at the end of [l]. *)
Definition chunks {A : Type} (size : nat) (l : list A) : list (list A) :=
  (λ k, take size (drop (k * size) l)) <$> seq 0 (chunkCount (length l) size).

(** ** Graph documents *)

Section GraphDocumentVocabulary.
Import graphs.
Import graphs.GraphDocument.

#[global] Instance RelationshipIdentifier_eq_dec :
  EqDecision RelationshipIdentifier.t.
Proof. solve_decision. Defined.

(** The document built by the repository's test: two persons and one
    relationship between them. *)
Definition alice : Node.t := Node.mk "1" "Person" {[ "name" := VStr "Alice" ]}.
Definition bob : Node.t := Node.mk "2" "Person" {[ "name" := VStr "Bob" ]}.
Definition knows : Relationship.t :=
  Relationship.mk alice bob "KNOWS" {[ "since" := VStr "2020" ]}.
Definition sample_doc : GraphDocument.t :=
  GraphDocument.mk [alice; bob] [knows]
    (Document.mk "Test document content" {[ "source" := VStr "test" ]}).

(** C6 as the claim words it: [Merge] appends every entry of the incoming
    document whose identity is absent from the receiver as it was before
    the call. *)
Definition Merge_appends_every_absent (docA docB : GraphDocument.t) : Prop :=
  Nodes (Merge docB docA)
  = Nodes docA
      ++ filter (λ b, Node.ID b ∉ Node.ID <$> Nodes docA) (Nodes docB)
  ∧ Relationships (Merge docB docA)
    = Relationships docA
        ++ filter (λ r, GetIdentifier r ∉ GetIdentifier <$> Relationships docA)
             (Relationships docB).

(** An incoming document that carries the same ID twice ([AddNode] does not
    deduplicate). *)
Definition alice_v2 : Node.t :=
  Node.mk "1" "Person" {[ "name" := VStr "Alicia" ]}.
Definition empty_doc : GraphDocument.t :=
  NewGraphDocument (Document.mk "" ∅).
Definition twice_doc : GraphDocument.t :=
  AddNode alice_v2 (AddNode alice empty_doc).

End GraphDocumentVocabulary.

(** ** Occurrences inside nested values *)

Section SanitizeVocabulary.
Import neo4j.

(** The elements a short slice keeps: its sanitized elements that are not
    the nil interface, in range order. *)
Definition sanitized_elements (l : list Value) : list Value :=
  filter (λ s, isNil s = false) (valueSanitize <$> l).

(** [Occurs v x]: the value [v] occurs somewhere in the nested structure
    [x] (as [x] itself, as an element of a sequence or as a value of a map,
    at any depth). *)
Inductive Occurs (v : Value) : Value → Prop :=
  | occurs_here : Occurs v v
  | occurs_item l x : x ∈ l → Occurs v x → Occurs v (VList l)
  | occurs_entry m (k : string) x :
      m !! k = Some x → Occurs v x → Occurs v (VMap m).

(** [Exposed v x]: [v] occurs in [x] and no sequence that strictly encloses
    it has [LIST_LIMIT] elements or more. *)
Inductive Exposed (v : Value) : Value → Prop :=
  | exposed_here : Exposed v v
  | exposed_item l x :
      length l < LIST_LIMIT → x ∈ l → Exposed v x → Exposed v (VList l)
  | exposed_entry m (k : string) x :
      m !! k = Some x → Exposed v x → Exposed v (VMap m).

(** C3 as the claim words it, for one input [x]: every oversized sequence
    occurring in [x] is absent from the output, and every shorter sequence
    occurring in [x] appears in the output with its kept elements. *)
Definition every_sequence_claim (x : Value) : Prop :=
  (∀ l, Occurs (VList l) x → LIST_LIMIT ≤ length l →
        ¬ Occurs (VList l) (valueSanitize x))
  ∧ (∀ l, Occurs (VList l) x → length l < LIST_LIMIT →
          Occurs (VList (sanitized_elements l)) (valueSanitize x)).

(** 128 copies of the one-element sequence [[1]]. *)
Definition oversized_of_short : Value :=
  VList (replicate LIST_LIMIT (VList [VInt 1])).

(** A short sequence holding nothing but a nil and an oversized sequence,
    stored under a map key. *)
Definition all_absent : list Value :=
  [VNil; VList (replicate LIST_LIMIT VNil)].

End SanitizeVocabulary.

(** ** Work of the store *)

Section StoreVocabulary.
Import neo4j.
Context `{Driver} `{GoRuntime} `{SchemaRenderer}.

(** One unit of work of the import pipeline: the node import, or the
    relationship import, of one document. *)
Inductive ImportStep :=
  | ImportNodesOf (doc : graphs.GraphDocument.t)
  | ImportRelationshipsOf (doc : graphs.GraphDocument.t).

Definition runStep (opts : graphs.Options.t) (step : ImportStep) : M unit :=
  match step with
  | ImportNodesOf doc => importNodes opts doc
  | ImportRelationshipsOf doc => importRelationships opts doc
  end.

(** The order of work the specification prescribes: chunk after chunk, and
    within a chunk the node imports of all its documents before the
    relationship imports of all its documents. *)
Definition schedule (size : nat) (docs : list graphs.GraphDocument.t)
  : list ImportStep :=
  concat ((λ chunk, (ImportNodesOf <$> chunk) ++ (ImportRelationshipsOf <$> chunk))
          <$> chunks size docs).

(** [BatchSize], or 100 when it is not positive. *)
Definition effectiveBatchSize (opts : graphs.Options.t) : nat :=
  if decide (graphs.Options.BatchSize opts ≤ 0)%Z then 100
  else Z.to_nat (graphs.Options.BatchSize opts).

(** The loop body of [RemoveRelationships]. *)
Definition removeOne (rel : graphs.RelationshipIdentifier.t) : M unit :=
  RemoveRelationship (graphs.RelationshipIdentifier.SourceID rel)
    (graphs.RelationshipIdentifier.TargetID rel)
    (graphs.RelationshipIdentifier.Type_ rel).

(** The query and parameters that removing [rel] hands to the driver. *)
Definition removalCall (rel : graphs.RelationshipIdentifier.t)
  : string * gmap string Value :=
  (removeRelationshipQuery (graphs.RelationshipIdentifier.Type_ rel),
   removeRelationshipParams (graphs.RelationshipIdentifier.SourceID rel)
     (graphs.RelationshipIdentifier.TargetID rel)).

End StoreVocabulary.

(** ** Concrete drivers *)

Section DriverExamples.
Import neo4j.

(** Stand-ins for the abstract library functions; the examples below do not
    depend on what they return. *)
Definition exampleRuntime : GoRuntime :=
  {| ToUpper := λ s, s; md5Hex := λ _, "00000000000000000000000000000000" |}.

Definition exampleRenderer : SchemaRenderer :=
  {| formatSchema := λ n schema,
       if enhancedSchema n then "enhanced schema" else "basic schema" |}.

(** A connected store object with the default settings. *)
Definition connected : Neo4j :=
  mkNeo4j true "bolt://localhost:7687" "neo4j" "password" "neo4j"
    false false false 0 "" ∅.

(** A store that holds no entity.  A [MATCH] that finds nothing is not an
    error in Cypher: the driver reports success with an empty result and the
    store stays as it is.  [UpdateNode] relies on exactly this answer to
    detect a missing node. *)
Definition emptyStore : Driver :=
  {| DB := unit; session_Run := λ db _ _, (db, RunStream [] None) |}.

(** A store on which every query against a relationship of type LOCKED
    fails; every other query takes effect, which the database counts. *)
Definition lockingStore : Driver :=
  {| DB := nat;
     session_Run := λ db query _,
       if Contains query "[r:LOCKED]"
       then (db, RunError (Err "lock acquisition timed out"))
       else (S db, RunStream [] None) |}.

Definition rel_1_2 : graphs.RelationshipIdentifier.t :=
  graphs.RelationshipIdentifier.mk "1" "2" "KNOWS".
Definition rel_2_3 : graphs.RelationshipIdentifier.t :=
  graphs.RelationshipIdentifier.mk "2" "3" "LOCKED".
Definition rel_3_4 : graphs.RelationshipIdentifier.t :=
  graphs.RelationshipIdentifier.mk "3" "4" "KNOWS".

(** One record of schema metadata, shaped so that each of the three schema
    queries can return it. *)
Definition schemaRow : gmap string Value :=
  {[ "output" :=
       VMap {[ "labels" := VStr "Person";
               "type" := VStr "KNOWS";
               "start" := VStr "Person";
               "end" := VStr "Person";
               "properties" :=
                 VList [VMap {[ "property" := VStr "name";
                                "type" := VStr "STRING" ]}] ]} ]}.

(** A store whose three schema queries answer with that record and whose
    constraint and index queries are refused. *)
Definition restrictedStore : Driver :=
  {| DB := unit;
     session_Run := λ db query _,
       if String.eqb query constraintsQuery || String.eqb query indexQuery
       then (db, RunError (Err "permission denied"))
       else (db, RunStream [schemaRow] None) |}.

(** Three documents, to be imported in chunks of two. *)
Definition carol : graphs.Node.t := graphs.Node.mk "3" "Person" ∅.
Definition doc_ab : graphs.GraphDocument.t := sample_doc.
Definition doc_bc : graphs.GraphDocument.t :=
  graphs.GraphDocument.mk [bob; carol]
    [graphs.Relationship.mk bob carol "works with" ∅]
    (Document.mk "second" ∅).
Definition doc_ca : graphs.GraphDocument.t :=
  graphs.GraphDocument.mk [carol; alice]
    [graphs.Relationship.mk carol alice "KNOWS" ∅]
    (Document.mk "third" ∅).

End DriverExamples.

(** ** More sample documents *)

Section MoreDocuments.
Import graphs.

(** Three persons; Alice knows Bob and Bob works with Carol. *)
Definition works_with : Relationship.t :=
  Relationship.mk bob carol "works with" ∅.
Definition trio_doc : GraphDocument.t :=
  GraphDocument.mk [alice; bob; carol] [knows; works_with]
    (Document.mk "three persons" ∅).

End MoreDocuments.

(** ** Bytes of a string *)

(** The bytes of a Go string, in order. *)
Abbreviation bytes := String.list_ascii_of_string.

Definition backtick : Ascii.ascii := Ascii.ascii_of_nat 96.
Definition space : Ascii.ascii := Ascii.ascii_of_nat 32.
Definition LF : Ascii.ascii := Ascii.ascii_of_nat 10.
Definition CR : Ascii.ascii := Ascii.ascii_of_nat 13.

(** ** Sanitized values *)

Section CleanValues.
Import neo4j.


(** The name and property list a record of the two property queries
    contributes to the schema, if it is well formed: its "output" is a map
    with a string under [nameKey] and some value under "properties". *)
Definition schemaEntryOf (nameKey : string) (record : gmap string Value)
  : option (string * Value) :=
  match record !! "output" with
  | Some (VMap output) =>
      match output !! nameKey, output !! "properties" with
      | Some (VStr name), Some properties => Some (name, properties)
      | _, _ => None
      end
  | _ => None
  end.

End CleanValues.

(** ** Calls and logs of the store *)

Section CallVocabulary.
Import neo4j.
Context `{Driver} `{GoRuntime} `{SchemaRenderer}.

(** [Extends st st']: the store object is the same and the query log of
    [st'] is the log of [st] followed by further calls. *)
Definition Extends (st st' : State) : Prop :=
  self st' = self st ∧ issued st `prefix_of` issued st'.

(** [Frame m]: running [m] leaves the store object alone and only ever adds
    to the query log. *)
Definition Frame {A} (m : M A) : Prop := ∀ st, Extends st (m st).1.

(** [Refused st m]: from [st], [m] fails for want of a driver and changes
    nothing. *)
Definition Refused {A} (st : State) (m : M A) : Prop :=
  m st = (st, Fail ErrDriverNotInitialized).

(** The number of queries the import of [docs] takes when no base entity
    constraint is involved: one per document that has nodes and one per
    document that has relationships. *)
Definition importQueryCount (docs : list graphs.GraphDocument.t) : nat :=
  length (filter (λ doc, length (graphs.GraphDocument.Nodes doc) ≠ 0) docs)
  + length (filter (λ doc, length (graphs.GraphDocument.Relationships doc) ≠ 0)
              docs).

Definition stepQueryCount (step : ImportStep) : nat :=
  match step with
  | ImportNodesOf doc =>
      if decide (length (graphs.GraphDocument.Nodes doc) = 0) then 0 else 1
  | ImportRelationshipsOf doc =>
      if decide (length (graphs.GraphDocument.Relationships doc) = 0)
      then 0 else 1
  end.

(** The two calls of [ensureBaseEntityConstraint]. *)
Definition constraintLookupCall : string * gmap string Value :=
  ("SHOW CONSTRAINTS YIELD name, labelsOrTypes, properties WHERE $label IN labelsOrTypes AND $property IN properties",
   {[ "label" := VStr BASE_ENTITY_LABEL; "property" := VStr "id" ]}).

Definition constraintCreateCall : string * gmap string Value :=
  ("CREATE CONSTRAINT IF NOT EXISTS FOR (b:`__Entity__`) REQUIRE b.id IS UNIQUE",
   ∅).

(** Whether the lookup of the constraint delivered at least one record
    without an error. *)
Definition constraintFound (outcome : RunOutcome) : bool :=
  match outcome with
  | RunStream (_ :: _) None => true
  | _ => false
  end.

(** How [Query] reports what the driver delivered. *)
Definition queryVerdict (outcome : RunOutcome) : result unit :=
  match outcome with
  | RunStream _ None => Ok tt
  | RunError cause | RunStream _ (Some cause) =>
      Fail (Err ("failed to execute query: " +:+ Error cause))
  end.



(** The five calls of a successful [RefreshSchema], in the order they are
    issued. *)
Definition refreshCalls : list (string * gmap string Value) :=
  [(nodePropsQuery, {[ "EXCLUDED_LABELS" := excludedLabels ]});
   (relPropsQuery, {[ "EXCLUDED_LABELS" := excludedRels ]});
   (relQuery, {[ "EXCLUDED_LABELS" := excludedLabels ]});
   (constraintsQuery, ∅);
   (indexQuery, ∅)].

(** The connection settings of a store object: everything but the schema
    cache. *)
Definition sameSettings (n n' : Neo4j) : Prop :=
  driver n' = driver n ∧ uri n' = uri n ∧ username n' = username n
  ∧ password n' = password n ∧ database n' = database n
  ∧ sanitize n' = sanitize n ∧ enhancedSchema n' = enhancedSchema n
  ∧ baseEntityLabel n' = baseEntityLabel n ∧ timeout n' = timeout n.

End CallVocabulary.

Section MoreDriverExamples.
Import neo4j.

(** Store objects that differ from [connected] in one setting. *)
Definition disconnected : Neo4j :=
  mkNeo4j false "bolt://localhost:7687" "neo4j" "password" "neo4j"
    false false false 0 "" ∅.


Definition labelling : Neo4j :=
  mkNeo4j true "bolt://localhost:7687" "neo4j" "password" "neo4j"
    false false true 0 "" ∅.



End MoreDriverExamples.

(** ** Documents over shared property maps *)

Section SharedVocabulary.
Import shared.

(** [Preserves h h']: every map object of [h] is still there in [h'], with
    the same entries. *)
Definition Preserves (h h' : Heap) : Prop :=
  ∀ l, l ∈ dom h → h' !! l = h !! l.

(** [Allocated h r]: the reference is nil or points to a map object of
    [h]. *)
Definition Allocated (h : Heap) (r : option loc) : Prop :=
  match r with
  | Some l => l ∈ dom h
  | None => True
  end.

(** Every property map the document refers to is a map object of [h]. *)
Definition AllocatedDocument (h : Heap) (gd : GraphDocument.t) : Prop :=
  Forall (λ n, Allocated h (Node.Properties n)) (GraphDocument.Nodes gd)
  ∧ Forall (λ r, Allocated h (Relationship.Properties r)
                 ∧ Allocated h (Node.Properties (Relationship.Source r))
                 ∧ Allocated h (Node.Properties (Relationship.Target r)))
      (GraphDocument.Relationships gd).

(** The document of the repository's test as the test builds it: the
    relationship is made from the two node values, so its end nodes share
    the property maps of the nodes. *)
Definition testHeap : Heap :=
  {[ 0 := {[ "name" := VStr "Alice" ]};
     1 := {[ "name" := VStr "Bob" ]};
     2 := {[ "since" := VStr "2020" ]} ]}.
Definition node1 : Node.t := Node.mk "1" "Person" (Some 0).
Definition node2 : Node.t := Node.mk "2" "Person" (Some 1).
Definition rel12 : Relationship.t :=
  Relationship.mk node1 node2 "KNOWS" (Some 2).
Definition testDoc : GraphDocument.t :=
  GraphDocument.mk [node1; node2] [rel12]
    (Document.mk "Test document content" {[ "source" := VStr "test" ]}).

End SharedVocabulary.

(** * Properties *)

(** ** Induction over nested values *)

Section ValueInduction.

Lemma vsize_elem (l : list Value) (x : Value) :
  x ∈ l → vsize x < vsize (VList l).
Proof.
  induction 1 as [x l|x y l _ IH]; simpl in *; lia.
Qed.

Lemma vsize_lookup (m : gmap string Value) (k : string) (x : Value) :
  m !! k = Some x → vsize x < vsize (VMap m).
Proof.
  intros Hk. simpl.
  rewrite (map_fold_delete_L _ _ k x m); [lia| |done].
  intros; lia.
Qed.

Lemma Value_nested_ind (P : Value → Prop) :
  P VNil →
  (∀ b, P (VBool b)) →
  (∀ z, P (VInt z)) →
  (∀ bits, P (VFloat bits)) →
  (∀ s, P (VStr s)) →
  (∀ l, Forall P l → P (VList l)) →
  (∀ m, map_Forall (λ _, P) m → P (VMap m)) →
  ∀ v, P v.
Proof.
  intros HN HB HI HF HS HL HM v.
  remember (vsize v) as n eqn:Hn.
  revert v Hn. induction n as [n IHn] using lt_wf_ind.
  intros v ->. destruct v; auto.
  - apply HL, Forall_forall. intros x Hx.
    eapply IHn; [|reflexivity]. by apply vsize_elem.
  - apply HM. intros k x Hk.
    eapply IHn; [|reflexivity]. by eapply vsize_lookup.
Qed.

End ValueInduction.

(** ** In-memory graph documents *)

Lemma filter_Forall_id {A} (P : A → Prop) `{!∀ x, Decision (P x)} (l : list A) :
  Forall P l → filter P l = l.
Proof.
  induction 1 as [|x l Hx _ IH]; [done|].
  by rewrite filter_cons_True, IH.
Qed.

Section KeyedLists.
Context {A K : Type} `{EqDecision K} (key : A → K).

(** Deleting position [i] of a list whose keys are pairwise distinct is the
    same as filtering out the key found at [i]. *)
Lemma delete_index_filter (l : list A) (i : nat) (x : A) :
  NoDup (key <$> l) → l !! i = Some x →
  take i l ++ drop (S i) l = filter (λ y, key y ≠ key x) l.
Proof.
  revert i. induction l as [|a l IH]; intros i Hnd Hi; [done|].
  apply NoDup_cons in Hnd as [Ha Hnd].
  destruct i as [|i]; simpl in *.
  - simplify_eq. rewrite filter_cons_False by naive_solver.
    rewrite drop_0. symmetry. apply filter_Forall_id, Forall_forall.
    intros y Hy Heq. apply Ha. rewrite <- Heq. by apply list_elem_of_fmap_2.
  - rewrite filter_cons_True.
    + f_equal. by apply IH.
    + intros Heq. apply Ha. rewrite Heq.
      apply list_elem_of_fmap_2. by eapply list_elem_of_lookup_2.
Qed.

Lemma first_by_filter (P : K → Prop) `{!∀ k, Decision (P k)} (l : list A) :
  first_by key (filter (λ y, P (key y)) l) = filter (λ y, P (key y)) (first_by key l).
Proof.
  induction l as [|a l IH]; [done|]. simpl.
  destruct (decide (P (key a))) as [Ha|Ha].
  - rewrite !filter_cons_True by done. simpl. f_equal.
    rewrite IH, !list_filter_filter. apply list_filter_iff. naive_solver.
  - rewrite !filter_cons_False by done. rewrite IH.
    symmetry. apply list_filter_filter_l.
    intros x Hx Heq. apply Ha. by rewrite <- Heq.
Qed.

Lemma first_by_NoDup (l : list A) : NoDup (key <$> l) → first_by key l = l.
Proof.
  induction l as [|a l IH]; [done|].
  intros [Ha Hnd]%NoDup_cons. simpl. f_equal. rewrite IH by done.
  apply filter_Forall_id, Forall_forall.
  intros y Hy Heq. apply Ha. rewrite <- Heq. by apply list_elem_of_fmap_2.
Qed.

Lemma NoDup_fmap_filter (P : A → Prop) `{!∀ x, Decision (P x)} (l : list A) :
  NoDup (key <$> l) → NoDup (key <$> filter P l).
Proof.
  induction l as [|a l IH]; [done|].
  intros [Ha Hnd]%NoDup_cons. rewrite filter_cons.
  case_decide; [|by apply IH].
  rewrite fmap_cons. apply NoDup_cons. split; [|by apply IH].
  intros (y & Hy & [_ Hin]%list_elem_of_filter)%list_elem_of_fmap.
  apply Ha. rewrite Hy. by apply list_elem_of_fmap_2.
Qed.

Lemma foldl_append_new (l acc : list A) :
  foldl (append_new key) acc l
  = acc ++ first_by key (filter (λ x, key x ∉ key <$> acc) l).
Proof.
  revert acc. induction l as [|a l IH]; intros acc; simpl.
  { by rewrite app_nil_r. }
  destruct (decide (key a ∈ key <$> acc)) as [Ha|Ha].
  - replace (append_new key acc a) with acc
      by (unfold append_new; by rewrite decide_True).
    rewrite IH. by rewrite filter_cons_False by naive_solver.
  - replace (append_new key acc a) with (acc ++ [a])
      by (unfold append_new; by rewrite decide_False).
    rewrite IH, filter_cons_True by done. simpl.
    rewrite <- app_assoc. simpl. do 2 f_equal.
    pose proof (first_by_filter (λ k, k ≠ key a)
                  (filter (λ x, key x ∉ key <$> acc) l)) as E.
    simpl in E. rewrite <- E, list_filter_filter. clear E.
    f_equal. apply list_filter_iff. intros x.
    rewrite fmap_app, elem_of_app. simpl. rewrite list_elem_of_singleton.
    naive_solver.
Qed.

End KeyedLists.

Section GraphDocumentFacts.
Import graphs.
Import graphs.GraphDocument.

Lemma NodeExists_spec (nodeID : string) (gd : GraphDocument.t) :
  NodeExists nodeID gd = true ↔ nodeID ∈ Node.ID <$> Nodes gd.
Proof.
  unfold NodeExists, FindNode. rewrite bool_decide_eq_true. split.
  - intros [[i x] (Hi & Hx & _)%list_find_Some].
    rewrite <- Hx. apply list_elem_of_fmap_2. by eapply list_elem_of_lookup_2.
  - intros (x & -> & Hx)%list_elem_of_fmap.
    by eapply list_find_elem_of.
Qed.

Lemma RelationshipExists_spec (rel : Relationship.t) (gd : GraphDocument.t) :
  RelationshipExists (Node.ID (Relationship.Source rel))
    (Node.ID (Relationship.Target rel)) (Relationship.Type_ rel) gd = true
  ↔ GetIdentifier rel ∈ GetIdentifier <$> Relationships gd.
Proof.
  unfold RelationshipExists, FindRelationship.
  rewrite bool_decide_eq_true. split.
  - intros [[i x] (Hi & (H1 & H2 & H3) & _)%list_find_Some].
    apply list_elem_of_fmap. exists x. split.
    + unfold GetIdentifier. by rewrite H1, H2, H3.
    + by eapply list_elem_of_lookup_2.
  - intros (x & Hid & Hx)%list_elem_of_fmap.
    eapply list_find_elem_of; [exact Hx|].
    unfold GetIdentifier in Hid. by simplify_eq.
Qed.

Lemma foldl_mergeNode (l : list Node.t) (gd : GraphDocument.t) :
  foldl mergeNode gd l
  = GraphDocument.mk (foldl (append_new Node.ID) (Nodes gd) l)
      (Relationships gd) (Source gd).
Proof.
  revert gd. induction l as [|a l IH]; intros gd; simpl.
  { by destruct gd. }
  rewrite IH. unfold mergeNode, append_new.
  destruct (NodeExists (Node.ID a) gd) eqn:E.
  - apply NodeExists_spec in E. by rewrite decide_True.
  - rewrite decide_False; [done|].
    intros H%NodeExists_spec. congruence.
Qed.

Lemma foldl_mergeRelationship (l : list Relationship.t) (gd : GraphDocument.t) :
  foldl mergeRelationship gd l
  = GraphDocument.mk (Nodes gd)
      (foldl (append_new GetIdentifier) (Relationships gd) l) (Source gd).
Proof.
  revert gd. induction l as [|a l IH]; intros gd; simpl.
  { by destruct gd. }
  rewrite IH. unfold mergeRelationship, append_new.
  destruct (RelationshipExists _ _ _ gd) eqn:E.
  - apply RelationshipExists_spec in E. by rewrite decide_True.
  - rewrite decide_False; [done|].
    intros H%RelationshipExists_spec. congruence.
Qed.

(** What [Merge] does to the two slices, for arbitrary documents. *)
Lemma Merge_unfold (docA docB : GraphDocument.t) :
  Merge docB docA
  = GraphDocument.mk
      (Nodes docA ++
         first_by Node.ID
           (filter (λ b, Node.ID b ∉ Node.ID <$> Nodes docA) (Nodes docB)))
      (Relationships docA ++
         first_by GetIdentifier
           (filter (λ r, GetIdentifier r ∉ GetIdentifier <$> Relationships docA)
              (Relationships docB)))
      (Source docA).
Proof.
  unfold Merge. rewrite foldl_mergeNode, foldl_mergeRelationship. simpl.
  by rewrite !foldl_append_new.
Qed.

(** C1: on a document whose nodes are unique by ID and that contains [n],
    [RemoveNode(n.ID)] returns true; afterwards no node carries [n.ID], no
    relationship has [n.ID] as source or target, every other node and
    relationship is retained in order, and the provenance is untouched. *)
Theorem RemoveNode_cascades (gd : GraphDocument.t) (n : Node.t) :
  NoDup (Node.ID <$> Nodes gd) →
  n ∈ Nodes gd →
  ∃ gd',
    RemoveNode (Node.ID n) gd = (gd', true)
    ∧ (∀ m, m ∈ Nodes gd' → Node.ID m ≠ Node.ID n)
    ∧ (∀ r, r ∈ Relationships gd' →
         Node.ID (Relationship.Source r) ≠ Node.ID n
         ∧ Node.ID (Relationship.Target r) ≠ Node.ID n)
    ∧ Nodes gd' = filter (λ m, Node.ID m ≠ Node.ID n) (Nodes gd)
    ∧ Relationships gd'
      = filter (λ r, Node.ID (Relationship.Source r) ≠ Node.ID n
                     ∧ Node.ID (Relationship.Target r) ≠ Node.ID n)
          (Relationships gd)
    ∧ Source gd' = Source gd.
Proof.
  intros Hnd Hn. unfold RemoveNode.
  destruct (list_find _ _) as [[i x]|] eqn:Hfind.
  - apply list_find_Some in Hfind as (Hi & Hx & _).
    eexists. split; [reflexivity|]. simpl.
    rewrite (delete_index_filter Node.ID _ i x Hnd Hi), Hx.
    split; [|split; [|done]].
    + by intros m [? _]%list_elem_of_filter.
    + by intros r [? _]%list_elem_of_filter.
  - apply list_find_None in Hfind.
    rewrite Forall_forall in Hfind. by destruct (Hfind n Hn).
Qed.

Lemma RemoveNode_cascades_witness :
  NoDup (Node.ID <$> Nodes sample_doc)
  ∧ alice ∈ Nodes sample_doc
  ∧ ∃ gd', RemoveNode "1" sample_doc = (gd', true)
           ∧ Nodes gd' = [bob] ∧ Relationships gd' = [].
Proof.
  assert (Hnd : NoDup (Node.ID <$> Nodes sample_doc)).
  { simpl. apply NoDup_cons. split; [|apply NoDup_singleton].
    rewrite list_elem_of_singleton. discriminate. }
  assert (Hin : alice ∈ Nodes sample_doc) by apply list_elem_of_here.
  split; [exact Hnd|]. split; [exact Hin|].
  destruct (RemoveNode_cascades sample_doc alice Hnd Hin)
    as (gd' & Hrun & _ & _ & Hnodes & Hrels & _).
  exists gd'. split; [exact Hrun|]. split.
  - rewrite Hnodes. reflexivity.
  - rewrite Hrels. reflexivity.
Defined.

(** C6, counterexample: merging a document that holds ID "1" twice into an
    empty receiver appends the first of the two only, although neither
    identity was present in the receiver. *)
Lemma Merge_skips_repeated_incoming :
  Nodes (Merge twice_doc empty_doc) = [alice]
  ∧ filter (λ b, Node.ID b ∉ Node.ID <$> Nodes empty_doc) (Nodes twice_doc)
    = [alice; alice_v2]
  ∧ ¬ Merge_appends_every_absent empty_doc twice_doc.
Proof.
  assert (H1 : Nodes (Merge twice_doc empty_doc) = [alice]).
  { rewrite Merge_unfold. reflexivity. }
  assert (H2 : filter (λ b, Node.ID b ∉ Node.ID <$> Nodes empty_doc)
                 (Nodes twice_doc) = [alice; alice_v2]) by reflexivity.
  split; [exact H1|]. split; [exact H2|].
  intros [Hn _]. rewrite H1, H2 in Hn. discriminate Hn.
Qed.

(** C6, amended: [Merge] keeps the receiver's nodes, relationships and
    provenance exactly as they were (so no existing entry's properties are
    overwritten) and appends, in the incoming document's order, the first
    occurrence of every node ID, respectively (SourceID, TargetID, Type)
    triple, that is absent from the receiver.  When the incoming document
    is itself unique by identity, these are exactly its entries whose
    identity is absent from the receiver. *)
Theorem Merge_appends_first_absent (docA docB : GraphDocument.t) :
  Nodes (Merge docB docA)
  = Nodes docA
      ++ first_by Node.ID
           (filter (λ b, Node.ID b ∉ Node.ID <$> Nodes docA) (Nodes docB))
  ∧ Relationships (Merge docB docA)
    = Relationships docA
        ++ first_by GetIdentifier
             (filter (λ r, GetIdentifier r ∉ GetIdentifier <$> Relationships docA)
                (Relationships docB))
  ∧ Source (Merge docB docA) = Source docA
  ∧ (NoDup (Node.ID <$> Nodes docB) →
     NoDup (GetIdentifier <$> Relationships docB) →
     Merge_appends_every_absent docA docB).
Proof.
  unfold Merge_appends_every_absent.
  rewrite Merge_unfold. simpl. repeat split.
  - rewrite first_by_NoDup; [done|]. by apply NoDup_fmap_filter.
  - rewrite first_by_NoDup; [done|]. by apply NoDup_fmap_filter.
Qed.

End GraphDocumentFacts.

(** ** Value sanitization *)

Section SanitizeFacts.
Import neo4j.

Lemma isNil_true (s : Value) : isNil s = true ↔ s = VNil.
Proof. destruct s; simpl; naive_solver. Qed.

Lemma isNil_false (s : Value) : isNil s = false ↔ s ≠ VNil.
Proof. destruct s; simpl; naive_solver. Qed.

Lemma keep_Some (s y : Value) : keep s = Some y ↔ s = y ∧ isNil s = false.
Proof. unfold keep. destruct (isNil s); naive_solver. Qed.

Lemma keep_None (s : Value) : keep s = None ↔ s = VNil.
Proof. unfold keep. rewrite <- isNil_true. destruct (isNil s); naive_solver. Qed.

Lemma omap_keep_sanitize (l : list Value) :
  omap (λ item, keep (valueSanitize item)) l = sanitized_elements l.
Proof.
  unfold sanitized_elements. induction l as [|x l IH]; [done|].
  change (omap ?f (x :: l))
    with (match f x with Some y => y :: omap f l | None => omap f l end).
  rewrite IH, fmap_cons, filter_cons.
  destruct (keep (valueSanitize x)) as [y|] eqn:E.
  - apply keep_Some in E as [-> Hy]. by rewrite decide_True.
  - apply keep_None in E. rewrite E. by rewrite decide_False by done.
Qed.

Lemma valueSanitize_long (l : list Value) :
  LIST_LIMIT ≤ length l → valueSanitize (VList l) = VNil.
Proof. intros H. simpl. by rewrite decide_True. Qed.

Lemma valueSanitize_short (l : list Value) :
  length l < LIST_LIMIT →
  valueSanitize (VList l) = VList (sanitized_elements l).
Proof.
  intros H. simpl. rewrite decide_False by lia.
  by rewrite omap_keep_sanitize.
Qed.

Lemma valueSanitize_map_lookup (m : gmap string Value) (k : string) :
  ∃ m', valueSanitize (VMap m) = VMap m'
        ∧ m' !! k = m !! k ≫= (λ value, keep (valueSanitize value)).
Proof. eexists. split; [reflexivity|]. apply lookup_omap. Qed.

Lemma sanitized_elements_length (l : list Value) :
  length (sanitized_elements l) ≤ length l.
Proof.
  unfold sanitized_elements.
  etransitivity; [apply length_filter|]. by rewrite length_fmap.
Qed.

Lemma omap_fixed {A} (f : A → option A) (l : list A) :
  Forall (λ y, f y = Some y) l → omap f l = l.
Proof.
  induction 1 as [|y l Hy _ IH]; [done|].
  change (omap f (y :: l))
    with (match f y with Some z => z :: omap f l | None => omap f l end).
  by rewrite Hy, IH.
Qed.

(** C4: [valueSanitize] is idempotent on every nested
    map / sequence / scalar value. *)
Theorem valueSanitize_idempotent (x : Value) :
  valueSanitize (valueSanitize x) = valueSanitize x.
Proof.
  induction x as [| | | | |l IH|m IH] using Value_nested_ind; try done.
  - destruct (decide (LIST_LIMIT ≤ length l)) as [Hlong|Hshort].
    { by rewrite valueSanitize_long. }
    rewrite valueSanitize_short by lia.
    rewrite valueSanitize_short
      by (pose proof (sanitized_elements_length l); lia).
    f_equal. rewrite <- (omap_keep_sanitize (sanitized_elements l)).
    apply omap_fixed, Forall_forall. intros y Hy.
    unfold sanitized_elements in Hy.
    apply list_elem_of_filter in Hy as [Hnil (z & -> & Hz)%list_elem_of_fmap].
    rewrite Forall_forall in IH. rewrite (IH z Hz).
    by apply keep_Some.
  - simpl. f_equal. apply map_eq. intros k. rewrite !lookup_omap.
    destruct (m !! k) as [z|] eqn:Hk; simpl; [|done].
    destruct (keep (valueSanitize z)) as [y|] eqn:E; simpl; [|done].
    apply keep_Some in E as [<- Hy].
    rewrite (IH k z Hk). by apply keep_Some.
Qed.

Lemma Exposed_Occurs (v x : Value) : Exposed v x → Occurs v x.
Proof. induction 1; eauto using Occurs. Qed.

Lemma Occurs_VNil (v : Value) : Occurs v VNil → v = VNil.
Proof. by inversion 1. Qed.

Lemma Occurs_list_not_nil (l : list Value) (x : Value) :
  Occurs (VList l) x → isNil x = false.
Proof. intros H. apply isNil_false. intros ->. by apply Occurs_VNil in H. Qed.

Lemma elem_of_sanitized_elements (l : list Value) (y : Value) :
  y ∈ sanitized_elements l
  ↔ isNil y = false ∧ ∃ z, y = valueSanitize z ∧ z ∈ l.
Proof.
  unfold sanitized_elements.
  by rewrite list_elem_of_filter, list_elem_of_fmap.
Qed.

(** No sequence inside the output has [LIST_LIMIT] elements or more. *)
Lemma valueSanitize_output_short (x : Value) (l : list Value) :
  Occurs (VList l) (valueSanitize x) → length l < LIST_LIMIT.
Proof.
  revert l.
  induction x as [| | | | |l0 IH|m IH] using Value_nested_ind; intros l;
    try (by inversion 1).
  - destruct (decide (LIST_LIMIT ≤ length l0)) as [Hlong|Hshort].
    { rewrite valueSanitize_long by done. by inversion 1. }
    rewrite valueSanitize_short by lia.
    inversion 1 as [Heq|l1 y Hy Hocc Heq|]; subst.
    + pose proof (sanitized_elements_length l0). lia.
    + apply elem_of_sanitized_elements in Hy as (_ & z & -> & Hz).
      rewrite Forall_forall in IH. by eapply IH.
  - simpl. inversion 1 as [|Heq|m1 k y Hk Hocc Heq]; subst.
    rewrite lookup_omap in Hk.
    destruct (m !! k) as [z|] eqn:Hz; simpl in Hk; [|done].
    apply keep_Some in Hk as [<- _]. by eapply IH.
Qed.

(** A sequence that is not buried in an oversized one is sanitized in
    place. *)
Lemma valueSanitize_exposed (x : Value) (l : list Value) :
  length l < LIST_LIMIT →
  Exposed (VList l) x →
  Occurs (VList (sanitized_elements l)) (valueSanitize x).
Proof.
  intros Hl. induction 1 as [|l0 z Hshort Hz _ IH|m k z Hk _ IH].
  - rewrite valueSanitize_short by done. constructor.
  - rewrite valueSanitize_short by done.
    eapply occurs_item; [|exact IH].
    apply elem_of_sanitized_elements. split; [|by eauto].
    by eapply Occurs_list_not_nil.
  - simpl. eapply (occurs_entry _ _ k); [|exact IH].
    rewrite lookup_omap, Hk. simpl. apply keep_Some. split; [done|].
    by eapply Occurs_list_not_nil.
Qed.

(** C3, counterexample: a short sequence that sits inside an oversized one
    is dropped together with it, so it does not appear in the output. *)
Lemma valueSanitize_drops_buried_short :
  valueSanitize oversized_of_short = VNil
  ∧ Occurs (VList [VInt 1]) oversized_of_short
  ∧ ¬ every_sequence_claim oversized_of_short.
Proof.
  assert (H1 : valueSanitize oversized_of_short = VNil).
  { apply valueSanitize_long. by rewrite length_replicate. }
  assert (H2 : Occurs (VList [VInt 1]) oversized_of_short).
  { eapply occurs_item; [|apply occurs_here]. apply list_elem_of_here. }
  split; [exact H1|]. split; [exact H2|].
  intros [_ Hshort]. specialize (Hshort [VInt 1] H2).
  rewrite H1 in Hshort.
  assert (Hlt : length [VInt 1] < LIST_LIMIT) by (unfold LIST_LIMIT; simpl; lia).
  apply Hshort, Occurs_VNil in Hlt. discriminate Hlt.
Qed.

(** C3, amended: an oversized sequence is reported absent, a map drops the
    key that holds one, and no sequence of [LIST_LIMIT] elements or more
    occurs anywhere in the output; every shorter sequence that is not nested
    inside an oversized one appears in the output as the sequence of its
    sanitized, non-absent elements in their original order. *)
Theorem valueSanitize_sequences (x : Value) :
  (∀ l, LIST_LIMIT ≤ length l →
        valueSanitize (VList l) = VNil
        ∧ (∀ m k, m !! k = Some (VList l) →
             ∃ m', valueSanitize (VMap m) = VMap m' ∧ m' !! k = None)
        ∧ ¬ Occurs (VList l) (valueSanitize x))
  ∧ (∀ l, length l < LIST_LIMIT →
          valueSanitize (VList l) = VList (sanitized_elements l)
          ∧ (Exposed (VList l) x →
             Occurs (VList (sanitized_elements l)) (valueSanitize x))).
Proof.
  split.
  - intros l Hlong. split; [by apply valueSanitize_long|]. split.
    + intros m k Hk.
      destruct (valueSanitize_map_lookup m k) as (m' & Hm & Hlook).
      exists m'. split; [done|].
      rewrite Hlook, Hk. cbn [mbind option_bind].
      by rewrite valueSanitize_long.
    + intros Hocc%valueSanitize_output_short. lia.
  - intros l Hshort. split; [by apply valueSanitize_short|].
    by apply valueSanitize_exposed.
Qed.

(** C10: a sequence shorter than [LIST_LIMIT] is never reported absent; when
    it is empty or all of its elements sanitize to absent it is retained as
    the empty sequence, and a map keeps the key that holds it. *)
Theorem valueSanitize_short_retained (l : list Value) :
  length l < LIST_LIMIT →
  valueSanitize (VList l) ≠ VNil
  ∧ (Forall (λ item, valueSanitize item = VNil) l →
     valueSanitize (VList l) = VList []
     ∧ ∀ m k, m !! k = Some (VList l) →
         ∃ m', valueSanitize (VMap m) = VMap m'
               ∧ m' !! k = Some (VList [])).
Proof.
  intros Hshort. rewrite valueSanitize_short by done.
  split; [done|]. intros Hall.
  assert (Hempty : sanitized_elements l = []).
  { unfold sanitized_elements. induction Hall as [|y l' Hy _ IH]; [done|].
    rewrite fmap_cons, Hy, filter_cons_False by done. apply IH.
    simpl in Hshort. lia. }
  rewrite Hempty. split; [done|]. intros m k Hk.
  destruct (valueSanitize_map_lookup m k) as (m' & Hm & Hlook).
  exists m'. split; [done|].
  rewrite Hlook, Hk. cbn [mbind option_bind].
  by rewrite valueSanitize_short, Hempty.
Qed.

Lemma valueSanitize_short_retained_witness :
  length all_absent < LIST_LIMIT
  ∧ Forall (λ item, valueSanitize item = VNil) all_absent
  ∧ valueSanitize (VList all_absent) = VList []
  ∧ ∃ m', valueSanitize (VMap {[ "embedding" := VList all_absent ]}) = VMap m'
          ∧ m' !! "embedding" = Some (VList []).
Proof.
  assert (Hlen : length all_absent < LIST_LIMIT)
    by (unfold LIST_LIMIT; simpl; lia).
  assert (Hall : Forall (λ item, valueSanitize item = VNil) all_absent).
  { unfold all_absent. apply Forall_cons. split; [reflexivity|].
    apply Forall_singleton, valueSanitize_long. by rewrite length_replicate. }
  destruct (valueSanitize_short_retained all_absent Hlen) as [_ Hret].
  destruct (Hret Hall) as [Hlist Hmap].
  split; [exact Hlen|]. split; [exact Hall|]. split; [exact Hlist|].
  apply (Hmap {[ "embedding" := VList all_absent ]} "embedding").
  apply lookup_singleton_eq.
Defined.

(** The repository's own test of [valueSanitize]: the oversized lists are
    removed at both levels, the small list and the scalars stay. *)
Example valueSanitize_repository_test :
  valueSanitize
    (VMap {[ "normal_field" := VStr "value";
             "large_list" := VList (replicate 200 VNil);
             "small_list" := VList [VInt 1; VInt 2; VInt 3];
             "nested" :=
               VMap {[ "inner_field" := VStr "inner_value";
                       "large_inner" := VList (replicate 150 VNil) ]} ]})
  = VMap {[ "normal_field" := VStr "value";
            "small_list" := VList [VInt 1; VInt 2; VInt 3];
            "nested" := VMap {[ "inner_field" := VStr "inner_value" ]} ]}.
Proof. vm_compute. reflexivity. Qed.

End SanitizeFacts.

(** ** Consecutive chunks of a list *)

Section Chunking.
Context {A : Type}.

Lemma chunkCount_bounds (n size : nat) :
  1 ≤ size →
  size * chunkCount n size ≤ n + size - 1
  ∧ n + size - 1 < size * S (chunkCount n size).
Proof.
  intros Hsize. unfold chunkCount. split.
  - apply Nat.Div0.mul_div_le.
  - apply Nat.mul_succ_div_gt. lia.
Qed.

Lemma chunkCount_0 (size : nat) : 1 ≤ size → chunkCount 0 size = 0.
Proof.
  intros Hsize. destruct (chunkCount_bounds 0 size Hsize) as [Hle _]. nia.
Qed.

Lemma chunkCount_step (n size : nat) :
  1 ≤ size → 1 ≤ n → chunkCount n size = S (chunkCount (n - size) size).
Proof.
  intros Hsize Hn.
  destruct (chunkCount_bounds n size Hsize) as [H1 H2].
  destruct (decide (n ≤ size)) as [Hle|Hgt].
  - replace (n - size) with 0 by lia. rewrite chunkCount_0 by done.
    generalize dependent (chunkCount n size). intros q H1 H2. nia.
  - destruct (chunkCount_bounds (n - size) size Hsize) as [H3 H4].
    replace (n - size + size - 1) with (n - 1) in * by lia.
    generalize dependent (chunkCount (n - size) size).
    generalize dependent (chunkCount n size). intros q1 H1 H2 q2 H3 H4.
    assert (size * q1 < size * (q2 + 2)) by lia.
    assert (size * (q2 + 1) < size * (q1 + 1)) by lia.
    nia.
Qed.

Lemma chunks_nil (size : nat) : 1 ≤ size → chunks size (@nil A) = [].
Proof. intros Hsize. unfold chunks. simpl. by rewrite chunkCount_0. Qed.

Lemma chunks_unfold (size : nat) (l : list A) :
  1 ≤ size → l ≠ [] →
  chunks size l = take size l :: chunks size (drop size l).
Proof.
  intros Hsize Hl. unfold chunks.
  rewrite (chunkCount_step (length l) size) by (destruct l; simpl; [done|lia]).
  rewrite length_drop. cbn [seq fmap list_fmap]. rewrite drop_0. f_equal.
  rewrite <- fmap_S_seq, <- list_fmap_compose.
  apply list_fmap_ext. intros _ k _. simpl.
  by rewrite drop_drop.
Qed.

Lemma concat_chunks (size : nat) (l : list A) :
  1 ≤ size → concat (chunks size l) = l.
Proof.
  intros Hsize. remember (length l) as n eqn:Hn. revert l Hn.
  induction n as [n IH] using lt_wf_ind. intros l ->.
  destruct l as [|x l]; [by rewrite chunks_nil|].
  rewrite chunks_unfold by done. simpl concat.
  rewrite (IH (length (drop size (x :: l)))); [apply take_drop| |done].
  rewrite length_drop. simpl. lia.
Qed.

Lemma chunks_lookup (size : nat) (l : list A) (k : nat) (chunk : list A) :
  1 ≤ size → chunks size l !! k = Some chunk →
  chunk = take size (drop (k * size) l)
  ∧ 0 < length chunk ≤ size
  ∧ (S k < length (chunks size l) → length chunk = size).
Proof.
  intros Hsize Hk. unfold chunks in *.
  rewrite length_fmap, length_seq.
  apply list_lookup_fmap_Some in Hk as (j & -> & Hj).
  apply lookup_seq in Hj as [-> Hlt]. simpl in *.
  destruct (chunkCount_bounds (length l) size Hsize) as [H1 H2].
  split; [done|]. rewrite length_take, length_drop. split; [nia|]. nia.
Qed.

End Chunking.

(** ** String helpers *)

Section HelperFacts.
Import neo4j.

(** The repository's tests of the two helpers. *)
Example cleanStringValues_repository_test :
  cleanStringValues
    ("Line 1" +:+ String (Ascii.ascii_of_nat 10) "Line 2"
     +:+ String (Ascii.ascii_of_nat 13) "Line 3")
  = "Line 1 Line 2 Line 3".
Proof. reflexivity. Qed.

Example isAPOCError_repository_test :
  isAPOCError (Err "Some other error") = false
  ∧ isAPOCError
      (Err "Neo.ClientError.Procedure.ProcedureNotFound: apoc.meta.data not found")
    = true.
Proof. split; reflexivity. Qed.

Lemma wrapAPOCError_other (err : error) :
  isAPOCError err = false → wrapAPOCError err = err.
Proof. intros Hno. unfold wrapAPOCError. by rewrite Hno. Qed.

End HelperFacts.

(** ** The Neo4j store *)

Section StoreFacts.
Import neo4j.
Context `{Driver} `{GoRuntime} `{SchemaRenderer}.
#[local] Existing Instances M_ret M_bind.

Lemma bind_run {A B} (m : M A) (k : A → M B) (st : State) :
  (m ≫= k) st
  = match m st with
    | (st', Ok a) => k a st'
    | (st', Fail err) => (st', Fail err)
    end.
Proof. reflexivity. Qed.

Lemma bind_ext {A B} (m1 m2 : M A) (k1 k2 : A → M B) (st : State) :
  m1 st = m2 st → (∀ a st', k1 a st' = k2 a st') →
  (m1 ≫= k1) st = (m2 ≫= k2) st.
Proof.
  intros Hm Hk. rewrite !bind_run, Hm.
  destruct (m2 st) as [st' [a|err]]; [apply Hk|done].
Qed.

Lemma forEach_app {A} (body : A → M unit) (l1 l2 : list A) (st : State) :
  forEach body (l1 ++ l2) st = (forEach body l1 ;; forEach body l2) st.
Proof.
  revert st. induction l1 as [|x l1 IH]; intros st; simpl.
  - done.
  - rewrite !bind_run. destruct (body x st) as [st' [[]|err]]; [|done].
    rewrite IH. by rewrite bind_run.
Qed.

Lemma forEach_fmap {A B} (f : A → B) (body : B → M unit) (l : list A)
  (st : State) :
  forEach body (f <$> l) st = forEach (λ x, body (f x)) l st.
Proof.
  revert st. induction l as [|x l IH]; intros st; simpl; [done|].
  apply bind_ext; [done|]. intros _ st'. apply IH.
Qed.

(** *** Batch import: chunks and phases *)

Lemma effectiveBatchSize_pos (opts : graphs.Options.t) :
  1 ≤ effectiveBatchSize opts.
Proof. unfold effectiveBatchSize. case_decide; lia. Qed.

Lemma processBatch_steps (chunk : list graphs.GraphDocument.t)
  (opts : graphs.Options.t) (st : State) :
  processBatch chunk opts st
  = forEach (runStep opts)
      ((ImportNodesOf <$> chunk) ++ (ImportRelationshipsOf <$> chunk)) st.
Proof.
  rewrite forEach_app. unfold processBatch.
  apply bind_ext; [|intros _ st']; by rewrite forEach_fmap.
Qed.

Lemma slice_chunk (docs : list graphs.GraphDocument.t) (size i : nat) :
  1 ≤ size → i < length docs →
  slice docs (Z.of_nat i)
    (if decide (Z.of_nat i + Z.of_nat size > Z.of_nat (length docs))%Z
     then Z.of_nat (length docs) else (Z.of_nat i + Z.of_nat size)%Z)
  = take size (drop i docs).
Proof.
  intros Hsize Hi. unfold slice. rewrite Nat2Z.id. case_decide.
  - replace (Z.to_nat (Z.of_nat (length docs) - Z.of_nat i))
      with (length docs - i) by lia.
    rewrite !take_ge; [done| |]; rewrite length_drop; lia.
  - f_equal. lia.
Qed.

Lemma batchLoop_schedule (fuel : nat) (docs : list graphs.GraphDocument.t)
  (opts : graphs.Options.t) (size i : nat) (st : State) :
  1 ≤ size → length docs - i ≤ fuel →
  batchLoop fuel docs opts (Z.of_nat size) (Z.of_nat i) st
  = forEach (runStep opts) (schedule size (drop i docs)) st.
Proof.
  intros Hsize. revert i st.
  induction fuel as [|fuel IH]; intros i st Hfuel.
  - rewrite drop_ge by lia. unfold schedule. by rewrite chunks_nil.
  - cbn [batchLoop]. case_decide as Hi.
    + rewrite slice_chunk by lia. unfold schedule.
      rewrite chunks_unfold; [|done|].
      2:{ intros Hnil%(f_equal length). rewrite length_drop in Hnil.
          simpl in Hnil. lia. }
      rewrite fmap_cons. cbn [concat]. rewrite forEach_app.
      apply bind_ext; [apply processBatch_steps|].
      intros _ st'. rewrite drop_drop.
      replace (Z.of_nat i + Z.of_nat size)%Z with (Z.of_nat (i + size)) by lia.
      apply IH. lia.
    + rewrite drop_ge by lia. unfold schedule. by rewrite chunks_nil.
Qed.

(** C7: [AddGraphDocument] cuts the document list into consecutive chunks
    of [BatchSize] documents (100 when the configured size is not positive;
    the last chunk may be shorter), processes the chunks in input order, and
    within a chunk imports the nodes of every document before the
    relationships of any document; the first failing import ends the
    call. *)
Theorem AddGraphDocument_two_phase_chunks
  (docs : list graphs.GraphDocument.t) (options : list graphs.Option)
  (st : State) :
  let opts := graphs.applyOptions options in
  let size := effectiveBatchSize opts in
  AddGraphDocument docs options st
  = (if driver (self st)
     then forEach (runStep opts) (schedule size docs) st
     else (st, Fail ErrDriverNotInitialized))
  ∧ concat (chunks size docs) = docs
  ∧ (∀ k chunk, chunks size docs !! k = Some chunk →
       chunk = take size (drop (k * size) docs)
       ∧ 0 < length chunk ≤ size
       ∧ (S k < length (chunks size docs) → length chunk = size)).
Proof.
  intros opts size.
  pose proof (effectiveBatchSize_pos opts) as Hsize. fold size in Hsize.
  split; [|split].
  - unfold AddGraphDocument. rewrite bind_run. unfold requireDriver.
    destruct (driver (self st)); [|done].
    fold opts.
    replace (if decide (graphs.Options.BatchSize opts ≤ 0)%Z then 100%Z
             else graphs.Options.BatchSize opts) with (Z.of_nat size).
    2:{ unfold size, effectiveBatchSize. case_decide; lia. }
    rewrite (batchLoop_schedule _ docs opts size 0 st) by (done || lia).
    by rewrite drop_0.
  - by apply concat_chunks.
  - intros k chunk. by apply chunks_lookup.
Qed.

(** *** Bulk removal of relationships *)

Lemma removeOne_run (rel : graphs.RelationshipIdentifier.t) (st st' : State)
  (r : result unit) :
  removeOne rel st = (st', r) →
  driver (self st) = true →
  self st' = self st
  ∧ issued st' = issued st ++ [removalCall rel]
  ∧ db st' = (session_Run (db st) (removalCall rel).1 (removalCall rel).2).1.
Proof.
  unfold removeOne, RemoveRelationship. rewrite bind_run.
  unfold requireDriver, sessionRun, removalCall.
  intros Hrun Hdrv. rewrite Hdrv in Hrun. simpl in *.
  destruct (session_Run _ _ _) as [db' [cause|rows iterErr]];
    by simplify_eq.
Qed.

Lemma forEach_removeOne_ok (l : list graphs.RelationshipIdentifier.t)
  (st st' : State) :
  forEach removeOne l st = (st', Ok tt) →
  driver (self st) = true →
  self st' = self st ∧ issued st' = issued st ++ (removalCall <$> l).
Proof.
  revert st. induction l as [|rel l IH]; intros st Hrun Hdrv; simpl in *.
  - unfold ret in Hrun. simplify_eq. by rewrite app_nil_r.
  - rewrite bind_run in Hrun.
    destruct (removeOne rel st) as [st1 [[]|err]] eqn:Hone; [|done].
    apply removeOne_run in Hone as (Hself & Hlog & _); [|done].
    apply IH in Hrun as [-> ->]; [|by rewrite Hself].
    by rewrite Hself, Hlog, <- app_assoc.
Qed.

(** C8: [RemoveRelationships] removes the identifiers one by one in the
    given order.  When the removals of [pre] succeed and the removal of [x]
    fails, the call returns that failure; the state is the one the failing
    removal left after the removals of [pre] — the database underwent
    nothing but the driver's own transitions for [pre] and [x], with no
    compensating query — and the query log ends with the call for [x]:
    nothing is issued for [post]. *)
Theorem RemoveRelationships_aborts_at_first_failure
  (pre post : list graphs.RelationshipIdentifier.t)
  (x : graphs.RelationshipIdentifier.t) (st st1 st2 : State) (err : error) :
  RemoveRelationships pre st = (st1, Ok tt) →
  removeOne x st1 = (st2, Fail err) →
  RemoveRelationships (pre ++ x :: post) st = (st2, Fail err)
  ∧ issued st1 = issued st ++ (removalCall <$> pre)
  ∧ issued st2 = issued st ++ (removalCall <$> pre) ++ [removalCall x]
  ∧ db st2 = (session_Run (db st1) (removalCall x).1 (removalCall x).2).1
  ∧ self st2 = self st.
Proof.
  unfold RemoveRelationships. rewrite !bind_run. unfold requireDriver.
  destruct (driver (self st)) eqn:Hdrv; [|done].
  fold removeOne. intros Hpre Hx.
  apply forEach_removeOne_ok in Hpre as Hst1; [|done].
  destruct Hst1 as [Hself1 Hlog1].
  apply removeOne_run in Hx as Hst2; [|by rewrite Hself1].
  destruct Hst2 as (Hself2 & Hlog2 & Hdb2).
  split; [|split; [done|split; [|split; [done|]]]].
  - rewrite forEach_app, bind_run, Hpre. simpl. by rewrite bind_run, Hx.
  - by rewrite Hlog2, Hlog1, <- app_assoc.
  - by rewrite Hself2.
Qed.

(** *** Schema refresh *)

Lemma mapError_run {A} (wrap : error → error) (m : M A) (st : State) :
  mapError wrap m st
  = match m st with
    | (st', Ok a) => (st', Ok a)
    | (st', Fail err) => (st', Fail (wrap err))
    end.
Proof. reflexivity. Qed.

(** C9: when the three schema queries succeed, [RefreshSchema] succeeds
    whatever the constraint query and the index query return.  The new
    snapshot holds the node properties, the relationship properties and the
    relationship topology computed from the three results, its metadata
    holds the empty list for each of the two queries that failed (and the
    records of each that succeeded), and the snapshot and its rendering are
    stored in the cache. *)
Theorem RefreshSchema_metadata_best_effort
  (st st1 st2 st3 st4 st5 : State)
  (nodeResult relPropsResult relsResult : QueryResult)
  (constraintResult indexResult : result QueryResult) :
  driver (self st) = true →
  Query nodePropsQuery {[ "EXCLUDED_LABELS" := excludedLabels ]} st
    = (st1, Ok nodeResult) →
  Query relPropsQuery {[ "EXCLUDED_LABELS" := excludedRels ]} st1
    = (st2, Ok relPropsResult) →
  Query relQuery {[ "EXCLUDED_LABELS" := excludedLabels ]} st2
    = (st3, Ok relsResult) →
  Query constraintsQuery ∅ st3 = (st4, constraintResult) →
  Query indexQuery ∅ st4 = (st5, indexResult) →
  ∃ (n' : Neo4j) (metadata : gmap string (list (gmap string Value))),
    RefreshSchema st = (mkState n' (db st5) (issued st5), Ok tt)
    ∧ structuredSchema n' !! "node_props"
      = Some (SchemaProps (collectProps "labels" (records nodeResult)))
    ∧ structuredSchema n' !! "rel_props"
      = Some (SchemaProps (collectProps "type" (records relPropsResult)))
    ∧ structuredSchema n' !! "relationships"
      = Some (SchemaRecords (collectRelationships (records relsResult)))
    ∧ structuredSchema n' !! "metadata" = Some (SchemaMetadata metadata)
    ∧ metadata !! "constraint" = Some (metadataEntry constraintResult)
    ∧ metadata !! "index" = Some (metadataEntry indexResult)
    ∧ (∀ err, constraintResult = Fail err → metadata !! "constraint" = Some [])
    ∧ (∀ err, indexResult = Fail err → metadata !! "index" = Some [])
    ∧ schemaCache n'
      = formatSchema
          (mkNeo4j (driver n') (uri n') (username n') (password n')
             (database n') (sanitize n') (enhancedSchema n')
             (baseEntityLabel n') (timeout n') (schemaCache (self st5))
             (structuredSchema n'))
          (structuredSchema n').
Proof.
  intros Hdrv Hnode Hrelp Hrels Hcons Hidx.
  unfold RefreshSchema. rewrite bind_run. unfold requireDriver. rewrite Hdrv.
  rewrite bind_run, mapError_run, Hnode.
  rewrite bind_run, mapError_run, Hrelp.
  rewrite bind_run, mapError_run, Hrels.
  rewrite Hcons, Hidx.
  eexists _, _. split; [reflexivity|]. simpl.
  repeat split; try by simplify_map_eq.
  - intros err ->. by simplify_map_eq.
  - intros err ->. by simplify_map_eq.
Qed.

End StoreFacts.

(** ** The store on concrete drivers *)

Section StoreExamples.
Import neo4j.
#[local] Existing Instances M_ret M_bind.

(** [AddNodes] and [AddRelationships] report success as soon as
    [session.Run] returns no error: the result, and so whether anything
    matched, is never looked at. *)
Lemma addNode_ignores_result `{Driver} (opts : graphs.Options.t)
  (node : graphs.Node.t) (st : State) (db' : DB)
  (rows : list (gmap string Value)) (iterErr : option error) :
  session_Run (db st)
    (addNodeQuery (self st) (graphs.Options.MergeMode opts) node)
    {[ "id" := VStr (graphs.Node.ID node);
       "properties" := VMap (graphs.Node.Properties node) ]}
  = (db', RunStream rows iterErr) →
  (addNode opts node st).2 = Ok tt.
Proof. intros Hrun. unfold addNode, sessionRun. by rewrite Hrun. Qed.

Lemma addRelationship_ignores_result `{Driver} (opts : graphs.Options.t)
  (rel : graphs.Relationship.t) (st : State) (db' : DB)
  (rows : list (gmap string Value)) (iterErr : option error) :
  session_Run (db st)
    (addRelationshipQuery (graphs.Options.MergeMode opts) rel)
    {[ "sourceId" := VStr (graphs.Node.ID (graphs.Relationship.Source rel));
       "targetId" := VStr (graphs.Node.ID (graphs.Relationship.Target rel));
       "properties" := VMap (graphs.Relationship.Properties rel) ]}
  = (db', RunStream rows iterErr) →
  (addRelationship opts rel st).2 = Ok tt.
Proof. intros Hrun. unfold addRelationship, sessionRun. by rewrite Hrun. Qed.

(** C2, on the code: under [MergeModeUpdate], adding a node or a
    relationship that the store does not hold returns no error, while the
    sibling operations [UpdateNode] and [UpdateRelationship] report
    "not found" on the same store. *)
Theorem AddNodes_Update_misses_not_found :
  let st0 := @mkState emptyStore connected tt [] in
  let update := [graphs.WithMergeMode graphs.MergeModeUpdate] in
  (AddNodes (H := emptyStore) [alice] update st0).2 = Ok tt
  ∧ (AddRelationships (H := emptyStore) [knows] update st0).2 = Ok tt
  ∧ (UpdateNode (H := emptyStore) "1" (graphs.Node.Properties alice) st0).2
    = Fail (Err "node 1 not found")
  ∧ (UpdateRelationship (H := emptyStore) "1" "2" "KNOWS"
       (graphs.Relationship.Properties knows) st0).2
    = Fail (Err "relationship 1-KNOWS->2 not found").
Proof. cbv zeta. repeat apply conj; vm_compute; reflexivity. Qed.

Lemma RemoveRelationships_aborts_witness :
  let st0 := @mkState lockingStore connected 0 [] in
  ∃ st1 st2 err,
    RemoveRelationships (H := lockingStore) [rel_1_2] st0 = (st1, Ok tt)
    ∧ removeOne (H := lockingStore) rel_2_3 st1 = (st2, Fail err)
    ∧ RemoveRelationships (H := lockingStore) [rel_1_2; rel_2_3; rel_3_4] st0
      = (st2, Fail err)
    ∧ Error err
      = "failed to remove relationship 2-LOCKED->3: lock acquisition timed out"
    ∧ db st2 = 1
    ∧ issued st2 = [removalCall rel_1_2; removalCall rel_2_3].
Proof.
  cbv zeta.
  set (st0 := @mkState lockingStore connected 0 []).
  set (st1 := (RemoveRelationships (H := lockingStore) [rel_1_2] st0).1).
  set (st2 := (removeOne (H := lockingStore) rel_2_3 st1).1).
  set (err := Err
    "failed to remove relationship 2-LOCKED->3: lock acquisition timed out").
  assert (Hpre : RemoveRelationships (H := lockingStore) [rel_1_2] st0
                 = (st1, Ok tt)) by (vm_compute; reflexivity).
  assert (Hx : removeOne (H := lockingStore) rel_2_3 st1 = (st2, Fail err))
    by (vm_compute; reflexivity).
  exists st1, st2, err.
  destruct (RemoveRelationships_aborts_at_first_failure
              (H := lockingStore) [rel_1_2] [rel_3_4] rel_2_3 st0 st1 st2 err
              Hpre Hx) as (Hall & _ & Hlog & _ & _).
  split; [exact Hpre|]. split; [exact Hx|]. split; [exact Hall|].
  split; [reflexivity|]. split; [vm_compute; reflexivity|].
  rewrite Hlog. reflexivity.
Defined.

Lemma RefreshSchema_metadata_best_effort_witness :
  let st0 := @mkState restrictedStore connected tt [] in
  ∃ st' metadata,
    RefreshSchema (H := restrictedStore) (H1 := exampleRenderer) st0
      = (st', Ok tt)
    ∧ structuredSchema (self st') !! "metadata" = Some (SchemaMetadata metadata)
    ∧ metadata !! "constraint" = Some []
    ∧ metadata !! "index" = Some []
    ∧ structuredSchema (self st') !! "node_props"
      = Some (SchemaProps
                {[ "Person" :=
                     VList [VMap {[ "property" := VStr "name";
                                    "type" := VStr "STRING" ]}] ]})
    ∧ schemaCache (self st') = "basic schema".
Proof.
  cbv zeta.
  set (st0 := @mkState restrictedStore connected tt []).
  edestruct (RefreshSchema_metadata_best_effort
               (H := restrictedStore) (H1 := exampleRenderer) st0)
    as (n' & metadata & Hrun & Hnode & _ & _ & Hmeta & _ & _ & Hc & Hi & _);
    [reflexivity
    |vm_compute; reflexivity
    |vm_compute; reflexivity
    |vm_compute; reflexivity
    |vm_compute; reflexivity
    |vm_compute; reflexivity
    |].
  eexists _, metadata. split; [exact Hrun|]. simpl.
  split; [exact Hmeta|].
  split; [by eapply Hc|]. split; [by eapply Hi|].
  split; [rewrite Hnode; reflexivity|].
  assert (Hn' : n' = self (RefreshSchema (H := restrictedStore)
                             (H1 := exampleRenderer) st0).1)
    by (by rewrite Hrun).
  rewrite Hn'. vm_compute. reflexivity.
Defined.

Example schedule_of_three :
  schedule 2 [doc_ab; doc_bc; doc_ca]
  = [ImportNodesOf doc_ab; ImportNodesOf doc_bc;
     ImportRelationshipsOf doc_ab; ImportRelationshipsOf doc_bc;
     ImportNodesOf doc_ca; ImportRelationshipsOf doc_ca].
Proof. reflexivity. Qed.

Example AddGraphDocument_of_three :
  let st0 := @mkState lockingStore connected 0 [] in
  let '(st', r) :=
    AddGraphDocument (H := lockingStore) (H0 := exampleRuntime)
      [doc_ab; doc_bc; doc_ca] [graphs.WithBatchSize 2] st0 in
  r = Ok tt
  ∧ db st' = 6
  ∧ (λ call, Contains call.1 "UNWIND $nodes") <$> issued st'
    = [true; true; false; false; true; false].
Proof. vm_compute. repeat split. Qed.

Example effectiveBatchSize_default :
  effectiveBatchSize (graphs.applyOptions []) = 100
  ∧ effectiveBatchSize (graphs.applyOptions [graphs.WithBatchSize 0]) = 100
  ∧ effectiveBatchSize (graphs.applyOptions [graphs.WithBatchSize (-3)]) = 100
  ∧ effectiveBatchSize (graphs.applyOptions [graphs.WithBatchSize 7]) = 7.
Proof. repeat split. Qed.

End StoreExamples.

(** ** More on in-memory graph documents *)

Lemma filter_length_split {A} (P : A → Prop) `{!∀ x, Decision (P x)}
  (l : list A) :
  length (filter P l) + length (filter (λ x, ¬ P x) l) = length l.
Proof.
  induction l as [|x l IH]; [done|].
  rewrite !filter_cons. destruct (decide (P x)).
  - rewrite decide_False by tauto. simpl. lia.
  - rewrite decide_True by done. simpl. lia.
Qed.

Lemma filter_none {A} (P : A → Prop) `{!∀ x, Decision (P x)} (l : list A) :
  Forall (λ x, ¬ P x) l → filter P l = [].
Proof.
  induction 1 as [|x l Hx _ IH]; [done|].
  by rewrite filter_cons_False.
Qed.

Lemma filter_ext_in {A} (P Q : A → Prop) `{!∀ x, Decision (P x)}
  `{!∀ x, Decision (Q x)} (l : list A) :
  (∀ x, x ∈ l → P x ↔ Q x) → filter P l = filter Q l.
Proof.
  induction l as [|x l IH]; intros Hext; [done|].
  rewrite !filter_cons.
  rewrite IH by (intros y Hy; apply Hext; by right).
  destruct (decide (P x)) as [HP|HP], (decide (Q x)) as [HQ|HQ]; try done.
  - destruct HQ. apply Hext; [left|done].
  - destruct HP. apply Hext; [left|done].
Qed.

Section KeyedListsMore.
Context {A K : Type} `{EqDecision K} (key : A → K).

Lemma elem_of_key_filter (P : A → Prop) `{!∀ x, Decision (P x)}
  (Q : K → Prop) (l : list A) (k : K) :
  (∀ x, P x ↔ Q (key x)) →
  k ∈ key <$> filter P l ↔ Q k ∧ k ∈ key <$> l.
Proof.
  intros HPQ. rewrite !list_elem_of_fmap. split.
  - intros (x & -> & [Hx Hin]%list_elem_of_filter).
    split; [by apply HPQ|eauto].
  - intros [Hk (x & -> & Hin)]. exists x. split; [done|].
    apply list_elem_of_filter. split; [by apply HPQ|done].
Qed.

Lemma elem_of_key_filter_ne (k0 : K) (l : list A) (k : K) :
  k ∈ key <$> filter (λ y, key y ≠ k0) l ↔ k ≠ k0 ∧ k ∈ key <$> l.
Proof. by apply (elem_of_key_filter _ (λ k', k' ≠ k0)). Qed.

Lemma elem_of_key_filter_absent (acc l : list A) (k : K) :
  k ∈ key <$> filter (λ y, key y ∉ key <$> acc) l
  ↔ (k ∉ key <$> acc) ∧ k ∈ key <$> l.
Proof. by apply (elem_of_key_filter _ (λ k', k' ∉ key <$> acc)). Qed.

Lemma first_by_keys (l : list A) (k : K) :
  k ∈ key <$> first_by key l ↔ k ∈ key <$> l.
Proof.
  induction l as [|x l IH]; [done|]. simpl.
  rewrite !elem_of_cons, elem_of_key_filter_ne, IH.
  destruct (decide (k = key x)); naive_solver.
Qed.

Lemma first_by_NoDup_keys (l : list A) : NoDup (key <$> first_by key l).
Proof.
  induction l as [|x l IH]; simpl; [constructor|].
  apply NoDup_cons. split.
  - rewrite elem_of_key_filter_ne. tauto.
  - by apply NoDup_fmap_filter.
Qed.

(** Appending the first occurrences of the absent keys keeps the keys
    pairwise distinct. *)
Lemma NoDup_append_first_absent (acc l : list A) :
  NoDup (key <$> acc) →
  NoDup (key <$> acc ++ first_by key (filter (λ x, key x ∉ key <$> acc) l)).
Proof.
  intros Hacc. rewrite fmap_app. apply NoDup_app. split; [done|]. split.
  - intros k Hk. rewrite first_by_keys.
    rewrite elem_of_key_filter_absent. tauto.
  - apply first_by_NoDup_keys.
Qed.

Lemma append_first_absent_keys (acc l : list A) (k : K) :
  k ∈ key <$> acc ++ first_by key (filter (λ x, key x ∉ key <$> acc) l)
  ↔ k ∈ key <$> acc ∨ k ∈ key <$> l.
Proof.
  rewrite fmap_app, elem_of_app, first_by_keys.
  rewrite elem_of_key_filter_absent.
  destruct (decide (k ∈ key <$> acc)); tauto.
Qed.

Lemma append_first_absent_nil (acc l : list A) :
  (∀ x, x ∈ l → key x ∈ key <$> acc) →
  acc ++ first_by key (filter (λ x, key x ∉ key <$> acc) l) = acc.
Proof.
  intros Hall. rewrite filter_none; [apply app_nil_r|].
  apply Forall_forall. intros x Hx Habs. by apply Habs, Hall.
Qed.

End KeyedListsMore.

Section GraphDocumentEdits.
Import graphs.
Import graphs.GraphDocument.

Lemma FindNode_None (nodeID : string) (gd : GraphDocument.t) :
  FindNode nodeID gd = None ↔ nodeID ∉ Node.ID <$> Nodes gd.
Proof.
  rewrite <- NodeExists_spec. unfold NodeExists.
  rewrite bool_decide_eq_true, <- eq_None_not_Some. done.
Qed.

(** X1: [RemoveNode] returns exactly what [NodeExists] says and never
    touches the provenance.  When no node carries the ID, the document is
    left as it is, relationships that mention the ID included.  Otherwise
    it deletes one node only, the first that carries the ID (so a later
    duplicate of the ID survives), together with every relationship that
    [FindRelationshipsByNode] reports for the ID. *)
Theorem RemoveNode_first_occurrence (nodeID : string) (gd : GraphDocument.t) :
  let gd' := (RemoveNode nodeID gd).1 in
  (RemoveNode nodeID gd).2 = NodeExists nodeID gd
  ∧ Source gd' = Source gd
  ∧ (nodeID ∉ Node.ID <$> Nodes gd → gd' = gd)
  ∧ (∀ i n, FindNode nodeID gd = Some (i, n) →
       Nodes gd' = delete i (Nodes gd)
       ∧ GetNodeCount gd' + 1 = GetNodeCount gd
       ∧ Relationships gd'
         = filter (keepsRelationship nodeID) (Relationships gd)
       ∧ FindRelationshipsByNode nodeID gd' = []
       ∧ GetRelationshipCount gd'
         + length (FindRelationshipsByNode nodeID gd)
         = GetRelationshipCount gd
       ∧ (NodeExists nodeID gd' = true
          ↔ nodeID ∈ Node.ID <$> drop (S i) (Nodes gd))).
Proof.
  cbv zeta. pose proof (FindNode_None nodeID gd) as Hnone.
  split; [|split; [|split]].
  - unfold RemoveNode, NodeExists. unfold FindNode in *.
    destruct (list_find _ _) as [[i x]|] eqn:Hfind.
    + symmetry. apply bool_decide_eq_true. eauto.
    + symmetry. apply bool_decide_eq_false. by intros [? ?].
  - unfold RemoveNode. by destruct (list_find _ _) as [[i x]|].
  - intros Habs%Hnone. unfold RemoveNode. unfold FindNode in Habs.
    by rewrite Habs.
  - intros i n Hfind. unfold RemoveNode. unfold FindNode in Hfind.
    rewrite Hfind.
    cbn [fst snd removeRelationshipsByNodeID Nodes Relationships].
    apply list_find_Some in Hfind as (Hi & Hn & Hbefore).
    assert (Hlen : i < length (Nodes gd)) by by eapply lookup_lt_Some.
    assert (Hdel : take i (Nodes gd) ++ drop (S i) (Nodes gd)
                   = delete i (Nodes gd))
      by (symmetry; apply delete_take_drop).
    split; [done|]. split.
    { unfold GetNodeCount. simpl.
      rewrite length_app, length_take, length_drop. lia. }
    split; [done|]. split.
    { unfold FindRelationshipsByNode. simpl.
      apply filter_none, Forall_forall.
      intros r [Hk _]%list_elem_of_filter Ht.
      unfold keepsRelationship, touchesNode in *. tauto. }
    split.
    { unfold GetRelationshipCount, FindRelationshipsByNode. simpl.
      rewrite <- (filter_length_split (keepsRelationship nodeID)
                    (Relationships gd)).
      f_equal. f_equal. apply list_filter_iff. intros r.
      unfold keepsRelationship, touchesNode.
      destruct (decide (Node.ID (Relationship.Source r) = nodeID));
        destruct (decide (Node.ID (Relationship.Target r) = nodeID)); tauto. }
    rewrite NodeExists_spec. simpl.
    rewrite fmap_app, elem_of_app. split; [|tauto].
    intros [Hin|Hin]; [|done]. exfalso.
    apply list_elem_of_fmap in Hin as (y & -> & Hy).
    apply list_elem_of_lookup in Hy as [j Hj].
    apply lookup_take_Some in Hj as [Hj Hlt].
    by apply (Hbefore j y Hj Hlt).
Qed.

Lemma RemoveNode_unique_present (nodeID : string) (gd : GraphDocument.t) :
  NoDup (Node.ID <$> Nodes gd) → nodeID ∈ Node.ID <$> Nodes gd →
  RemoveNode nodeID gd
  = (GraphDocument.mk (filter (λ m, Node.ID m ≠ nodeID) (Nodes gd))
       (filter (keepsRelationship nodeID) (Relationships gd)) (Source gd),
     true).
Proof.
  intros Hnd Hin. unfold RemoveNode.
  destruct (list_find _ _) as [[i x]|] eqn:Hfind.
  - apply list_find_Some in Hfind as (Hi & Hx & _).
    unfold removeRelationshipsByNodeID. simpl.
    by rewrite (delete_index_filter Node.ID _ i x Hnd Hi), Hx.
  - apply (FindNode_None nodeID gd) in Hfind. done.
Qed.

Lemma RemoveNode_absent (nodeID : string) (gd : GraphDocument.t) :
  nodeID ∉ Node.ID <$> Nodes gd → RemoveNode nodeID gd = (gd, false).
Proof.
  intros Habs%FindNode_None. unfold RemoveNode. unfold FindNode in Habs.
  by rewrite Habs.
Qed.

Lemma elem_of_fmap_filter_ne (nodeID x : string) (l : list Node.t) :
  x ∈ Node.ID <$> filter (λ m, Node.ID m ≠ nodeID) l
  ↔ x ∈ Node.ID <$> l ∧ x ≠ nodeID.
Proof.
  rewrite !list_elem_of_fmap. setoid_rewrite list_elem_of_filter.
  naive_solver.
Qed.

(** The loop of [RemoveNodes], from any intermediate document and count. *)
Lemma RemoveNodes_loop (nodeIDs : list string) (gd : GraphDocument.t) (c : Z) :
  NoDup (Node.ID <$> Nodes gd) →
  foldl (λ '(g, removed) nodeID,
           let '(g', ok) := RemoveNode nodeID g in
           (g', if ok then (removed + 1)%Z else removed))
        (gd, c) nodeIDs
  = (GraphDocument.mk
       (filter (λ m, Node.ID m ∉ nodeIDs) (Nodes gd))
       (filter (λ r, Forall (λ nodeID, nodeID ∈ Node.ID <$> Nodes gd →
                                        keepsRelationship nodeID r) nodeIDs)
          (Relationships gd))
       (Source gd),
     (c + Z.of_nat (length (Nodes gd))
      - Z.of_nat (length (filter (λ m, Node.ID m ∉ nodeIDs) (Nodes gd))))%Z).
Proof.
  revert gd c. induction nodeIDs as [|nodeID nodeIDs IH]; intros gd c Hnd.
  - assert (Hid : filter (λ m, Node.ID m ∉ []) (Nodes gd) = Nodes gd).
    { apply filter_Forall_id, Forall_forall. intros ? _. apply not_elem_of_nil. }
    cbn [foldl]. rewrite Hid. f_equal; [|lia].
    destruct gd as [ns rs src]. simpl. f_equal.
    symmetry. apply filter_Forall_id, Forall_forall. intros ? _. constructor.
  - cbn [foldl].
    destruct (decide (nodeID ∈ Node.ID <$> Nodes gd)) as [Hin|Hout].
    + rewrite RemoveNode_unique_present by done.
      rewrite IH by (simpl; by apply NoDup_fmap_filter).
      assert (Hnodes :
        filter (λ m, Node.ID m ∉ nodeIDs)
          (filter (λ m, Node.ID m ≠ nodeID) (Nodes gd))
        = filter (λ m, Node.ID m ∉ nodeID :: nodeIDs) (Nodes gd)).
      { rewrite list_filter_filter. apply list_filter_iff. intros m.
        rewrite not_elem_of_cons. tauto. }
      cbn [Nodes Relationships Source]. rewrite Hnodes.
      f_equal; [f_equal|].
      * rewrite list_filter_filter. apply list_filter_iff. intros r.
        rewrite Forall_cons. setoid_rewrite elem_of_fmap_filter_ne.
        rewrite !Forall_forall. split.
        -- intros [Hall Hk]. split; [done|]. intros y Hy Hyin.
           destruct (decide (y = nodeID)) as [->|Hne]; [done|]. by apply Hall.
        -- intros [Hk Hall]. split; [|by apply Hk]. intros y Hy [Hyin _].
           by apply Hall.
      * apply list_elem_of_fmap in Hin as (x & -> & Hx).
        apply list_elem_of_lookup in Hx as [i Hi].
        rewrite <- (delete_index_filter Node.ID _ i x Hnd Hi).
        rewrite length_app, length_take, length_drop.
        apply lookup_lt_Some in Hi. lia.
    + rewrite RemoveNode_absent by done.
      rewrite IH by done.
      assert (Hnodes :
        filter (λ m, Node.ID m ∉ nodeIDs) (Nodes gd)
        = filter (λ m, Node.ID m ∉ nodeID :: nodeIDs) (Nodes gd)).
      { apply filter_ext_in. intros m Hm. rewrite not_elem_of_cons.
        split; [|tauto]. intros Hnot. split; [|done]. intros Heq. apply Hout.
        rewrite <- Heq. by apply list_elem_of_fmap_2. }
      rewrite Hnodes. f_equal. f_equal.
      apply list_filter_iff. intros r. rewrite Forall_cons. tauto.
Qed.

(** X2: on a document whose nodes are unique by ID, [RemoveNodes] leaves
    exactly the nodes whose ID is not listed, in order, drops exactly the
    relationships with an end at a listed ID that was a node of the
    document (a listed ID that was no node removes nothing), and returns
    the number of nodes it removed, however often an ID is listed. *)
Theorem RemoveNodes_unique (nodeIDs : list string) (gd : GraphDocument.t) :
  NoDup (Node.ID <$> Nodes gd) →
  let gd' := (RemoveNodes nodeIDs gd).1 in
  let removedID (x : string) := x ∈ nodeIDs ∧ x ∈ Node.ID <$> Nodes gd in
  Nodes gd' = filter (λ m, Node.ID m ∉ nodeIDs) (Nodes gd)
  ∧ Relationships gd'
    = filter (λ r, ¬ removedID (Node.ID (Relationship.Source r))
                   ∧ ¬ removedID (Node.ID (Relationship.Target r)))
        (Relationships gd)
  ∧ Source gd' = Source gd
  ∧ (RemoveNodes nodeIDs gd).2
    = Z.of_nat (length (filter (λ m, Node.ID m ∈ nodeIDs) (Nodes gd)))
  ∧ (Z.of_nat (GetNodeCount gd') + (RemoveNodes nodeIDs gd).2
     = Z.of_nat (GetNodeCount gd))%Z.
Proof.
  intros Hnd. unfold RemoveNodes. rewrite RemoveNodes_loop by done.
  cbn [fst snd Nodes Relationships Source]. unfold GetNodeCount. simpl.
  pose proof (filter_length_split (λ m, Node.ID m ∈ nodeIDs) (Nodes gd)) as Hs.
  split; [done|]. split; [|split; [done|split; lia]].
  apply list_filter_iff. intros r. rewrite Forall_forall.
  unfold keepsRelationship. split.
  - intros Hall. split; intros [Hx Hy]; by destruct (Hall _ Hx Hy).
  - intros [Hs' Ht] y Hy Hyin. split; intros Heq; subst y; tauto.
Qed.

Lemma RemoveNodes_unique_witness :
  NoDup (Node.ID <$> Nodes trio_doc)
  ∧ (RemoveNodes ["1"; "9"; "1"] trio_doc).2 = 1%Z
  ∧ Nodes (RemoveNodes ["1"; "9"; "1"] trio_doc).1 = [bob; carol]
  ∧ Relationships (RemoveNodes ["1"; "9"; "1"] trio_doc).1 = [works_with].
Proof.
  assert (Hnd : NoDup (Node.ID <$> Nodes trio_doc)).
  { apply (bool_decide_unpack _). vm_compute. exact I. }
  destruct (RemoveNodes_unique ["1"; "9"; "1"] trio_doc Hnd)
    as (Hnodes & Hrels & _ & Hcount & _).
  split; [exact Hnd|]. split; [rewrite Hcount; reflexivity|].
  split; [rewrite Hnodes; reflexivity|]. rewrite Hrels. reflexivity.
Defined.

Lemma matchesRelationship_identifier (id : RelationshipIdentifier.t)
  (r : Relationship.t) :
  matchesRelationship (RelationshipIdentifier.SourceID id)
    (RelationshipIdentifier.TargetID id) (RelationshipIdentifier.Type_ id) r
  ↔ GetIdentifier r = id.
Proof.
  destruct id as [s t ty]. unfold matchesRelationship, GetIdentifier. simpl.
  split; [by intros (-> & -> & ->)|]. by intros [= -> -> ->].
Qed.

Lemma FindRelationship_None (id : RelationshipIdentifier.t)
  (gd : GraphDocument.t) :
  FindRelationship (RelationshipIdentifier.SourceID id)
    (RelationshipIdentifier.TargetID id) (RelationshipIdentifier.Type_ id) gd
  = None
  ↔ id ∉ GetIdentifier <$> Relationships gd.
Proof.
  unfold FindRelationship. rewrite list_find_None, Forall_forall. split.
  - intros Hall (r & -> & Hr)%list_elem_of_fmap.
    by apply (Hall r Hr), matchesRelationship_identifier.
  - intros Habs r Hr Hm%matchesRelationship_identifier. apply Habs.
    rewrite <- Hm. by apply list_elem_of_fmap_2.
Qed.

Lemma RemoveRelationship_unique (id : RelationshipIdentifier.t)
  (gd : GraphDocument.t) :
  NoDup (GetIdentifier <$> Relationships gd) →
  RemoveRelationship (RelationshipIdentifier.SourceID id)
    (RelationshipIdentifier.TargetID id) (RelationshipIdentifier.Type_ id) gd
  = (GraphDocument.mk (Nodes gd)
       (filter (λ r, GetIdentifier r ≠ id) (Relationships gd)) (Source gd),
     bool_decide (id ∈ GetIdentifier <$> Relationships gd)).
Proof.
  intros Hnd. pose proof (FindRelationship_None id gd) as Hnone.
  unfold RemoveRelationship. unfold FindRelationship in Hnone.
  destruct (list_find _ _) as [[i x]|] eqn:Hfind.
  - apply list_find_Some in Hfind as (Hi & Hx%matchesRelationship_identifier & _).
    rewrite (delete_index_filter GetIdentifier _ i x Hnd Hi), Hx.
    f_equal. symmetry. apply bool_decide_eq_true. rewrite <- Hx.
    apply list_elem_of_fmap_2. by eapply list_elem_of_lookup_2.
  - assert (Habs : id ∉ GetIdentifier <$> Relationships gd) by by apply Hnone.
    rewrite bool_decide_eq_false_2 by done.
    rewrite filter_Forall_id; [by destruct gd|].
    apply Forall_forall. intros r Hr Heq. apply Habs. rewrite <- Heq.
    by apply list_elem_of_fmap_2.
Qed.

(** X3: [RemoveRelationship] returns exactly what [RelationshipExists]
    says and never touches the nodes or the provenance.  When no
    relationship matches, the document is left as it is; otherwise exactly
    one relationship is deleted, the first match.  On a document whose
    relationships are unique by (SourceID, TargetID, Type) the result is
    the document without that triple, and the triple no longer exists. *)
Theorem RemoveRelationship_first_match (sourceID targetID relType : string)
  (gd : GraphDocument.t) :
  let gd' := (RemoveRelationship sourceID targetID relType gd).1 in
  (RemoveRelationship sourceID targetID relType gd).2
  = RelationshipExists sourceID targetID relType gd
  ∧ Nodes gd' = Nodes gd
  ∧ Source gd' = Source gd
  ∧ (RelationshipExists sourceID targetID relType gd = false → gd' = gd)
  ∧ (∀ i r, FindRelationship sourceID targetID relType gd = Some (i, r) →
       Relationships gd' = delete i (Relationships gd)
       ∧ GetRelationshipCount gd' + 1 = GetRelationshipCount gd)
  ∧ (NoDup (GetIdentifier <$> Relationships gd) →
     Relationships gd'
     = filter (λ r, GetIdentifier r
                    ≠ RelationshipIdentifier.mk sourceID targetID relType)
         (Relationships gd)
     ∧ RelationshipExists sourceID targetID relType gd' = false).
Proof.
  cbv zeta. split; [|split; [|split; [|split; [|split]]]].
  - unfold RemoveRelationship, RelationshipExists, FindRelationship.
    destruct (list_find _ _) as [[i x]|] eqn:Hfind.
    + symmetry. apply bool_decide_eq_true. eauto.
    + symmetry. apply bool_decide_eq_false. by intros [? ?].
  - unfold RemoveRelationship. by destruct (list_find _ _) as [[i x]|].
  - unfold RemoveRelationship. by destruct (list_find _ _) as [[i x]|].
  - unfold RemoveRelationship, RelationshipExists, FindRelationship.
    destruct (list_find _ _) as [[i x]|] eqn:Hfind; [|done].
    intros Hex%bool_decide_eq_false. destruct Hex. eauto.
  - intros i r Hfind. unfold RemoveRelationship.
    unfold FindRelationship in Hfind. rewrite Hfind.
    apply list_find_Some in Hfind as (Hi%lookup_lt_Some & _).
    cbn [fst Relationships]. rewrite <- delete_take_drop. split; [done|].
    unfold GetRelationshipCount. cbn [Relationships].
    rewrite length_delete; [lia|]. by apply lookup_lt_is_Some_2.
  - intros Hnd.
    pose proof (RemoveRelationship_unique
                  (RelationshipIdentifier.mk sourceID targetID relType) gd Hnd)
      as Hrun.
    cbn [RelationshipIdentifier.SourceID RelationshipIdentifier.TargetID
         RelationshipIdentifier.Type_] in Hrun.
    rewrite Hrun. cbn [fst Relationships]. split; [done|].
    apply bool_decide_eq_false. intros [[i r] Hfind].
    apply list_find_Some in Hfind as (Hi & Hm & _).
    apply list_elem_of_lookup_2, list_elem_of_filter in Hi as [Hne _].
    apply Hne. symmetry.
    by apply (matchesRelationship_identifier
                (RelationshipIdentifier.mk sourceID targetID relType)) in Hm.
Qed.

(** The loop of [RemoveRelationships], from any intermediate document and
    count. *)
Lemma RemoveRelationships_loop (identifiers : list RelationshipIdentifier.t)
  (gd : GraphDocument.t) (c : Z) :
  NoDup (GetIdentifier <$> Relationships gd) →
  foldl (λ '(g, removed) id,
           let '(g', ok) :=
             RemoveRelationship (RelationshipIdentifier.SourceID id)
               (RelationshipIdentifier.TargetID id)
               (RelationshipIdentifier.Type_ id) g in
           (g', if ok then (removed + 1)%Z else removed))
        (gd, c) identifiers
  = (GraphDocument.mk (Nodes gd)
       (filter (λ r, GetIdentifier r ∉ identifiers) (Relationships gd))
       (Source gd),
     (c + Z.of_nat (length (Relationships gd))
      - Z.of_nat (length (filter (λ r, GetIdentifier r ∉ identifiers)
                            (Relationships gd))))%Z).
Proof.
  revert gd c. induction identifiers as [|id ids IH]; intros gd c Hnd.
  - assert (Hid : filter (λ r, GetIdentifier r ∉ []) (Relationships gd)
                  = Relationships gd).
    { apply filter_Forall_id, Forall_forall. intros ? _. apply not_elem_of_nil. }
    cbn [foldl]. rewrite Hid. f_equal; [by destruct gd|lia].
  - cbn [foldl]. rewrite RemoveRelationship_unique by done.
    rewrite IH by (cbn [Relationships]; by apply NoDup_fmap_filter).
    cbn [Nodes Relationships Source].
    assert (Hrels :
      filter (λ r, GetIdentifier r ∉ ids)
        (filter (λ r, GetIdentifier r ≠ id) (Relationships gd))
      = filter (λ r, GetIdentifier r ∉ id :: ids) (Relationships gd)).
    { rewrite list_filter_filter. apply list_filter_iff. intros r.
      rewrite not_elem_of_cons. tauto. }
    rewrite Hrels. f_equal.
    case_bool_decide as Hin.
    + apply list_elem_of_fmap in Hin as (x & -> & Hx).
      apply list_elem_of_lookup in Hx as [i Hi].
      rewrite <- (delete_index_filter GetIdentifier _ i x Hnd Hi).
      rewrite length_app, length_take, length_drop.
      apply lookup_lt_Some in Hi. lia.
    + rewrite (filter_Forall_id (λ r, GetIdentifier r ≠ id)); [done|].
      apply Forall_forall. intros r Hr Heq. apply Hin. rewrite <- Heq.
      by apply list_elem_of_fmap_2.
Qed.

(** X4: on a document whose relationships are unique by
    (SourceID, TargetID, Type), [RemoveRelationships] leaves exactly the
    relationships whose triple is not listed, in order, leaves the nodes
    alone, and returns the number of relationships it removed. *)
Theorem RemoveRelationships_unique
  (identifiers : list RelationshipIdentifier.t) (gd : GraphDocument.t) :
  NoDup (GetIdentifier <$> Relationships gd) →
  let gd' := (RemoveRelationships identifiers gd).1 in
  Relationships gd'
  = filter (λ r, GetIdentifier r ∉ identifiers) (Relationships gd)
  ∧ Nodes gd' = Nodes gd
  ∧ Source gd' = Source gd
  ∧ (RemoveRelationships identifiers gd).2
    = Z.of_nat (length (filter (λ r, GetIdentifier r ∈ identifiers)
                          (Relationships gd)))
  ∧ (Z.of_nat (GetRelationshipCount gd')
     + (RemoveRelationships identifiers gd).2
     = Z.of_nat (GetRelationshipCount gd))%Z.
Proof.
  intros Hnd. unfold RemoveRelationships.
  rewrite RemoveRelationships_loop by done.
  cbn [fst snd Nodes Relationships Source]. unfold GetRelationshipCount.
  cbn [Relationships].
  pose proof (filter_length_split (λ r, GetIdentifier r ∈ identifiers)
                (Relationships gd)) as Hs.
  repeat split; lia.
Qed.

Lemma RemoveRelationships_unique_witness :
  NoDup (GetIdentifier <$> Relationships trio_doc)
  ∧ (RemoveRelationships [rel_1_2; rel_3_4; rel_1_2] trio_doc).2 = 1%Z
  ∧ Relationships (RemoveRelationships [rel_1_2; rel_3_4; rel_1_2] trio_doc).1
    = [works_with]
  ∧ Nodes (RemoveRelationships [rel_1_2; rel_3_4; rel_1_2] trio_doc).1
    = [alice; bob; carol].
Proof.
  assert (Hnd : NoDup (GetIdentifier <$> Relationships trio_doc)).
  { apply (bool_decide_unpack _). vm_compute. exact I. }
  destruct (RemoveRelationships_unique [rel_1_2; rel_3_4; rel_1_2] trio_doc Hnd)
    as (Hrels & Hnodes & _ & Hcount & _).
  split; [exact Hnd|]. split; [rewrite Hcount; reflexivity|].
  split; [rewrite Hrels; reflexivity|]. rewrite Hnodes. reflexivity.
Defined.

(** X5: [AddNode] never deduplicates: the count always grows by one and
    the added ID exists afterwards, but [FindNode] keeps returning the node
    that carried the ID before, if there was one; the new node is found,
    at the last position, only when its ID was new. *)
Theorem AddNode_shadowed_by_earlier (node : Node.t) (nodeID : string)
  (gd : GraphDocument.t) :
  GetNodeCount (AddNode node gd) = GetNodeCount gd + 1
  ∧ NodeExists (Node.ID node) (AddNode node gd) = true
  ∧ FindNode nodeID (AddNode node gd)
    = match FindNode nodeID gd with
      | Some found => Some found
      | None =>
          if decide (Node.ID node = nodeID)
          then Some (GetNodeCount gd, node) else None
      end.
Proof.
  split; [|split].
  - unfold GetNodeCount, AddNode. simpl. by rewrite length_app.
  - apply NodeExists_spec. unfold AddNode. simpl.
    rewrite fmap_app, elem_of_app. right. simpl. apply list_elem_of_here.
  - unfold FindNode, AddNode, GetNodeCount. simpl.
    destruct (list_find _ (Nodes gd)) as [[i x]|] eqn:Hfind.
    + by apply list_find_app_l.
    + rewrite list_find_app_r by done. simpl.
      by destruct (decide (Node.ID node = nodeID)).
Qed.

Lemma RelationshipExists_identifier (id : RelationshipIdentifier.t)
  (gd : GraphDocument.t) :
  RelationshipExists (RelationshipIdentifier.SourceID id)
    (RelationshipIdentifier.TargetID id) (RelationshipIdentifier.Type_ id) gd
  = bool_decide (id ∈ GetIdentifier <$> Relationships gd).
Proof.
  pose proof (FindRelationship_None id gd) as Hnone.
  unfold RelationshipExists.
  destruct (FindRelationship _ _ _ gd) as [found|] eqn:Hfind.
  - rewrite bool_decide_eq_true_2 by eauto. symmetry.
    apply bool_decide_eq_true. destruct (decide (id ∈ GetIdentifier <$> Relationships gd)) as [|Habs]; [done|].
    apply Hnone in Habs. congruence.
  - rewrite bool_decide_eq_false_2 by (by intros [? ?]). symmetry.
    apply bool_decide_eq_false. by apply Hnone.
Qed.

Lemma NodeExists_decide (nodeID : string) (gd : GraphDocument.t) :
  NodeExists nodeID gd = bool_decide (nodeID ∈ Node.ID <$> Nodes gd).
Proof.
  destruct (NodeExists nodeID gd) eqn:E; symmetry.
  - by apply bool_decide_eq_true, NodeExists_spec.
  - apply bool_decide_eq_false. intros Hin%NodeExists_spec. congruence.
Qed.

(** X6: [Merge] keeps the receiver unique by identity, whatever the
    incoming document looks like: if the node IDs of the receiver are
    pairwise distinct they still are after the merge, and likewise the
    (SourceID, TargetID, Type) triples of its relationships.  Afterwards an
    ID, respectively a triple, exists in the receiver exactly when it
    existed in the receiver or in the incoming document before. *)
Theorem Merge_keeps_identities_unique (docA docB : GraphDocument.t) :
  (NoDup (Node.ID <$> Nodes docA) →
   NoDup (Node.ID <$> Nodes (Merge docB docA)))
  ∧ (NoDup (GetIdentifier <$> Relationships docA) →
     NoDup (GetIdentifier <$> Relationships (Merge docB docA)))
  ∧ (∀ nodeID,
       NodeExists nodeID (Merge docB docA)
       = NodeExists nodeID docA || NodeExists nodeID docB)
  ∧ (∀ sourceID targetID relType,
       RelationshipExists sourceID targetID relType (Merge docB docA)
       = RelationshipExists sourceID targetID relType docA
         || RelationshipExists sourceID targetID relType docB).
Proof.
  rewrite Merge_unfold. cbn [Nodes Relationships].
  split; [|split; [|split]].
  - apply NoDup_append_first_absent.
  - apply NoDup_append_first_absent.
  - intros nodeID. rewrite !NodeExists_decide. cbn [Nodes].
    apply eq_bool_prop_intro. rewrite orb_True, !bool_decide_spec.
    apply append_first_absent_keys.
  - intros sourceID targetID relType.
    pose proof (λ gd, RelationshipExists_identifier
                  (RelationshipIdentifier.mk sourceID targetID relType) gd)
      as Hex.
    cbn [RelationshipIdentifier.SourceID RelationshipIdentifier.TargetID
         RelationshipIdentifier.Type_] in Hex.
    rewrite !Hex. cbn [Relationships].
    apply eq_bool_prop_intro. rewrite orb_True, !bool_decide_spec.
    apply append_first_absent_keys.
Qed.

(** X7: merging a document all of whose identities the receiver already
    has changes nothing.  In particular merging the same document a second
    time changes nothing, and so does merging a document into itself. *)
Theorem Merge_absorbs_known (docA docB : GraphDocument.t) :
  ((∀ n, n ∈ Nodes docB → NodeExists (Node.ID n) docA = true) →
   (∀ r, r ∈ Relationships docB →
      RelationshipExists (Node.ID (Relationship.Source r))
        (Node.ID (Relationship.Target r)) (Relationship.Type_ r) docA = true) →
   Merge docB docA = docA)
  ∧ Merge docB (Merge docB docA) = Merge docB docA
  ∧ Merge docA docA = docA.
Proof.
  assert (Habsorb : ∀ docA docB,
    (∀ n, n ∈ Nodes docB → NodeExists (Node.ID n) docA = true) →
    (∀ r, r ∈ Relationships docB →
       RelationshipExists (Node.ID (Relationship.Source r))
         (Node.ID (Relationship.Target r)) (Relationship.Type_ r) docA = true) →
    Merge docB docA = docA).
  { clear. intros docA docB Hn Hr. rewrite Merge_unfold.
    rewrite !append_first_absent_nil; [by destruct docA| |].
    - intros r Hin. by apply RelationshipExists_spec, Hr.
    - intros n Hin. by apply NodeExists_spec, Hn. }
  split; [apply Habsorb|]. split; apply Habsorb.
  - intros n Hn. rewrite Merge_unfold. apply NodeExists_spec. cbn [Nodes].
    apply append_first_absent_keys. right. by apply list_elem_of_fmap_2.
  - intros r Hr. rewrite Merge_unfold. apply RelationshipExists_spec.
    cbn [Relationships].
    apply append_first_absent_keys. right. by apply list_elem_of_fmap_2.
  - intros n Hn. apply NodeExists_spec. by apply list_elem_of_fmap_2.
  - intros r Hr. apply RelationshipExists_spec. by apply list_elem_of_fmap_2.
Qed.

Lemma size_list_to_set_le (l : list string) :
  size (list_to_set l : gset string) ≤ length l.
Proof.
  induction l as [|x l IH].
  - by rewrite list_to_set_nil, size_empty.
  - rewrite list_to_set_cons, size_union_alt, size_singleton. simpl.
    assert (size (list_to_set l ∖ {[x]} : gset string)
            ≤ size (list_to_set l : gset string))
      by (apply subseteq_size; set_solver).
    lia.
Qed.

(** X8: the type listings and the finders by type agree: a type is listed
    by [GetNodeTypes] exactly when [FindNodesByType] finds a node of it, and
    likewise for relationships; there are at most as many types as
    entries; every entry is found under its own type; and the finders
    return entries of the document in document order. *)
Theorem types_and_finders_agree (gd : GraphDocument.t) (type : string) :
  (type ∈ GetNodeTypes gd ↔ FindNodesByType type gd ≠ [])
  ∧ (type ∈ GetRelationshipTypes gd ↔ FindRelationshipsByType type gd ≠ [])
  ∧ size (GetNodeTypes gd) ≤ GetNodeCount gd
  ∧ size (GetRelationshipTypes gd) ≤ GetRelationshipCount gd
  ∧ (∀ n, n ∈ Nodes gd → n ∈ FindNodesByType (Node.Type_ n) gd)
  ∧ (∀ r, r ∈ Relationships gd →
       r ∈ FindRelationshipsByType (Relationship.Type_ r) gd)
  ∧ FindNodesByType type gd `sublist_of` Nodes gd
  ∧ FindRelationshipsByType type gd `sublist_of` Relationships gd.
Proof.
  unfold GetNodeTypes, GetRelationshipTypes, FindNodesByType,
    FindRelationshipsByType, GetNodeCount, GetRelationshipCount.
  repeat split.
  - intros (n & -> & Hn)%elem_of_list_to_set%list_elem_of_fmap Hnil.
    apply (filter_nil_not_elem_of _ _ n) in Hnil; [by apply Hnil|done].
  - intros Hne. apply elem_of_list_to_set, list_elem_of_fmap.
    destruct (filter _ _) as [|n l] eqn:Hf; [done|].
    assert (Hn : n ∈ filter (λ node, Node.Type_ node = type) (Nodes gd))
      by (rewrite Hf; left).
    apply list_elem_of_filter in Hn as [Ht Hn]. eauto.
  - intros (n & -> & Hn)%elem_of_list_to_set%list_elem_of_fmap Hnil.
    apply (filter_nil_not_elem_of _ _ n) in Hnil; [by apply Hnil|done].
  - intros Hne. apply elem_of_list_to_set, list_elem_of_fmap.
    destruct (filter _ _) as [|n l] eqn:Hf; [done|].
    assert (Hn : n ∈ filter (λ rel, Relationship.Type_ rel = type)
                       (Relationships gd))
      by (rewrite Hf; left).
    apply list_elem_of_filter in Hn as [Ht Hn]. eauto.
  - etransitivity; [apply size_list_to_set_le|]. by rewrite length_fmap.
  - etransitivity; [apply size_list_to_set_le|]. by rewrite length_fmap.
  - intros n Hn. by apply list_elem_of_filter.
  - intros r Hr. by apply list_elem_of_filter.
  - apply sublist_filter.
  - apply sublist_filter.
Qed.

End GraphDocumentEdits.

(** ** Cleaning strings *)

Section StringFacts.
Import neo4j.

Lemma bytes_app (s1 s2 : string) :
  bytes (s1 +:+ s2)
  = bytes s1 ++ bytes s2.
Proof. induction s1 as [|c s1 IH]; simpl; [done|]. by rewrite IH. Qed.

Lemma ReplaceAll_delete (s : string) (old : Ascii.ascii) :
  bytes (ReplaceAll s old "")
  = filter (λ c, c ≠ old) (bytes s).
Proof.
  induction s as [|c s IH]; simpl; [done|].
  rewrite bytes_app, IH, filter_cons.
  destruct (Ascii.eqb_spec c old) as [->|Hne].
  - by rewrite decide_False by tauto.
  - by rewrite decide_True by done.
Qed.

Lemma ReplaceAll_substitute (s : string) (old new : Ascii.ascii) :
  bytes (ReplaceAll s old (String new ""))
  = (λ c, if Ascii.eqb c old then new else c) <$> bytes s.
Proof.
  induction s as [|c s IH]; simpl; [done|].
  rewrite bytes_app, IH.
  by destruct (Ascii.eqb c old).
Qed.

Lemma bytes_inj (s1 s2 : string) :
  bytes s1 = bytes s2 → s1 = s2.
Proof.
  intros Heq. rewrite <- (String.string_of_list_ascii_of_string s1),
    <- (String.string_of_list_ascii_of_string s2). by rewrite Heq.
Qed.

Lemma length_bytes (s : string) :
  length (bytes s) = String.length s.
Proof. induction s; simpl; congruence. Qed.

Lemma cleanString_bytes (text : string) :
  bytes (cleanString text) = filter (λ c, c ≠ backtick) (bytes text).
Proof. apply ReplaceAll_delete. Qed.

Lemma cleanString_no_backtick (text : string) :
  backtick ∉ bytes (cleanString text).
Proof. rewrite cleanString_bytes. by intros [Hne _]%list_elem_of_filter. Qed.

(** X9: [cleanString] deletes every backtick and nothing else: the result
    is the text without its backticks, every other byte in place; it holds
    no backtick, cleaning it again changes nothing, it is never longer than
    the text, and a text without backticks is returned as it is. *)
Theorem cleanString_removes_backticks (text : string) :
  bytes (cleanString text) = filter (λ c, c ≠ backtick) (bytes text)
  ∧ (backtick ∉ bytes (cleanString text))
  ∧ cleanString (cleanString text) = cleanString text
  ∧ String.length (cleanString text) ≤ String.length text
  ∧ (backtick ∉ bytes text → cleanString text = text).
Proof.
  pose proof (cleanString_bytes text) as Hbytes.
  split; [done|]. split; [apply cleanString_no_backtick|].
  split; [|split].
  - apply bytes_inj.
    rewrite cleanString_bytes, Hbytes, list_filter_filter.
    apply list_filter_iff. tauto.
  - rewrite <- !length_bytes, Hbytes. apply length_filter.
  - intros Habs. apply bytes_inj. rewrite Hbytes.
    apply filter_Forall_id, Forall_forall. intros c Hc ->. done.
Qed.

(** X10: [cleanStringValues] replaces every line feed and every carriage
    return by one space and changes no other byte: the length stays the
    same, the result holds neither of the two bytes, and cleaning it again
    changes nothing. *)
Theorem cleanStringValues_replaces_line_breaks (text : string) :
  bytes (cleanStringValues text)
  = (λ c, if Ascii.eqb c LF || Ascii.eqb c CR then space else c)
      <$> bytes text
  ∧ String.length (cleanStringValues text) = String.length text
  ∧ (LF ∉ bytes (cleanStringValues text))
  ∧ (CR ∉ bytes (cleanStringValues text))
  ∧ cleanStringValues (cleanStringValues text) = cleanStringValues text.
Proof.
  assert (Hbytes : ∀ text, bytes (cleanStringValues text)
    = (λ c, if Ascii.eqb c LF || Ascii.eqb c CR then space else c)
        <$> bytes text).
  { clear. intros text. unfold cleanStringValues.
    change " " with (String space "").
    rewrite !ReplaceAll_substitute, <- list_fmap_compose.
    apply list_fmap_ext. intros _ c _. simpl.
    fold LF CR. destruct (Ascii.eqb_spec c LF) as [->|]; [done|].
    simpl. done. }
  split; [done|]. split; [|split; [|split]].
  - by rewrite <- !length_bytes, Hbytes, length_fmap.
  - rewrite Hbytes. intros (c & Hc & _)%list_elem_of_fmap.
    destruct (Ascii.eqb_spec c LF); [done|]. simpl in Hc.
    destruct (Ascii.eqb_spec c CR); [done|]. congruence.
  - rewrite Hbytes. intros (c & Hc & _)%list_elem_of_fmap.
    destruct (Ascii.eqb_spec c LF); [done|]. simpl in Hc.
    destruct (Ascii.eqb_spec c CR); [done|]. congruence.
  - apply bytes_inj. rewrite !Hbytes, <- list_fmap_compose.
    apply list_fmap_ext. intros _ c _. simpl.
    destruct (Ascii.eqb_spec c LF) as [->|]; [done|].
    destruct (Ascii.eqb_spec c CR) as [->|]; [done|]. simpl.
    destruct (Ascii.eqb_spec c LF); [done|].
    by destruct (Ascii.eqb_spec c CR).
Qed.

End StringFacts.

(** ** Fixed points of the sanitization *)

Section SanitizeMore.
Import neo4j.





Lemma sanitizeRecords_fmap (rows : list (gmap string Value)) :
  sanitizeRecords rows
  = (λ record : gmap string Value,
       omap (λ value, keep (valueSanitize value)) record) <$> rows.
Proof.
  unfold sanitizeRecords. induction rows as [|row rows IH]; [done|].
  rewrite fmap_cons, <- IH. reflexivity.
Qed.

End SanitizeMore.

(** ** More on the Neo4j store *)

Section StoreMore.
Import neo4j.
Context `{Driver} `{GoRuntime} `{SchemaRenderer}.
#[local] Existing Instances M_ret M_bind.

(** What [Query] does on a store that has a driver, in terms of what the
    driver delivers. *)
Lemma Query_connected (query : string) (params : gmap string Value)
  (st : State) :
  driver (self st) = true →
  Query query params st
  = (mkState (self st) (session_Run (db st) query params).1
       (issued st ++ [(query, params)]),
     match (session_Run (db st) query params).2 with
     | RunStream rows None =>
         Ok (mkQueryResult
               (if sanitize (self st) then sanitizeRecords rows else rows)
               query params)
     | RunError cause | RunStream _ (Some cause) =>
         Fail (Err ("failed to execute query: " +:+ Error cause))
     end).
Proof.
  intros Hdrv. unfold Query, sessionRun. rewrite Hdrv. simpl.
  by destruct (session_Run _ _ _) as [db' [err|rows [err|]]].
Qed.

Lemma Query_run_connected (query : string) (params : gmap string Value)
  (st st' : State) (r : result QueryResult) :
  driver (self st) = true →
  Query query params st = (st', r) →
  self st' = self st ∧ issued st' = issued st ++ [(query, params)].
Proof.
  intros Hdrv. unfold Query, sessionRun. rewrite Hdrv. simpl.
  destruct (session_Run _ _ _) as [db' [err|rows [err|]]];
    intros [= <- <-]; done.
Qed.

Lemma Query_issues (query : string) (params : gmap string Value) (st : State) :
  driver (self st) = true →
  issued (Query query params st).1 = issued st ++ [(query, params)].
Proof.
  intros Hdrv. unfold Query, sessionRun. rewrite Hdrv. simpl.
  by destruct (session_Run _ _ _) as [db' [err|rows [err|]]].
Qed.


(** *** The store object and the query log *)

Lemma Extends_refl (st : State) : Extends st st.
Proof. by split. Qed.

Lemma Extends_trans (st1 st2 st3 : State) :
  Extends st1 st2 → Extends st2 st3 → Extends st1 st3.
Proof.
  intros [Hs1 Hl1] [Hs2 Hl2]. split; [congruence|by etransitivity].
Qed.

Lemma Frame_ret {A} (a : A) : Frame (ret a).
Proof. intros st. apply Extends_refl. Qed.

Lemma Frame_bind {A B} (m : M A) (k : A → M B) :
  Frame m → (∀ a, Frame (k a)) → Frame (m ≫= k).
Proof.
  intros Hm Hk st. rewrite bind_run. specialize (Hm st).
  destruct (m st) as [st' [a|err]]; [|done].
  eapply Extends_trans; [exact Hm|apply Hk].
Qed.

Lemma Frame_forEach {A} (body : A → M unit) (l : list A) :
  (∀ x, Frame (body x)) → Frame (forEach body l).
Proof.
  intros Hbody. induction l as [|x l IH]; simpl.
  - apply Frame_ret.
  - apply Frame_bind; [apply Hbody|by intros _].
Qed.

Lemma Frame_requireDriver : Frame requireDriver.
Proof.
  intros st. unfold requireDriver. destruct (driver (self st));
    apply Extends_refl.
Qed.

Lemma sessionRun_Extends (query : string) (params : gmap string Value)
  (st : State) :
  Extends st (sessionRun query params st).1.
Proof.
  unfold sessionRun. destruct (session_Run _ _ _) as [db' outcome].
  split; [done|]. simpl. by apply prefix_app_r.
Qed.

Lemma Frame_Query (query : string) (params : gmap string Value) :
  Frame (Query query params).
Proof.
  intros st. unfold Query. destruct (driver (self st)); simpl;
    [|apply Extends_refl].
  pose proof (sessionRun_Extends query params st) as Hrun.
  destruct (sessionRun query params st) as [st' [err|rows [err|]]]; done.
Qed.

Lemma Frame_mapError {A} (wrap : error → error) (m : M A) :
  Frame m → Frame (mapError wrap m).
Proof.
  intros Hm st. rewrite mapError_run. specialize (Hm st).
  by destruct (m st) as [st' [a|err]].
Qed.

Lemma Frame_reportImport (m : M QueryResult) :
  Frame m → Frame (reportImport m).
Proof.
  intros Hm st. unfold reportImport. specialize (Hm st).
  destruct (m st) as [st' [a|err]]; [done|]. by destruct (isAPOCError err).
Qed.

Lemma Frame_ensureBaseEntityConstraint : Frame ensureBaseEntityConstraint.
Proof.
  intros st. unfold ensureBaseEntityConstraint.
  destruct (baseEntityLabel (self st)); simpl; [|apply Extends_refl].
  match goal with |- context [Query ?q ?p st] =>
    pose proof (Frame_Query q p st) as Hq; destruct (Query q p st) as [st1 r]
  end.
  assert (Hcreate : ∀ q, Extends st ((Query q ∅ ;; ret tt) st1).1).
  { intros q. eapply Extends_trans; [exact Hq|].
    apply (Frame_bind (Query q ∅) (λ _, ret tt));
      [apply Frame_Query|intros _; apply Frame_ret]. }
  destruct r as [result|err]; [|apply Hcreate].
  case_decide; [done|apply Hcreate].
Qed.

Lemma Frame_importNodes (opts : graphs.Options.t)
  (doc : graphs.GraphDocument.t) : Frame (importNodes opts doc).
Proof.
  unfold importNodes. case_decide; [apply Frame_ret|].
  apply Frame_bind.
  - apply Frame_mapError, Frame_ensureBaseEntityConstraint.
  - intros _ st. apply Frame_reportImport, Frame_Query.
Qed.

Lemma Frame_importRelationships (opts : graphs.Options.t)
  (doc : graphs.GraphDocument.t) : Frame (importRelationships opts doc).
Proof.
  unfold importRelationships. case_decide; [apply Frame_ret|].
  intros st. apply Frame_reportImport, Frame_Query.
Qed.

Lemma Frame_batchLoop (fuel : nat) (docs : list graphs.GraphDocument.t)
  (opts : graphs.Options.t) (batchSize i : Z) :
  Frame (batchLoop fuel docs opts batchSize i).
Proof.
  revert i. induction fuel as [|fuel IH]; intros i; simpl.
  - apply Frame_ret.
  - case_decide; [|apply Frame_ret].
    apply Frame_bind; [|intros _; apply IH].
    unfold processBatch. apply Frame_bind.
    + apply Frame_forEach, Frame_importNodes.
    + intros _. apply Frame_forEach, Frame_importRelationships.
Qed.

Lemma Frame_addNode (opts : graphs.Options.t) (node : graphs.Node.t) :
  Frame (addNode opts node).
Proof.
  intros st. unfold addNode.
  match goal with |- context [sessionRun ?q ?p st] =>
    pose proof (sessionRun_Extends q p st) as Hrun;
    destruct (sessionRun q p st) as [st' [err|rows iterErr]]
  end; done.
Qed.

Lemma Frame_addRelationship (opts : graphs.Options.t)
  (rel : graphs.Relationship.t) : Frame (addRelationship opts rel).
Proof.
  intros st. unfold addRelationship.
  match goal with |- context [sessionRun ?q ?p st] =>
    pose proof (sessionRun_Extends q p st) as Hrun;
    destruct (sessionRun q p st) as [st' [err|rows iterErr]]
  end; done.
Qed.

Lemma Frame_RemoveRelationship_store (sourceID targetID relType : string) :
  Frame (neo4j.RemoveRelationship sourceID targetID relType).
Proof.
  unfold neo4j.RemoveRelationship.
  apply Frame_bind; [apply Frame_requireDriver|]. intros _ st.
  match goal with |- context [sessionRun ?q ?p st] =>
    pose proof (sessionRun_Extends q p st) as Hrun;
    destruct (sessionRun q p st) as [st' [err|rows iterErr]]
  end; done.
Qed.

(** X13: no operation that reads or writes the graph touches the store
    object: whatever the driver answers, [Query], [AddGraphDocument],
    [AddNodes], [AddRelationships], [UpdateNode], [UpdateRelationship],
    [RemoveNode], [RemoveNodes], [RemoveRelationship] and
    [RemoveRelationships] leave the settings and the cached schema exactly
    as they were (so the cached schema is never refreshed by a write), and
    they only ever append to the log of issued queries. *)
Theorem store_object_frame :
  (∀ query params, Frame (Query query params))
  ∧ (∀ docs options, Frame (AddGraphDocument docs options))
  ∧ (∀ nodes options, Frame (AddNodes nodes options))
  ∧ (∀ relationships options, Frame (AddRelationships relationships options))
  ∧ (∀ nodeID properties, Frame (UpdateNode nodeID properties))
  ∧ (∀ sourceID targetID relType properties,
       Frame (UpdateRelationship sourceID targetID relType properties))
  ∧ (∀ nodeID options, Frame (neo4j.RemoveNode nodeID options))
  ∧ (∀ nodeIDs options, Frame (neo4j.RemoveNodes nodeIDs options))
  ∧ (∀ sourceID targetID relType,
       Frame (neo4j.RemoveRelationship sourceID targetID relType))
  ∧ (∀ relationships, Frame (neo4j.RemoveRelationships relationships)).
Proof.
  repeat apply conj.
  - apply Frame_Query.
  - intros docs options. unfold AddGraphDocument.
    apply Frame_bind; [apply Frame_requireDriver|]. intros _.
    apply Frame_batchLoop.
  - intros nodes options. unfold AddNodes.
    apply Frame_bind; [apply Frame_requireDriver|]. intros _.
    apply Frame_forEach, Frame_addNode.
  - intros rels options. unfold AddRelationships.
    apply Frame_bind; [apply Frame_requireDriver|]. intros _.
    apply Frame_forEach, Frame_addRelationship.
  - intros nodeID properties. unfold UpdateNode.
    apply Frame_bind; [apply Frame_requireDriver|]. intros _ st.
    match goal with |- context [sessionRun ?q ?p st] =>
      pose proof (sessionRun_Extends q p st) as Hrun;
      destruct (sessionRun q p st) as [st' [err|[|row rows] iterErr]]
    end; done.
  - intros sourceID targetID relType properties. unfold UpdateRelationship.
    apply Frame_bind; [apply Frame_requireDriver|]. intros _ st.
    match goal with |- context [sessionRun ?q ?p st] =>
      pose proof (sessionRun_Extends q p st) as Hrun;
      destruct (sessionRun q p st) as [st' [err|[|row rows] iterErr]]
    end; done.
  - intros nodeID options. unfold neo4j.RemoveNode.
    apply Frame_bind; [apply Frame_requireDriver|]. intros _ st.
    match goal with |- context [sessionRun ?q ?p st] =>
      pose proof (sessionRun_Extends q p st) as Hrun;
      destruct (sessionRun q p st) as [st' [err|rows iterErr]]
    end; done.
  - intros nodeIDs options. unfold neo4j.RemoveNodes.
    apply Frame_bind; [apply Frame_requireDriver|]. intros _ st.
    match goal with |- context [sessionRun ?q ?p st] =>
      pose proof (sessionRun_Extends q p st) as Hrun;
      destruct (sessionRun q p st) as [st' [err|rows iterErr]]
    end; done.
  - apply Frame_RemoveRelationship_store.
  - intros rels. unfold neo4j.RemoveRelationships.
    apply Frame_bind; [apply Frame_requireDriver|]. intros _.
    apply Frame_forEach. intros rel. apply Frame_RemoveRelationship_store.
Qed.

(** X14: on a store object without a driver every operation returns
    [ErrDriverNotInitialized] and does nothing else: no query is issued
    and the state is the one before the call. *)
Theorem operations_need_driver (st : State) :
  driver (self st) = false →
  (∀ query params, Refused st (Query query params))
  ∧ (∀ docs options, Refused st (AddGraphDocument docs options))
  ∧ (∀ nodes options, Refused st (AddNodes nodes options))
  ∧ (∀ relationships options,
       Refused st (AddRelationships relationships options))
  ∧ (∀ nodeID properties, Refused st (UpdateNode nodeID properties))
  ∧ (∀ sourceID targetID relType properties,
       Refused st (UpdateRelationship sourceID targetID relType properties))
  ∧ (∀ nodeID options, Refused st (neo4j.RemoveNode nodeID options))
  ∧ (∀ nodeIDs options, Refused st (neo4j.RemoveNodes nodeIDs options))
  ∧ (∀ sourceID targetID relType,
       Refused st (neo4j.RemoveRelationship sourceID targetID relType))
  ∧ (∀ relationships, Refused st (neo4j.RemoveRelationships relationships))
  ∧ Refused st RefreshSchema.
Proof.
  intros Hdrv. unfold Refused.
  assert (Hreq : ∀ (k : unit → M unit),
            (requireDriver ≫= k) st = (st, Fail ErrDriverNotInitialized)).
  { intros k. rewrite bind_run. unfold requireDriver. by rewrite Hdrv. }
  repeat apply conj; intros; try apply Hreq.
  unfold Query. by rewrite Hdrv.
Qed.

(** *** Batch import: options and queries *)

Lemma forEach_ext {A} (body1 body2 : A → M unit) (l : list A) (st : State) :
  (∀ x st', body1 x st' = body2 x st') →
  forEach body1 l st = forEach body2 l st.
Proof.
  intros Hext. revert st. induction l as [|x l IH]; intros st; simpl; [done|].
  apply bind_ext; [apply Hext|]. intros _ st'. apply IH.
Qed.

Lemma AddGraphDocument_schedule (docs : list graphs.GraphDocument.t)
  (options : list graphs.Option) (st : State) :
  driver (self st) = true →
  AddGraphDocument docs options st
  = forEach (runStep (graphs.applyOptions options))
      (schedule (effectiveBatchSize (graphs.applyOptions options)) docs) st.
Proof.
  intros Hdrv. unfold AddGraphDocument. rewrite bind_run.
  unfold requireDriver. rewrite Hdrv.
  set (opts := graphs.applyOptions options).
  pose proof (effectiveBatchSize_pos opts) as Hsize.
  replace (if decide (graphs.Options.BatchSize opts ≤ 0)%Z then 100%Z
           else graphs.Options.BatchSize opts)
    with (Z.of_nat (effectiveBatchSize opts))
    by (unfold effectiveBatchSize; case_decide; lia).
  rewrite (batchLoop_schedule _ docs opts (effectiveBatchSize opts) 0 st)
    by (done || lia).
  by rewrite drop_0.
Qed.

Lemma runStep_reads_IncludeSource (opts1 opts2 : graphs.Options.t)
  (step : ImportStep) (st : State) :
  graphs.Options.IncludeSource opts1 = graphs.Options.IncludeSource opts2 →
  runStep opts1 step st = runStep opts2 step st.
Proof.
  intros Hinc. destruct step as [doc|doc]; simpl.
  - unfold importNodes. by rewrite Hinc.
  - done.
Qed.

(** X15: of all the options, [AddGraphDocument] reads only
    [IncludeSource] and [BatchSize]: two option lists that agree on
    whether the source is included and on the effective batch size give
    the same run, so the merge mode, the cascade flag, the timeout, the
    limit and the offset have no effect on an import. *)
Theorem AddGraphDocument_reads_two_options
  (docs : list graphs.GraphDocument.t) (options1 options2 : list graphs.Option)
  (st : State) :
  graphs.Options.IncludeSource (graphs.applyOptions options1)
  = graphs.Options.IncludeSource (graphs.applyOptions options2) →
  effectiveBatchSize (graphs.applyOptions options1)
  = effectiveBatchSize (graphs.applyOptions options2) →
  AddGraphDocument docs options1 st = AddGraphDocument docs options2 st.
Proof.
  intros Hinc Hsize. destruct (driver (self st)) eqn:Hdrv.
  - rewrite !AddGraphDocument_schedule by done. rewrite Hsize.
    apply forEach_ext. intros step st'. by apply runStep_reads_IncludeSource.
  - unfold AddGraphDocument. rewrite !bind_run. unfold requireDriver.
    by rewrite Hdrv.
Qed.

(** X16: importing documents that hold neither nodes nor relationships
    (in particular, importing no document at all) succeeds without handing
    anything to the driver: the state is the one before the call. *)
Theorem AddGraphDocument_nothing_to_import
  (docs : list graphs.GraphDocument.t) (options : list graphs.Option)
  (st : State) :
  driver (self st) = true →
  Forall (λ doc, graphs.GraphDocument.Nodes doc = []
                 ∧ graphs.GraphDocument.Relationships doc = []) docs →
  AddGraphDocument docs options st = (st, Ok tt).
Proof.
  intros Hdrv Hempty. rewrite AddGraphDocument_schedule by done.
  set (opts := graphs.applyOptions options).
  assert (Hsteps : Forall (λ step, ∀ st', runStep opts step st' = (st', Ok tt))
                     (schedule (effectiveBatchSize opts) docs)).
  { rewrite <- (concat_chunks (effectiveBatchSize opts) docs) in Hempty
      by apply effectiveBatchSize_pos.
    apply Forall_concat in Hempty.
    unfold schedule. apply Forall_concat, Forall_fmap.
    eapply Forall_impl; [exact Hempty|]. intros chunk Hsub. simpl.
    apply Forall_app. split; apply Forall_fmap; eapply Forall_impl;
      try exact Hsub; intros doc [Hn Hr] st'; simpl.
    - unfold importNodes. by rewrite Hn.
    - unfold importRelationships. by rewrite Hr. }
  clear Hdrv. revert st. induction Hsteps as [|step steps Hstep _ IH]; intros st.
  - done.
  - simpl. rewrite bind_run, Hstep. apply IH.
Qed.

Lemma runStep_query_count (opts : graphs.Options.t) (step : ImportStep)
  (st st' : State) (r : result unit) :
  driver (self st) = true →
  baseEntityLabel (self st) = false →
  runStep opts step st = (st', r) →
  self st' = self st
  ∧ ∃ calls, issued st' = issued st ++ calls
      ∧ length calls = stepQueryCount step
      ∧ Forall (λ call,
                  call.1 = getNodeImportQuery (self st)
                             (graphs.Options.IncludeSource opts)
                  ∨ call.1 = getRelImportQuery (self st)) calls.
Proof.
  intros Hdrv Hbase. destruct step as [doc|doc]; simpl.
  - unfold importNodes. case_decide.
    { intros [= <- <-]. split; [done|]. exists []. rewrite app_nil_r.
      split; [done|]. split; [done|constructor]. }
    rewrite bind_run, mapError_run. unfold ensureBaseEntityConstraint.
    rewrite Hbase. simpl. unfold reportImport.
    match goal with |- context [Query ?q ?p st] =>
      pose proof (Query_run_connected q p st) as Hq;
      destruct (Query q p st) as [st1 r1]
    end.
    destruct (Hq st1 r1 Hdrv eq_refl) as [Hself Hlog].
    intros Hrun. assert (st' = st1) as ->.
    { destruct r1 as [?|err]; [|destruct (isAPOCError err)]; by simplify_eq. }
    split; [done|]. eexists. split; [exact Hlog|].
    split; [done|]. apply Forall_singleton. by left.
  - unfold importRelationships. case_decide.
    { intros [= <- <-]. split; [done|]. exists []. rewrite app_nil_r.
      split; [done|]. split; [done|constructor]. }
    unfold reportImport.
    match goal with |- context [Query ?q ?p st] =>
      pose proof (Query_run_connected q p st) as Hq;
      destruct (Query q p st) as [st1 r1]
    end.
    destruct (Hq st1 r1 Hdrv eq_refl) as [Hself Hlog].
    intros Hrun. assert (st' = st1) as ->.
    { destruct r1 as [?|err]; [|destruct (isAPOCError err)]; by simplify_eq. }
    split; [done|]. eexists. split; [exact Hlog|].
    split; [done|]. apply Forall_singleton. by right.
Qed.

Lemma forEach_runStep_count (opts : graphs.Options.t) (steps : list ImportStep)
  (st st' : State) (r : result unit) :
  driver (self st) = true →
  baseEntityLabel (self st) = false →
  forEach (runStep opts) steps st = (st', r) →
  self st' = self st
  ∧ ∃ calls, issued st' = issued st ++ calls
      ∧ length calls ≤ sum_list_with stepQueryCount steps
      ∧ (r = Ok tt → length calls = sum_list_with stepQueryCount steps)
      ∧ Forall (λ call,
                  call.1 = getNodeImportQuery (self st)
                             (graphs.Options.IncludeSource opts)
                  ∨ call.1 = getRelImportQuery (self st)) calls.
Proof.
  revert st. induction steps as [|step steps IH]; intros st Hdrv Hbase.
  - intros [= <- <-]. split; [done|]. exists []. rewrite app_nil_r.
    repeat split; (done || constructor).
  - cbn [forEach]. rewrite bind_run. destruct (runStep opts step st) as [st1 r1] eqn:Hstep.
    apply runStep_query_count in Hstep as (Hself & calls1 & Hlog1 & Hlen1 & Hq1);
      [|done..].
    cbn [sum_list_with].
    destruct r1 as [[]|err].
    + intros Hrest. apply IH in Hrest as (Hself' & calls2 & Hlog2 & Hle & Heq & Hq2);
        [|congruence..].
      split; [congruence|]. exists (calls1 ++ calls2).
      rewrite Hlog2, Hlog1, <- app_assoc, length_app.
      split; [done|]. split; [lia|]. split; [intros Hr; specialize (Heq Hr); lia|].
      apply Forall_app. split; [done|]. by rewrite <- Hself.
    + intros [= <- <-]. split; [done|]. exists calls1.
      split; [done|]. split; [lia|]. split; [done|]. done.
Qed.

Lemma importQueryCount_app (l1 l2 : list graphs.GraphDocument.t) :
  importQueryCount (l1 ++ l2) = importQueryCount l1 + importQueryCount l2.
Proof. unfold importQueryCount. rewrite !filter_app, !length_app. lia. Qed.

Lemma schedule_query_count (size : nat) (docs : list graphs.GraphDocument.t) :
  1 ≤ size →
  sum_list_with stepQueryCount (schedule size docs) = importQueryCount docs.
Proof.
  intros Hsize. rewrite <- (concat_chunks size docs) at 2 by done.
  unfold schedule. induction (chunks size docs) as [|chunk cs IH]; [done|].
  rewrite fmap_cons. cbn [concat].
  rewrite sum_list_with_app, IH, importQueryCount_app. f_equal.
  clear. rewrite sum_list_with_app.
  unfold importQueryCount. f_equal.
  - induction chunk as [|doc chunk IH]; [done|].
    rewrite fmap_cons, filter_cons. cbn [sum_list_with stepQueryCount].
    rewrite IH. by repeat case_decide.
  - induction chunk as [|doc chunk IH]; [done|].
    rewrite fmap_cons, filter_cons. cbn [sum_list_with stepQueryCount].
    rewrite IH. by repeat case_decide.
Qed.

(** X17: without the base entity label, [AddGraphDocument] issues at most
    one query per document that has nodes plus one per document that has
    relationships, and exactly that many when it succeeds; each of them is
    the node import query or the relationship import query.  The count
    does not depend on the batch size: batching orders the queries, it
    does not combine them. *)
Theorem AddGraphDocument_query_count (docs : list graphs.GraphDocument.t)
  (options : list graphs.Option) (st st' : State) (r : result unit) :
  driver (self st) = true →
  baseEntityLabel (self st) = false →
  AddGraphDocument docs options st = (st', r) →
  ∃ calls,
    issued st' = issued st ++ calls
    ∧ length calls ≤ importQueryCount docs
    ∧ (r = Ok tt → length calls = importQueryCount docs)
    ∧ Forall (λ call,
                call.1 = getNodeImportQuery (self st)
                           (graphs.Options.IncludeSource
                              (graphs.applyOptions options))
                ∨ call.1 = getRelImportQuery (self st)) calls.
Proof.
  intros Hdrv Hbase. rewrite AddGraphDocument_schedule by done.
  intros (_ & calls & Hlog & Hle & Heq & Hq)%forEach_runStep_count; [|done..].
  rewrite schedule_query_count in Hle, Heq by apply effectiveBatchSize_pos.
  eauto.
Qed.

(** *** The base entity constraint *)

(** X18: on a store that has a driver, [ensureBaseEntityConstraint] does
    nothing when the base entity label is off.  Otherwise it issues the
    lookup; when the lookup delivers at least one record without error it
    stops there and succeeds, whether or not records are sanitized; in
    every other case, a failed lookup included, it issues the creation,
    and its result is the verdict on the creation alone: the error of a
    failed lookup is never reported. *)
Theorem ensureBaseEntityConstraint_outcomes (st : State) :
  driver (self st) = true →
  let looked := session_Run (db st) constraintLookupCall.1
                  constraintLookupCall.2 in
  let created := session_Run looked.1 constraintCreateCall.1
                   constraintCreateCall.2 in
  ensureBaseEntityConstraint st
  = if negb (baseEntityLabel (self st)) then (st, Ok tt)
    else
      if constraintFound looked.2 then
        (mkState (self st) looked.1 (issued st ++ [constraintLookupCall]),
         Ok tt)
      else
        (mkState (self st) created.1
           (issued st ++ [constraintLookupCall; constraintCreateCall]),
         queryVerdict created.2).
Proof.
  intros Hdrv looked created. unfold ensureBaseEntityConstraint.
  destruct (baseEntityLabel (self st)); [|done]. cbn [negb].
  rewrite Query_connected by done.
  change (session_Run (db st) _ _) with looked.
  assert (Hcreate : ∀ st1 : State,
    self st1 = self st →
    (Query constraintCreateCall.1 constraintCreateCall.2 ;; ret tt) st1
    = (mkState (self st) (session_Run (db st1) constraintCreateCall.1
                            constraintCreateCall.2).1
         (issued st1 ++ [constraintCreateCall]),
       queryVerdict (session_Run (db st1) constraintCreateCall.1
                       constraintCreateCall.2).2)).
  { intros st1 Hself. rewrite bind_run, Query_connected by congruence.
    rewrite Hself.
    destruct (session_Run (db st1) _ _) as [db' [err|rows [err|]]];
      reflexivity. }
  change (Query _ ∅) with (Query constraintCreateCall.1 constraintCreateCall.2).
  destruct looked as [db1 [err|rows [err|]]] eqn:Hlooked; cbn [fst snd].
  - rewrite Hcreate by done. cbn [db issued]. rewrite <- app_assoc.
    reflexivity.
  - rewrite Hcreate by done. cbn [db issued]. rewrite <- app_assoc.
    destruct rows; reflexivity.
  - cbn [records]. 
    assert (Hlen : length (if sanitize (self st) then sanitizeRecords rows
                           else rows) = length rows).
    { destruct (sanitize (self st)); [|done].
      by rewrite sanitizeRecords_fmap, length_fmap. }
    rewrite Hlen. destruct rows as [|row rows]; simpl.
    + rewrite Hcreate by done. cbn [db issued]. rewrite <- app_assoc.
      reflexivity.
    + reflexivity.
Qed.

(** *** Adding nodes and relationships one by one *)







(** *** Schema refresh: all or nothing *)

(** X20: [RefreshSchema] is all or nothing for the cache.  When it fails,
    the store object is exactly as before (the previous schema, text and
    structure, stays cached) and it has issued at most the first three of
    its queries, none at all exactly when the driver is missing.  When it
    succeeds it has issued its five queries in their fixed order, and
    every connection setting is as before. *)
Theorem RefreshSchema_all_or_nothing (st st' : State) (r : result unit) :
  RefreshSchema st = (st', r) →
  match r with
  | Ok _ =>
      issued st' = issued st ++ refreshCalls
      ∧ sameSettings (self st) (self st')
  | Fail err =>
      self st' = self st
      ∧ ∃ n, n ≤ 3 ∧ issued st' = issued st ++ take n refreshCalls
             ∧ (n = 0 ↔ driver (self st) = false)
  end.
Proof.
  unfold RefreshSchema. rewrite bind_run. unfold requireDriver.
  destruct (driver (self st)) eqn:Hdrv.
  2:{ intros [= <- <-]. split; [done|]. exists 0.
      cbn [take]. rewrite app_nil_r. split; [lia|]. by split. }
  rewrite bind_run, mapError_run, Query_connected by done.
  destruct (session_Run (db st) _ _) as [db1 out1]. cbn [fst snd].
  assert (Hfail1 : ∀ (err : error) (st1 : State),
            self st1 = self st →
            issued st1 = issued st ++ take 1 refreshCalls →
            (st1, Fail (A:=unit) err) = (st', r) →
            match r with
            | Ok _ => issued st' = issued st ++ refreshCalls
                      ∧ sameSettings (self st) (self st')
            | Fail _ => self st' = self st
                ∧ ∃ n, n ≤ 3 ∧ issued st' = issued st ++ take n refreshCalls
                       ∧ (n = 0 ↔ true = false)
            end).
  { intros err st1 Hs Hl [= <- <-]. split; [done|]. exists 1.
    split; [lia|]. split; [done|]. split; [lia|done]. }
  destruct out1 as [cause|rows1 [cause|]];
    [apply Hfail1; [reflexivity|done]..|].
  set (st1 := mkState _ db1 _). cbv beta.
  rewrite bind_run, mapError_run, Query_connected by done.
  destruct (session_Run (db st1) _ _) as [db2 out2]. cbn [fst snd].
  assert (Hfail2 : ∀ (err : error) (st2 : State),
            self st2 = self st →
            issued st2 = issued st ++ take 2 refreshCalls →
            (st2, Fail (A:=unit) err) = (st', r) →
            match r with
            | Ok _ => issued st' = issued st ++ refreshCalls
                      ∧ sameSettings (self st) (self st')
            | Fail _ => self st' = self st
                ∧ ∃ n, n ≤ 3 ∧ issued st' = issued st ++ take n refreshCalls
                       ∧ (n = 0 ↔ true = false)
            end).
  { intros err st2 Hs Hl [= <- <-]. split; [done|]. exists 2.
    split; [lia|]. split; [done|]. split; [lia|done]. }
  destruct out2 as [cause|rows2 [cause|]];
    [apply Hfail2; [reflexivity|cbn; by rewrite <- app_assoc]..|].
  set (st2 := mkState _ db2 _). cbv beta.
  rewrite bind_run, mapError_run, Query_connected by done.
  destruct (session_Run (db st2) _ _) as [db3 out3]. cbn [fst snd].
  assert (Hfail3 : ∀ (err : error) (st3 : State),
            self st3 = self st →
            issued st3 = issued st ++ take 3 refreshCalls →
            (st3, Fail (A:=unit) err) = (st', r) →
            match r with
            | Ok _ => issued st' = issued st ++ refreshCalls
                      ∧ sameSettings (self st) (self st')
            | Fail _ => self st' = self st
                ∧ ∃ n, n ≤ 3 ∧ issued st' = issued st ++ take n refreshCalls
                       ∧ (n = 0 ↔ true = false)
            end).
  { intros err st3 Hs Hl [= <- <-]. split; [done|]. exists 3.
    split; [lia|]. split; [done|]. split; [lia|done]. }
  destruct out3 as [cause|rows3 [cause|]];
    [apply Hfail3; [reflexivity|cbn; by rewrite <- !app_assoc]..|].
  set (st3 := mkState _ db3 _). cbv beta.
  rewrite (Query_connected constraintsQuery ∅ st3) by done.
  set (st4 := mkState _ _ _).
  rewrite (Query_connected indexQuery ∅ st4) by done.
  intros [= <- <-]. cbn [issued self]. split.
  - by rewrite <- !app_assoc.
  - by repeat split.
Qed.

Lemma collectProps_snoc (nameKey : string) (rows : list (gmap string Value))
  (row : gmap string Value) :
  collectProps nameKey (rows ++ [row])
  = match schemaEntryOf nameKey row with
    | Some (name, properties) =>
        <[ name := properties ]> (collectProps nameKey rows)
    | None => collectProps nameKey rows
    end.
Proof.
  unfold collectProps, schemaEntryOf. rewrite foldl_app. cbn [foldl].
  destruct (row !! "output") as [[| | | | | |output]|]; try done.
  destruct (output !! nameKey) as [[| | | |name| |]|]; try done.
  by destruct (output !! "properties").
Qed.

(** X21: [collectProps] keeps, for every name, the property list of the
    last well-formed record that carries the name; records without a map
    under "output", without a string name or without "properties" are
    skipped, and a name no well-formed record carries is absent. *)
Theorem collectProps_last_record_wins (nameKey : string)
  (rows : list (gmap string Value)) (name : string) :
  collectProps nameKey rows !! name
  = snd <$> last (filter (λ entry, entry.1 = name)
                    (omap (schemaEntryOf nameKey) rows)).
Proof.
  induction rows as [|row rows IH] using rev_ind; [done|].
  rewrite collectProps_snoc, omap_app, filter_app.
  change (omap ?f [row]) with (match f row with Some y => [y] | None => [] end).
  destruct (schemaEntryOf nameKey row) as [[name' properties]|].
  - rewrite filter_cons, filter_nil. cbn [fst].
    destruct (decide (name' = name)) as [->|Hne].
    + by rewrite lookup_insert_eq, last_snoc.
    + by rewrite lookup_insert_ne, app_nil_r.
  - by rewrite filter_nil, app_nil_r.
Qed.

(** *** What the relationship import sends *)

Lemma reportImport_state (m : M QueryResult) (st : State) :
  (reportImport m st).1 = (m st).1.
Proof.
  unfold reportImport. destruct (m st) as [st' [a|err]]; [done|].
  by destruct (isAPOCError err).
Qed.

(** X22: for a document that has relationships, [importRelationships] on a
    store with a driver issues exactly one query, the relationship import
    query, with one parameter entry per relationship, in order.  Each
    entry carries the IDs of the end nodes and the properties unchanged;
    the labels of the end nodes hold no backtick; and the relationship
    type holds neither a backtick nor a space, whatever the upper-casing
    of the library does. *)
Theorem importRelationships_sends_clean_types (opts : graphs.Options.t)
  (doc : graphs.GraphDocument.t) (st : State) :
  driver (self st) = true →
  graphs.GraphDocument.Relationships doc ≠ [] →
  ∃ items,
    issued (importRelationships opts doc st).1
    = issued st ++ [(getRelImportQuery (self st),
                     {[ "relationships" := VList items ]})]
    ∧ Forall2
        (λ rel item,
           ∃ sourceLabel targetLabel relType,
             item = VMap {[ "source" :=
                              VStr (graphs.Node.ID (graphs.Relationship.Source rel));
                            "source_label" := VStr sourceLabel;
                            "target" :=
                              VStr (graphs.Node.ID (graphs.Relationship.Target rel));
                            "target_label" := VStr targetLabel;
                            "type" := VStr relType;
                            "properties" :=
                              VMap (graphs.Relationship.Properties rel) ]}
             ∧ (backtick ∉ bytes sourceLabel)
             ∧ (backtick ∉ bytes targetLabel)
             ∧ (backtick ∉ bytes relType)
             ∧ (space ∉ bytes relType))
        (graphs.GraphDocument.Relationships doc) items.
Proof.
  intros Hdrv Hrels. unfold importRelationships.
  rewrite decide_False by (by destruct (graphs.GraphDocument.Relationships doc)).
  eexists. rewrite reportImport_state, Query_issues by done.
  split; [reflexivity|].
  apply Forall2_fmap_r, Forall_Forall2_diag, Forall_forall. intros rel _.
  eexists _, _, _. split; [reflexivity|].
  split; [apply cleanString_no_backtick|].
  split; [apply cleanString_no_backtick|].
  split; [apply cleanString_no_backtick|].
  rewrite cleanString_bytes.
  intros [_ Hin]%list_elem_of_filter.
  change "_" with (String (Ascii.ascii_of_nat 95) "") in Hin.
  rewrite ReplaceAll_substitute in Hin.
  apply list_elem_of_fmap in Hin as (c & Hc & _).
  destruct (Ascii.eqb_spec c (Ascii.ascii_of_nat 32)); [done|].
  by subst c.
Qed.

End StoreMore.

(** ** Reading nodes back, and connection options *)

Section ConversionFacts.
Import neo4j.

(** X23: the node [convertNeo4jNodeToGraphNode] returns never has the base
    entity label as its type: the type is one of the node's labels when
    there is a label other than the base entity label, and empty when
    there is none.  The properties are the stored ones, so a non-empty ID
    is always also the string property "id".  A node stored under its type
    (alone, or with the base entity label before or after it) with its ID
    as the property "id" reads back with the same ID and type, and with
    the ID added to its properties. *)
Theorem convertNeo4jNodeToGraphNode_reads_back (node : DriverNode) :
  let converted := convertNeo4jNodeToGraphNode node in
  graphs.Node.Type_ converted ≠ BASE_ENTITY_LABEL
  ∧ (∀ label, label ∈ Labels node → label ≠ BASE_ENTITY_LABEL →
       graphs.Node.Type_ converted ∈ Labels node)
  ∧ (Forall (λ label, label = BASE_ENTITY_LABEL) (Labels node) →
     graphs.Node.Type_ converted = "")
  ∧ graphs.Node.Properties converted = Props node
  ∧ (graphs.Node.ID converted ≠ "" →
     Props node !! "id" = Some (VStr (graphs.Node.ID converted)))
  ∧ (∀ n : graphs.Node.t,
       graphs.Node.Type_ n ≠ BASE_ENTITY_LABEL →
       let stored := <[ "id" := VStr (graphs.Node.ID n) ]> (graphs.Node.Properties n) in
       let read := graphs.Node.mk (graphs.Node.ID n) (graphs.Node.Type_ n) stored in
       convertNeo4jNodeToGraphNode
         (mkDriverNode [BASE_ENTITY_LABEL; graphs.Node.Type_ n] stored) = read
       ∧ convertNeo4jNodeToGraphNode
           (mkDriverNode [graphs.Node.Type_ n; BASE_ENTITY_LABEL] stored) = read
       ∧ convertNeo4jNodeToGraphNode
           (mkDriverNode [graphs.Node.Type_ n] stored) = read).
Proof.
  cbv zeta. unfold convertNeo4jNodeToGraphNode.
  destruct (list_find _ (Labels node)) as [[i label]|] eqn:Hfind; cbn.
  - apply list_find_Some in Hfind as (Hi & Hne & _).
    split; [done|]. split; [intros; by eapply list_elem_of_lookup_2|].
    split.
    { intros Hall. rewrite Forall_forall in Hall.
      destruct Hne. by eapply Hall, list_elem_of_lookup_2. }
    split; [done|]. split.
    { destruct (Props node !! "id") as [[| | | |s| |]|]; done. }
    intros n Hn. rewrite lookup_insert_eq.
    repeat split; simpl; repeat case_decide; done.
  - apply list_find_None in Hfind. rewrite Forall_forall in Hfind.
    split; [done|]. split.
    { intros label Hin Hne. by destruct (Hfind label Hin). }
    split; [done|]. split; [done|]. split.
    { destruct (Props node !! "id") as [[| | | |s| |]|]; done. }
    intros n Hn. rewrite lookup_insert_eq.
    repeat split; simpl; repeat case_decide; done.
Qed.


End ConversionFacts.

(** ** Shared property maps *)

Section SharedFacts.
Import shared.

Lemma assignAll_union (src dst : gmap string Value) :
  assignAll src dst = src ∪ dst.
Proof.
  unfold assignAll.
  apply (map_fold_weak_ind (λ acc src', acc = src' ∪ dst)).
  - by rewrite (left_id_L ∅ (∪)).
  - intros k v m acc Hk ->. by rewrite insert_union_l.
Qed.

Lemma assignAll_empty (src : gmap string Value) : assignAll src ∅ = src.
Proof. rewrite assignAll_union. apply (right_id_L ∅ (∪)). Qed.

Lemma alloc_fresh (content : gmap string Value) (h : Heap) :
  (alloc content h).2 ∉ dom h.
Proof. unfold alloc. simpl. apply is_fresh. Qed.

Lemma Preserves_refl (h : Heap) : Preserves h h.
Proof. by intros l _. Qed.

Lemma Preserves_trans (h1 h2 h3 : Heap) :
  Preserves h1 h2 → Preserves h2 h3 → Preserves h1 h3.
Proof.
  intros H12 H23 l Hl. rewrite H23, H12; [done..|].
  apply elem_of_dom. rewrite H12 by done. by apply elem_of_dom.
Qed.

Lemma Preserves_insert_fresh (h : Heap) (l : loc) (m : gmap string Value) :
  l ∉ dom h → Preserves h (<[ l := m ]> h).
Proof.
  intros Hl l' Hl'. rewrite lookup_insert_ne; [done|]. by intros ->.
Qed.

Lemma Preserves_dom (h h' : Heap) : Preserves h h' → dom h ⊆ dom h'.
Proof.
  intros Hp l Hl. apply elem_of_dom. rewrite Hp by done.
  by apply elem_of_dom.
Qed.

Lemma read_Preserves (h h' : Heap) (r : option loc) :
  Preserves h h' → Allocated h r → read h' r = read h r.
Proof.
  intros Hp Ha. destruct r as [l|]; [|done]. simpl. by rewrite Hp.
Qed.

Lemma Allocated_mono (h h' : Heap) (r : option loc) :
  dom h ⊆ dom h' → Allocated h r → Allocated h' r.
Proof. intros Hsub. destruct r as [l|]; [|done]. simpl. apply Hsub. Qed.

Lemma read_insert_eq (h : Heap) (l : loc) (m : gmap string Value) :
  read (<[ l := m ]> h) (Some l) = m.
Proof. simpl. by rewrite lookup_insert_eq. Qed.

Lemma read_insert_ne (h : Heap) (l : loc) (m : gmap string Value)
  (r : option loc) :
  r ≠ Some l → read (<[ l := m ]> h) r = read h r.
Proof.
  intros Hne. destruct r as [l'|]; [|done]. simpl.
  rewrite lookup_insert_ne; [done|]. congruence.
Qed.

Lemma Node_GetProperty_read (key : string) (n : Node.t) (h : Heap) :
  Node_GetProperty key n h
  = match read h (Node.Properties n) !! key with
    | Some val => (val, true)
    | None => (VNil, false)
    end.
Proof. unfold Node_GetProperty. by destruct (Node.Properties n). Qed.

Lemma Node_RemoveProperty_read (key : string) (n : Node.t) (h : Heap) (l : loc) :
  Node.Properties n = Some l →
  is_Some (read h (Some l) !! key) →
  Node_RemoveProperty key n h
  = (<[ l := delete key (read h (Some l)) ]> h, true).
Proof.
  intros Hl Hk. unfold Node_RemoveProperty. rewrite Hl.
  by rewrite decide_True.
Qed.

(** What [SetProperty] does to the store and to the receiver, whether or
    not the receiver had a map. *)
Lemma Node_SetProperty_run (key : string) (value : Value) (n : Node.t)
  (h : Heap) :
  ∃ l,
    Node_SetProperty key value n h
    = (<[ l := <[ key := value ]> (read h (Node.Properties n)) ]> h,
       Node.mk (Node.ID n) (Node.Type_ n) (Some l))
    ∧ (Node.Properties n = Some l
       ∨ Node.Properties n = None ∧ l ∉ dom h).
Proof.
  unfold Node_SetProperty. destruct (Node.Properties n) as [l|]; simpl.
  - exists l. split; [done|by left].
  - exists (fresh (dom h)). rewrite lookup_insert_eq, insert_insert_eq.
    split; [done|]. right. split; [done|apply is_fresh].
Qed.

Lemma Node_SetProperty_frame (key : string) (value : Value) (n : Node.t)
  (h : Heap) (r : option loc) :
  r ≠ Node.Properties n → Allocated h r →
  read (Node_SetProperty key value n h).1 r = read h r.
Proof.
  intros Hr Ha. destruct (Node_SetProperty_run key value n h) as (l & -> & Hl).
  cbn [fst]. apply read_insert_ne. intros ->.
  destruct Hl as [Hl|[_ Hl]]; [congruence|]. by apply Hl.
Qed.

(** X25: after [n.SetProperty(key, value)], [GetProperty] returns the
    value for the key and what it returned before for every other key, and
    the key joins the property keys; a following [RemoveProperty] of the
    key returns true, after which the key is gone and every other key is
    as before the two calls.  When the node had a map, the write goes into
    that map, so every copy of the node sees it; when its map was nil, a
    new map is allocated for the receiver alone, and a copy of the node
    made before the call still has no property.  No other map object
    changes. *)
Theorem Node_SetProperty_round_trip (key : string) (value : Value)
  (n : Node.t) (h : Heap) :
  let h1 := (Node_SetProperty key value n h).1 in
  let n1 := (Node_SetProperty key value n h).2 in
  Node_GetProperty key n1 h1 = (value, true)
  ∧ (∀ key', key' ≠ key →
       Node_GetProperty key' n1 h1 = Node_GetProperty key' n h)
  ∧ Node_GetPropertyKeys n1 h1 = {[ key ]} ∪ Node_GetPropertyKeys n h
  ∧ (Node_RemoveProperty key n1 h1).2 = true
  ∧ Node_HasProperty key n1 (Node_RemoveProperty key n1 h1).1 = false
  ∧ (∀ key', key' ≠ key →
       Node_GetProperty key' n1 (Node_RemoveProperty key n1 h1).1
       = Node_GetProperty key' n h)
  ∧ (∀ l, Node.Properties n = Some l →
       n1 = n ∧ read h1 (Some l) = <[ key := value ]> (read h (Some l)))
  ∧ (Node.Properties n = None →
       Preserves h h1 ∧ Node_GetProperty key n h1 = (VNil, false)
       ∧ ∃ l, Node.Properties n1 = Some l ∧ l ∉ dom h)
  ∧ (∀ r, r ≠ Node.Properties n → Allocated h r → read h1 r = read h r).
Proof.
  cbv zeta. destruct (Node_SetProperty_run key value n h) as (l & -> & Hl).
  cbn [fst snd].
  set (n1 := Node.mk (Node.ID n) (Node.Type_ n) (Some l)).
  set (m := read h (Node.Properties n)).
  assert (Hread : read (<[ l := <[ key := value ]> m ]> h) (Node.Properties n1)
                  = <[ key := value ]> m) by apply read_insert_eq.
  assert (Hrem : Node_RemoveProperty key n1 (<[ l := <[ key := value ]> m ]> h)
                 = (<[ l := delete key (<[ key := value ]> m) ]>
                      (<[ l := <[ key := value ]> m ]> h), true)).
  { rewrite (Node_RemoveProperty_read key n1 _ l); [|done|].
    - by rewrite read_insert_eq.
    - rewrite read_insert_eq, lookup_insert_eq. eauto. }
  rewrite Hrem. cbn [fst snd]. unfold Node_HasProperty, Node_GetPropertyKeys.
  rewrite !Node_GetProperty_read, Hread, lookup_insert_eq.
  cbn [Node.Properties n1]. rewrite read_insert_eq, lookup_delete_eq.
  split; [done|]. split.
  { intros key' Hne.
    by rewrite !Node_GetProperty_read, Hread, lookup_insert_ne. }
  split; [by rewrite dom_insert_L|]. split; [done|]. split; [done|]. split.
  { intros key' Hne. rewrite !Node_GetProperty_read. cbn [Node.Properties n1].
    by rewrite read_insert_eq, lookup_delete_ne, lookup_insert_ne. }
  split.
  { intros l' Hl'. destruct Hl as [Hl|[Hl _]]; [|congruence].
    assert (l' = l) as -> by congruence.
    split; [|by rewrite read_insert_eq; unfold m; rewrite Hl].
    unfold n1. destruct n; simpl in *. by subst. }
  split.
  { intros Hnil. destruct Hl as [Hl|[_ Hl]]; [congruence|].
    split; [by apply Preserves_insert_fresh|]. split; [|by exists l].
    by rewrite Hnil. }
  intros r Hr Ha. apply read_insert_ne. intros ->.
  destruct Hl as [Hl|[_ Hl]]; [congruence|]. by apply Hl.
Qed.

(** What allocating a copy does, for a reference that is nil or
    allocated. *)
Lemma copy_alloc (h : Heap) (r : option loc) :
  Allocated h r →
  let l := fresh (dom h) in
  <[ l := assignAll (read (<[ l := ∅ ]> h) r) (read (<[ l := ∅ ]> h) (Some l)) ]>
    (<[ l := ∅ ]> h)
  = <[ l := read h r ]> h.
Proof.
  intros Ha l. rewrite read_insert_eq, assignAll_empty, insert_insert_eq.
  rewrite read_insert_ne; [done|]. intros ->. by apply (is_fresh (dom h)).
Qed.

Lemma Node_Clone_run (n : Node.t) (h : Heap) :
  Allocated h (Node.Properties n) →
  Node_Clone n h
  = (<[ fresh (dom h) := read h (Node.Properties n) ]> h,
     Node.mk (Node.ID n) (Node.Type_ n) (Some (fresh (dom h)))).
Proof.
  intros Ha. unfold Node_Clone, alloc. by rewrite copy_alloc.
Qed.

(** X26: [n.Clone()] returns a node with the same ID, type and property
    entries whose map is a new object (never nil, also when the original's
    was): no existing map object changes, and afterwards setting or
    removing a property on either of the two nodes leaves the other one as
    it was. *)
Theorem Node_Clone_independent (n : Node.t) (h : Heap) :
  Allocated h (Node.Properties n) →
  let h1 := (Node_Clone n h).1 in
  let clone := (Node_Clone n h).2 in
  Node.view h1 clone = Node.view h n
  ∧ Node.view h1 n = Node.view h n
  ∧ Preserves h h1
  ∧ (∃ l, Node.Properties clone = Some l ∧ l ∉ dom h)
  ∧ (∀ key value,
       Node.view (Node_SetProperty key value clone h1).1 n = Node.view h n
       ∧ Node.view (Node_SetProperty key value n h1).1 clone = Node.view h n
       ∧ Node.view (Node_RemoveProperty key clone h1).1 n = Node.view h n
       ∧ Node.view (Node_RemoveProperty key n h1).1 clone = Node.view h n).
Proof.
  intros Ha. cbv zeta. rewrite Node_Clone_run by done. cbn [fst snd].
  set (l := fresh (dom h)).
  assert (Hl : l ∉ dom h) by apply is_fresh.
  assert (Hne : Node.Properties n ≠ Some l).
  { intros Heq. rewrite Heq in Ha. by apply Hl. }
  set (h1 := <[ l := read h (Node.Properties n) ]> h).
  set (clone := Node.mk (Node.ID n) (Node.Type_ n) (Some l)).
  assert (Hp : Preserves h h1) by by apply Preserves_insert_fresh.
  assert (Hc : Node.view h1 clone = Node.view h n).
  { unfold Node.view, clone, h1. cbn [Node.ID Node.Type_ Node.Properties].
    by rewrite read_insert_eq. }
  assert (Hn : Node.view h1 n = Node.view h n).
  { unfold Node.view. by rewrite (read_Preserves h h1). }
  assert (Ha1 : Allocated h1 (Node.Properties n)).
  { eapply Allocated_mono; [by apply Preserves_dom|done]. }
  assert (Hal : Allocated h1 (Some l)).
  { unfold h1. simpl. rewrite dom_insert_L. set_solver. }
  split; [done|]. split; [done|]. split; [done|].
  split; [by exists l|]. intros key value.
  split; [|split; [|split]].
  - unfold Node.view at 1. rewrite Node_SetProperty_frame; [exact Hn| |done].
    by unfold clone.
  - unfold Node.view at 1. cbn [Node.ID Node.Type_ Node.Properties clone].
    rewrite Node_SetProperty_frame; [exact Hc| |done]. congruence.
  - unfold Node.view at 1, Node_RemoveProperty.
    cbn [Node.Properties clone]. case_decide; cbn [fst]; [|exact Hn].
    rewrite read_insert_ne by done. exact Hn.
  - unfold Node.view at 1, Node_RemoveProperty.
    cbn [Node.ID Node.Type_ Node.Properties clone].
    destruct (Node.Properties n) as [l'|] eqn:Hl'; [|exact Hc].
    case_decide; cbn [fst]; [|exact Hc].
    rewrite read_insert_ne by congruence. exact Hc.
Qed.

(** X27: [r.Clone()] copies in depth: the clone reads the same as the
    original, end nodes included, and its own property map and the maps of
    both its end nodes are three new, distinct objects; no existing map
    object changes.  The property accessors give the same answers on the
    clone as on the original. *)
Theorem Relationship_Clone_deep (r : Relationship.t) (h : Heap) :
  Allocated h (Relationship.Properties r) →
  Allocated h (Node.Properties (Relationship.Source r)) →
  Allocated h (Node.Properties (Relationship.Target r)) →
  let h1 := (Relationship_Clone r h).1 in
  let clone := (Relationship_Clone r h).2 in
  Relationship.view h1 clone = Relationship.view h r
  ∧ Relationship.view h1 r = Relationship.view h r
  ∧ Preserves h h1
  ∧ (∃ ls lt l,
       Node.Properties (Relationship.Source clone) = Some ls
       ∧ Node.Properties (Relationship.Target clone) = Some lt
       ∧ Relationship.Properties clone = Some l
       ∧ NoDup [ls; lt; l]
       ∧ (ls ∉ dom h) ∧ (lt ∉ dom h) ∧ (l ∉ dom h))
  ∧ (∀ key,
       Relationship_GetProperty key clone h1 = Relationship_GetProperty key r h
       ∧ Relationship_HasProperty key clone h1 = Relationship_HasProperty key r h)
  ∧ Relationship_GetPropertyKeys clone h1 = Relationship_GetPropertyKeys r h.
Proof.
  intros Hr Hs Ht. cbv zeta. unfold Relationship_Clone.
  rewrite Node_Clone_run by done.
  set (ls := fresh (dom h)).
  assert (Hls : ls ∉ dom h) by apply is_fresh.
  set (h1 := <[ ls := read h (Node.Properties (Relationship.Source r)) ]> h).
  assert (Hp1 : Preserves h h1) by by apply Preserves_insert_fresh.
  rewrite Node_Clone_run
    by (eapply Allocated_mono; [by apply Preserves_dom|done]).
  set (lt := fresh (dom h1)).
  assert (Hlt : lt ∉ dom h1) by apply is_fresh.
  set (h2 := <[ lt := read h1 (Node.Properties (Relationship.Target r)) ]> h1).
  assert (Hp2 : Preserves h1 h2) by by apply Preserves_insert_fresh.
  assert (Hp12 : Preserves h h2) by exact (Preserves_trans h h1 h2 Hp1 Hp2).
  unfold alloc. rewrite copy_alloc
    by (eapply Allocated_mono; [by apply Preserves_dom|done]).
  set (l := fresh (dom h2)).
  assert (Hl : l ∉ dom h2) by apply is_fresh.
  set (h3 := <[ l := read h2 (Relationship.Properties r) ]> h2).
  assert (Hp3 : Preserves h2 h3) by by apply Preserves_insert_fresh.
  assert (Hp : Preserves h h3) by exact (Preserves_trans h h2 h3 Hp12 Hp3).
  assert (H12 : dom h1 = {[ ls ]} ∪ dom h) by apply dom_insert_L.
  assert (H23 : dom h2 = {[ lt ]} ∪ dom h1) by apply dom_insert_L.
  cbn [fst snd].
  assert (Hown : read h3 (Some l) = read h (Relationship.Properties r)).
  { unfold h3. rewrite read_insert_eq.
    by apply read_Preserves. }
  assert (Hsrc : read h3 (Some ls)
                 = read h (Node.Properties (Relationship.Source r))).
  { simpl. rewrite Hp3, Hp2 by set_solver. unfold h1.
    by rewrite lookup_insert_eq. }
  assert (Htgt : read h3 (Some lt)
                 = read h (Node.Properties (Relationship.Target r))).
  { simpl. rewrite Hp3 by set_solver. unfold h2. rewrite lookup_insert_eq.
    simpl. by apply read_Preserves. }
  split.
  { unfold Relationship.view, Node.view.
    cbn [Relationship.Source Relationship.Target Relationship.Type_
         Relationship.Properties Node.ID Node.Type_ Node.Properties].
    by rewrite Hown, Hsrc, Htgt. }
  split.
  { unfold Relationship.view, Node.view.
    by rewrite !(read_Preserves h h3). }
  split; [done|]. split.
  { exists ls, lt, l. split; [done|]. split; [done|]. split; [done|].
    split; [|set_solver].
    apply NoDup_cons. split; [set_solver|].
    apply NoDup_cons. split; [set_solver|]. apply NoDup_singleton. }
  split.
  { intros key. unfold Relationship_HasProperty, Relationship_GetProperty.
    cbn [Relationship.Properties]. rewrite Hown.
    by destruct (Relationship.Properties r). }
  unfold Relationship_GetPropertyKeys. cbn [Relationship.Properties].
  by rewrite Hown.
Qed.

Lemma Forall2_impl_Forall_l {A B} (P : A → Prop) (R1 R2 : A → B → Prop)
  (l : list A) (k : list B) :
  Forall P l → Forall2 R1 l k → (∀ x y, P x → R1 x y → R2 x y) →
  Forall2 R2 l k.
Proof.
  intros HP HR Himpl. induction HR as [|x y l k Hxy _ IH]; [constructor|].
  apply Forall_cons in HP as [Hx HP]. constructor; [by apply Himpl|by apply IH].
Qed.

(** The two loops of [Clone], started from any store and any partial
    clone. *)
Lemma foldl_cloneNodeInto (nodes : list Node.t) (h : Heap)
  (clone : GraphDocument.t) :
  Forall (λ n, Allocated h (Node.Properties n)) nodes →
  ∃ h' news,
    foldl cloneNodeInto (h, clone) nodes
    = (h', GraphDocument.mk (GraphDocument.Nodes clone ++ news)
             (GraphDocument.Relationships clone) (GraphDocument.Source clone))
    ∧ Preserves h h'
    ∧ Forall2 (λ n c, Node.ID c = Node.ID n ∧ Node.Type_ c = Node.Type_ n
                      ∧ ∃ l, Node.Properties c = Some l ∧ (l ∉ dom h)
                             ∧ h' !! l = Some (read h (Node.Properties n)))
        nodes news
    ∧ NoDup (Node.Properties <$> news).
Proof.
  revert h clone. induction nodes as [|n nodes IH]; intros h clone Hall.
  - exists h, []. rewrite app_nil_r. split; [by destruct clone|].
    split; [apply Preserves_refl|]. split; constructor.
  - apply Forall_cons in Hall as [Hn Hall]. cbn [foldl].
    unfold cloneNodeInto at 2, alloc. rewrite copy_alloc by done.
    set (l := fresh (dom h)).
    assert (Hl : l ∉ dom h) by apply is_fresh.
    set (h1 := <[ l := read h (Node.Properties n) ]> h).
    assert (Hp : Preserves h h1) by by apply Preserves_insert_fresh.
    destruct (IH h1 (AddNode (Node.mk (Node.ID n) (Node.Type_ n) (Some l)) clone))
      as (h' & news & Hrun & Hp' & Hnews & Hnd).
    { eapply Forall_impl; [exact Hall|]. intros n' Hn'. simpl in Hn'.
      eapply Allocated_mono; [by apply Preserves_dom|done]. }
    exists h', (Node.mk (Node.ID n) (Node.Type_ n) (Some l) :: news).
    rewrite Hrun. unfold AddNode.
    cbn [GraphDocument.Nodes GraphDocument.Relationships GraphDocument.Source].
    rewrite <- app_assoc. split; [done|].
    split; [by eapply Preserves_trans|].
    assert (Hl1 : l ∈ dom h1) by (unfold h1; rewrite dom_insert_L; set_solver).
    split.
    + constructor.
      * split; [done|]. split; [done|]. exists l. split; [done|].
        split; [done|]. rewrite Hp' by done. apply lookup_insert_eq.
      * eapply Forall2_impl_Forall_l; [exact Hall|exact Hnews|].
        intros n' c Han' (Hid & Hty & l' & Hc & Hl' & Hlook).
        split; [done|]. split; [done|]. exists l'. split; [done|]. split.
        -- intros Hin. apply Hl'. by apply (Preserves_dom h h1).
        -- rewrite Hlook. f_equal. by apply read_Preserves.
    + rewrite fmap_cons. apply NoDup_cons. split; [|done].
      intros (c & Hc & Hin)%list_elem_of_fmap.
      apply list_elem_of_lookup in Hin as [i Hi].
      destruct (Forall2_lookup_r _ _ _ _ _ Hnews Hi)
        as (n' & _ & _ & _ & l' & Hc' & Hl' & _).
      cbn [Node.Properties] in Hc. congruence.
Qed.

Lemma foldl_cloneRelationshipInto (rels : list Relationship.t) (h : Heap)
  (clone : GraphDocument.t) :
  Forall (λ r, Allocated h (Relationship.Properties r)) rels →
  ∃ h' news,
    foldl cloneRelationshipInto (h, clone) rels
    = (h', GraphDocument.mk (GraphDocument.Nodes clone)
             (GraphDocument.Relationships clone ++ news)
             (GraphDocument.Source clone))
    ∧ Preserves h h'
    ∧ Forall2 (λ r c, Relationship.Source c = Relationship.Source r
                      ∧ Relationship.Target c = Relationship.Target r
                      ∧ Relationship.Type_ c = Relationship.Type_ r
                      ∧ ∃ l, Relationship.Properties c = Some l ∧ (l ∉ dom h)
                             ∧ h' !! l
                               = Some (read h (Relationship.Properties r)))
        rels news
    ∧ NoDup (Relationship.Properties <$> news).
Proof.
  revert h clone. induction rels as [|r rels IH]; intros h clone Hall.
  - exists h, []. rewrite app_nil_r. split; [by destruct clone|].
    split; [apply Preserves_refl|]. split; constructor.
  - apply Forall_cons in Hall as [Hr Hall]. cbn [foldl].
    unfold cloneRelationshipInto at 2, alloc. rewrite copy_alloc by done.
    set (l := fresh (dom h)).
    assert (Hl : l ∉ dom h) by apply is_fresh.
    set (h1 := <[ l := read h (Relationship.Properties r) ]> h).
    assert (Hp : Preserves h h1) by by apply Preserves_insert_fresh.
    set (c := Relationship.mk (Relationship.Source r) (Relationship.Target r)
                (Relationship.Type_ r) (Some l)).
    destruct (IH h1 (AddRelationship c clone))
      as (h' & news & Hrun & Hp' & Hnews & Hnd).
    { eapply Forall_impl; [exact Hall|]. intros r' Hr'. simpl in Hr'.
      eapply Allocated_mono; [by apply Preserves_dom|done]. }
    exists h', (c :: news). rewrite Hrun. unfold AddRelationship.
    cbn [GraphDocument.Nodes GraphDocument.Relationships GraphDocument.Source].
    rewrite <- app_assoc. split; [done|].
    split; [by eapply Preserves_trans|].
    assert (Hl1 : l ∈ dom h1) by (unfold h1; rewrite dom_insert_L; set_solver).
    split.
    + constructor.
      * split; [done|]. split; [done|]. split; [done|]. exists l.
        split; [done|]. split; [done|]. rewrite Hp' by done.
        apply lookup_insert_eq.
      * eapply Forall2_impl_Forall_l; [exact Hall|exact Hnews|].
        intros r' c' Har' (Hs & Ht & Hty & l' & Hc & Hl' & Hlook).
        split; [done|]. split; [done|]. split; [done|].
        exists l'. split; [done|]. split.
        -- intros Hin. apply Hl'. by apply (Preserves_dom h h1).
        -- rewrite Hlook. f_equal. by apply read_Preserves.
    + rewrite fmap_cons. apply NoDup_cons. split; [|done].
      intros (c' & Hc & Hin)%list_elem_of_fmap.
      apply list_elem_of_lookup in Hin as [i Hi].
      destruct (Forall2_lookup_r _ _ _ _ _ Hnews Hi)
        as (r' & _ & _ & _ & _ & l' & Hc' & Hl' & _).
      cbn [Relationship.Properties c] in Hc. congruence.
Qed.

(** X28: [gd.Clone()] returns a document that reads the same as the
    original and leaves every existing map object alone.  Every node of the
    clone and every relationship of the clone has a property map of its
    own, new and distinct from all others.  The end nodes of the clone's
    relationships, however, are the original's end nodes as they are,
    references included: the clone is not deep there, so a write through
    such an end node reaches the original's map. *)
Theorem Clone_copies_maps_but_shares_end_nodes (gd : GraphDocument.t)
  (h : Heap) :
  AllocatedDocument h gd →
  let h1 := (Clone gd h).1 in
  let clone := (Clone gd h).2 in
  GraphDocument.view h1 clone = GraphDocument.view h gd
  ∧ GraphDocument.view h1 gd = GraphDocument.view h gd
  ∧ Preserves h h1
  ∧ Forall2 (λ n c, Node.ID c = Node.ID n ∧ Node.Type_ c = Node.Type_ n
                    ∧ ∃ l, Node.Properties c = Some l ∧ (l ∉ dom h))
      (GraphDocument.Nodes gd) (GraphDocument.Nodes clone)
  ∧ Forall2 (λ r c, Relationship.Source c = Relationship.Source r
                    ∧ Relationship.Target c = Relationship.Target r
                    ∧ Relationship.Type_ c = Relationship.Type_ r
                    ∧ ∃ l, Relationship.Properties c = Some l ∧ (l ∉ dom h))
      (GraphDocument.Relationships gd) (GraphDocument.Relationships clone)
  ∧ NoDup ((Node.Properties <$> GraphDocument.Nodes clone)
           ++ (Relationship.Properties <$> GraphDocument.Relationships clone)).
Proof.
  intros [HallN HallR]. cbv zeta. unfold Clone.
  destruct (foldl_cloneNodeInto (GraphDocument.Nodes gd) h
              (GraphDocument.mk [] [] (GraphDocument.Source gd)) HallN)
    as (h1 & newsN & -> & Hp1 & HnewsN & HndN).
  cbn [GraphDocument.Nodes GraphDocument.Relationships GraphDocument.Source].
  destruct (foldl_cloneRelationshipInto (GraphDocument.Relationships gd) h1
              (GraphDocument.mk ([] ++ newsN) [] (GraphDocument.Source gd)))
    as (h2 & newsR & -> & Hp2 & HnewsR & HndR).
  { eapply Forall_impl; [exact HallR|]. intros r (Hr & _).
    eapply Allocated_mono; [by apply Preserves_dom|done]. }
  cbn [fst snd GraphDocument.Nodes GraphDocument.Relationships
       GraphDocument.Source app].
  assert (Hp : Preserves h h2) by by eapply Preserves_trans.
  assert (HviewN : Node.view h2 <$> newsN
                   = Node.view h <$> GraphDocument.Nodes gd).
  { clear -HnewsN Hp2. induction HnewsN as [|n c ns cs Hnc _ IH]; [done|].
    rewrite !fmap_cons, IH. f_equal.
    destruct Hnc as (Hid & Hty & l & Hc & _ & Hlook).
    unfold Node.view. rewrite Hid, Hty, Hc. f_equal. simpl.
    rewrite Hp2 by (by apply elem_of_dom; eauto). by rewrite Hlook. }
  assert (Hend : ∀ n, Allocated h (Node.Properties n) →
                   Node.view h2 n = Node.view h n).
  { intros n Hn. unfold Node.view. by rewrite (read_Preserves h h2). }
  assert (HviewR : Relationship.view h2 <$> newsR
                   = Relationship.view h <$> GraphDocument.Relationships gd).
  { clear -HnewsR HallR Hp1 Hend. revert HallR.
    induction HnewsR as [|r c rs cs Hrc _ IH]; [done|].
    intros [(Hr & Hs & Ht) HallR]%Forall_cons.
    rewrite !fmap_cons, IH by done. f_equal.
    destruct Hrc as (Hsrc & Htgt & Hty & l & Hc & _ & Hlook).
    unfold Relationship.view. rewrite Hsrc, Htgt, Hty, Hc, !Hend by done.
    f_equal. simpl. rewrite Hlook. simpl. by apply read_Preserves. }
  split; [unfold GraphDocument.view; simpl; by rewrite HviewN, HviewR|].
  split.
  { unfold GraphDocument.view. f_equal.
    - apply list_fmap_ext. intros i n Hn. apply Hend.
      rewrite Forall_forall in HallN. by eapply HallN, list_elem_of_lookup_2.
    - apply list_fmap_ext. intros i r Hr.
      rewrite Forall_forall in HallR.
      destruct (HallR r) as (Hr0 & Hs & Ht); [by eapply list_elem_of_lookup_2|].
      unfold Relationship.view. rewrite !Hend by done.
      by rewrite (read_Preserves h h2). }
  split; [done|]. split.
  { eapply Forall2_impl; [exact HnewsN|].
    intros n c (Hid & Hty & l & Hc & Hl & _). eauto 10. }
  split.
  { eapply Forall2_impl; [exact HnewsR|].
    intros r c (Hs & Ht & Hty & l & Hc & Hl & _).
    split; [done|]. split; [done|]. split; [done|]. exists l. split; [done|].
    intros Hin. apply Hl. by apply (Preserves_dom h h1). }
  apply NoDup_app. split; [done|]. split; [|done].
  intros ref (c & -> & Hc)%list_elem_of_fmap (c' & Heq & Hc')%list_elem_of_fmap.
  apply list_elem_of_lookup in Hc as [i Hi].
  apply list_elem_of_lookup in Hc' as [j Hj].
  destruct (Forall2_lookup_r _ _ _ _ _ HnewsN Hi)
    as (n & _ & _ & _ & l & Hl & _ & Hlook).
  destruct (Forall2_lookup_r _ _ _ _ _ HnewsR Hj)
    as (r & _ & _ & _ & _ & l' & Hl' & Hfresh & _).
  apply Hfresh. assert (l' = l) as -> by congruence.
  apply elem_of_dom. eauto.
Qed.

(** X29: [gd.UpdateNode(nodeID, properties)] returns whether a node with
    the ID exists and changes nothing when none does.  Otherwise it merges
    the given properties into the map of the first such node, the given
    values winning, and changes no other map object and no other struct.
    When that node had a map, every struct that shares the map (an end node
    of a relationship built from the node, say) shows the update too; when
    its map was nil, the new map is stored in the document's node alone. *)
Theorem UpdateNode_writes_through_shared_map (nodeID : string)
  (properties : gmap string Value) (gd : GraphDocument.t) (h : Heap) :
  let h1 := (UpdateNode nodeID properties gd h).1.1 in
  let gd1 := (UpdateNode nodeID properties gd h).1.2 in
  (UpdateNode nodeID properties gd h).2
  = bool_decide (is_Some (FindNode nodeID gd))
  ∧ (FindNode nodeID gd = None → h1 = h ∧ gd1 = gd)
  ∧ (∀ i node, FindNode nodeID gd = Some (i, node) →
       ∃ l,
         gd1 = GraphDocument.mk
                 (<[ i := Node.mk (Node.ID node) (Node.Type_ node) (Some l) ]>
                    (GraphDocument.Nodes gd))
                 (GraphDocument.Relationships gd) (GraphDocument.Source gd)
         ∧ read h1 (Some l) = properties ∪ read h (Node.Properties node)
         ∧ (∀ r, r ≠ Some l → read h1 r = read h r)
         ∧ (Node.Properties node = Some l
            ∨ Node.Properties node = None ∧ (l ∉ dom h) ∧ Preserves h h1)).
Proof.
  cbv zeta. unfold UpdateNode.
  destruct (FindNode nodeID gd) as [[i node]|] eqn:Hfind.
  2:{ cbn [fst snd]. split; [|split; [done|by intros ? ? [=]]].
      symmetry. apply bool_decide_eq_false. by intros [? ?]. }
  assert (Hrun : ∃ l,
    (let '(h1, l) := ensureMap (Node.Properties node) h in
     (<[ l := assignAll properties (read h1 (Some l)) ]> h1,
      GraphDocument.mk
        (<[ i := Node.mk (Node.ID node) (Node.Type_ node) (Some l) ]>
           (GraphDocument.Nodes gd))
        (GraphDocument.Relationships gd) (GraphDocument.Source gd), true))
    = (<[ l := properties ∪ read h (Node.Properties node) ]> h,
       GraphDocument.mk
         (<[ i := Node.mk (Node.ID node) (Node.Type_ node) (Some l) ]>
            (GraphDocument.Nodes gd))
         (GraphDocument.Relationships gd) (GraphDocument.Source gd), true)
    ∧ (Node.Properties node = Some l
       ∨ Node.Properties node = None ∧ l ∉ dom h)).
  { destruct (Node.Properties node) as [l|]; cbn [ensureMap].
    - exists l. rewrite assignAll_union. split; [done|by left].
    - exists (fresh (dom h)). unfold alloc.
      rewrite assignAll_union, read_insert_eq, insert_insert_eq.
      split; [done|]. right. split; [done|apply is_fresh]. }
  destruct Hrun as (l & -> & Hl). cbn [fst snd].
  split; [symmetry; apply bool_decide_eq_true; eauto|].
  split; [done|]. intros i' node' [= <- <-]. exists l.
  split; [done|]. split; [apply read_insert_eq|].
  split; [intros r Hr; by apply read_insert_ne|].
  destruct Hl as [Hl|[Hnil Hl]]; [by left|right].
  split; [done|]. split; [done|]. by apply Preserves_insert_fresh.
Qed.

Lemma FindNode_view (nodeID : string) (gd : GraphDocument.t) (h : Heap) :
  graphs.FindNode nodeID (GraphDocument.view h gd)
  = prod_map id (Node.view h) <$> FindNode nodeID gd.
Proof.
  unfold graphs.FindNode, FindNode, GraphDocument.view.
  cbn [graphs.GraphDocument.Nodes]. by rewrite list_find_fmap.
Qed.

Lemma FindRelationship_view (sourceID targetID relType : string)
  (gd : GraphDocument.t) (h : Heap) :
  graphs.FindRelationship sourceID targetID relType (GraphDocument.view h gd)
  = prod_map id (Relationship.view h)
      <$> FindRelationship sourceID targetID relType gd.
Proof.
  unfold graphs.FindRelationship, FindRelationship, GraphDocument.view.
  cbn [graphs.GraphDocument.Relationships]. by rewrite list_find_fmap.
Qed.

Lemma mergeNode_view (gd : GraphDocument.t) (node : Node.t) (h : Heap) :
  GraphDocument.view h (mergeNode gd node)
  = graphs.mergeNode (GraphDocument.view h gd) (Node.view h node).
Proof.
  unfold mergeNode, graphs.mergeNode, graphs.NodeExists.
  rewrite FindNode_view. cbn [Node.view graphs.Node.ID].
  destruct (FindNode (Node.ID node) gd) as [found|]; cbn [fmap option_fmap option_map].
  - by rewrite !bool_decide_eq_true_2 by eauto.
  - rewrite !bool_decide_eq_false_2 by (by intros [? ?]).
    unfold AddNode, graphs.AddNode, GraphDocument.view. simpl.
    by rewrite fmap_app.
Qed.

Lemma mergeRelationship_view (gd : GraphDocument.t) (rel : Relationship.t)
  (h : Heap) :
  GraphDocument.view h (mergeRelationship gd rel)
  = graphs.mergeRelationship (GraphDocument.view h gd)
      (Relationship.view h rel).
Proof.
  unfold mergeRelationship, graphs.mergeRelationship, graphs.RelationshipExists.
  rewrite FindRelationship_view.
  cbn [Relationship.view Node.view graphs.Node.ID graphs.Relationship.Source
       graphs.Relationship.Target graphs.Relationship.Type_].
  destruct (FindRelationship _ _ _ gd) as [found|];
    cbn [fmap option_fmap option_map].
  - by rewrite !bool_decide_eq_true_2 by eauto.
  - rewrite !bool_decide_eq_false_2 by (by intros [? ?]).
    unfold AddRelationship, graphs.AddRelationship, GraphDocument.view. simpl.
    by rewrite fmap_app.
Qed.

(** X30: read as values, the [Merge] over shared maps is the [Merge] of
    the graph documents read as values.  What it appends are the incoming
    document's own structs, in its order: the merged document shares the
    property maps of the appended nodes and relationships with the
    incoming document. *)
Theorem Merge_shares_incoming_maps (other gd : GraphDocument.t) (h : Heap) :
  GraphDocument.view h (Merge other gd)
  = graphs.Merge (GraphDocument.view h other) (GraphDocument.view h gd)
  ∧ (∃ appended,
       GraphDocument.Nodes (Merge other gd) = GraphDocument.Nodes gd ++ appended
       ∧ appended `sublist_of` GraphDocument.Nodes other)
  ∧ (∃ appended,
       GraphDocument.Relationships (Merge other gd)
       = GraphDocument.Relationships gd ++ appended
       ∧ appended `sublist_of` GraphDocument.Relationships other).
Proof.
  assert (Hn : ∀ nodes gd0,
    GraphDocument.view h (foldl mergeNode gd0 nodes)
    = foldl graphs.mergeNode (GraphDocument.view h gd0) (Node.view h <$> nodes)
    ∧ GraphDocument.Relationships (foldl mergeNode gd0 nodes)
      = GraphDocument.Relationships gd0
    ∧ ∃ appended,
        GraphDocument.Nodes (foldl mergeNode gd0 nodes)
        = GraphDocument.Nodes gd0 ++ appended
        ∧ appended `sublist_of` nodes).
  { induction nodes as [|n nodes IH]; intros gd0.
    - split; [done|]. split; [done|]. exists []. by rewrite app_nil_r.
    - cbn [foldl fmap list_fmap].
      destruct (IH (mergeNode gd0 n)) as (-> & -> & appended & -> & Hsub).
      rewrite mergeNode_view. split; [done|].
      unfold mergeNode. case_bool_decide.
      + split; [done|]. exists appended. split; [done|]. by constructor.
      + split; [done|]. exists (n :: appended). unfold AddNode. simpl.
        rewrite <- app_assoc. split; [done|]. by constructor. }
  assert (Hr : ∀ rels gd0,
    GraphDocument.view h (foldl mergeRelationship gd0 rels)
    = foldl graphs.mergeRelationship (GraphDocument.view h gd0)
        (Relationship.view h <$> rels)
    ∧ GraphDocument.Nodes (foldl mergeRelationship gd0 rels)
      = GraphDocument.Nodes gd0
    ∧ ∃ appended,
        GraphDocument.Relationships (foldl mergeRelationship gd0 rels)
        = GraphDocument.Relationships gd0 ++ appended
        ∧ appended `sublist_of` rels).
  { induction rels as [|r rels IH]; intros gd0.
    - split; [done|]. split; [done|]. exists []. by rewrite app_nil_r.
    - cbn [foldl fmap list_fmap].
      destruct (IH (mergeRelationship gd0 r)) as (-> & -> & appended & -> & Hsub).
      rewrite mergeRelationship_view. split; [done|].
      unfold mergeRelationship. case_bool_decide.
      + split; [done|]. exists appended. split; [done|]. by constructor.
      + split; [done|]. exists (r :: appended). unfold AddRelationship. simpl.
        rewrite <- app_assoc. split; [done|]. by constructor. }
  unfold Merge, graphs.Merge.
  destruct (Hr (GraphDocument.Relationships other)
              (foldl mergeNode gd (GraphDocument.Nodes other)))
    as (-> & -> & appendedR & -> & HsubR).
  destruct (Hn (GraphDocument.Nodes other) gd)
    as (-> & -> & appendedN & -> & HsubN).
  split; [done|]. split; eauto.
Qed.

End SharedFacts.

(** ** The added properties on concrete inputs *)

Section MoreStoreExamples.
Import neo4j.
#[local] Existing Instances M_ret M_bind.


Lemma operations_need_driver_witness :
  let st0 := @mkState emptyStore disconnected tt [] in
  driver (self st0) = false
  ∧ AddNodes (H := emptyStore) [alice] [] st0
    = (st0, Fail ErrDriverNotInitialized)
  ∧ RefreshSchema (H := emptyStore) (H1 := exampleRenderer) st0
    = (st0, Fail ErrDriverNotInitialized).
Proof.
  cbv zeta.
  set (st0 := @mkState emptyStore disconnected tt []).
  destruct (operations_need_driver (H := emptyStore) (H0 := exampleRuntime)
              (H1 := exampleRenderer) st0 eq_refl)
    as (_ & _ & Hadd & _ & _ & _ & _ & _ & _ & _ & Hrefresh).
  split; [reflexivity|]. split; [apply Hadd|apply Hrefresh].
Defined.

Lemma AddGraphDocument_reads_two_options_witness :
  let st0 := @mkState lockingStore connected 0 [] in
  AddGraphDocument (H := lockingStore) (H0 := exampleRuntime)
    [doc_ab; doc_bc]
    [graphs.WithMergeMode graphs.MergeModeCreate; graphs.WithTimeout 5;
     graphs.WithCascadeDelete true; graphs.WithLimit 1] st0
  = AddGraphDocument (H := lockingStore) (H0 := exampleRuntime)
      [doc_ab; doc_bc] [] st0.
Proof.
  cbv zeta.
  apply (AddGraphDocument_reads_two_options (H := lockingStore)
           (H0 := exampleRuntime));
    reflexivity.
Defined.

Lemma AddGraphDocument_nothing_to_import_witness :
  let st0 := @mkState lockingStore connected 0 [] in
  AddGraphDocument (H := lockingStore) (H0 := exampleRuntime)
    [empty_doc; empty_doc] [graphs.WithIncludeSource true] st0
  = (st0, Ok tt).
Proof.
  cbv zeta.
  apply (AddGraphDocument_nothing_to_import (H := lockingStore)
           (H0 := exampleRuntime));
    [reflexivity|].
  apply Forall_cons. split; [by split|].
  apply Forall_singleton. by split.
Defined.

Lemma AddGraphDocument_query_count_witness :
  let st0 := @mkState lockingStore connected 0 [] in
  let run :=
    AddGraphDocument (H := lockingStore) (H0 := exampleRuntime)
      [doc_ab; empty_doc; doc_ca] [graphs.WithBatchSize 2] st0 in
  run.2 = Ok tt
  ∧ importQueryCount [doc_ab; empty_doc; doc_ca] = 4
  ∧ ∃ calls, issued run.1 = issued st0 ++ calls ∧ length calls = 4.
Proof.
  cbv zeta.
  set (st0 := @mkState lockingStore connected 0 []).
  set (run := AddGraphDocument (H := lockingStore) (H0 := exampleRuntime)
                [doc_ab; empty_doc; doc_ca] [graphs.WithBatchSize 2] st0).
  assert (Hok : run.2 = Ok tt) by (vm_compute; reflexivity).
  destruct (AddGraphDocument_query_count (H := lockingStore)
              (H0 := exampleRuntime)
              [doc_ab; empty_doc; doc_ca] [graphs.WithBatchSize 2]
              st0 run.1 run.2 eq_refl eq_refl (surjective_pairing run))
    as (calls & Hlog & _ & Hlen & _).
  split; [exact Hok|]. split; [reflexivity|].
  exists calls. split; [exact Hlog|]. exact (Hlen Hok).
Defined.

Lemma ensureBaseEntityConstraint_outcomes_witness :
  let st0 := @mkState emptyStore labelling tt [] in
  ensureBaseEntityConstraint (H := emptyStore) st0
  = (@mkState emptyStore labelling tt
       [constraintLookupCall; constraintCreateCall], Ok tt).
Proof.
  cbv zeta.
  rewrite (ensureBaseEntityConstraint_outcomes (H := emptyStore)
             (@mkState emptyStore labelling tt []) eq_refl).
  reflexivity.
Defined.

Lemma RefreshSchema_all_or_nothing_witness :
  let st0 := @mkState restrictedStore connected tt [] in
  let run := RefreshSchema (H := restrictedStore) (H1 := exampleRenderer) st0 in
  run.2 = Ok tt
  ∧ issued run.1 = refreshCalls
  ∧ sameSettings connected (self run.1).
Proof.
  cbv zeta.
  set (st0 := @mkState restrictedStore connected tt []).
  set (run := RefreshSchema (H := restrictedStore) (H1 := exampleRenderer) st0).
  assert (Hok : run.2 = Ok tt) by (vm_compute; reflexivity).
  pose proof (RefreshSchema_all_or_nothing (H := restrictedStore)
                (H1 := exampleRenderer)
                st0 run.1 run.2 (surjective_pairing run)) as Hall.
  rewrite Hok in Hall. destruct Hall as [Hlog Hset].
  split; [exact Hok|]. split; [exact Hlog|exact Hset].
Defined.

Lemma importRelationships_sends_clean_types_witness :
  let st0 := @mkState lockingStore connected 0 [] in
  ∃ items,
    issued (importRelationships (H := lockingStore) (H0 := exampleRuntime)
              graphs.NewOptions doc_bc st0).1
    = [(getRelImportQuery connected, {[ "relationships" := VList items ]})]
    ∧ length items = 1.
Proof.
  cbv zeta.
  destruct (importRelationships_sends_clean_types (H := lockingStore)
              (H0 := exampleRuntime)
              graphs.NewOptions doc_bc
              (@mkState lockingStore connected 0 []) eq_refl)
    as (items & Hlog & Hitems).
  { discriminate. }
  exists items. split; [exact Hlog|].
  apply Forall2_length in Hitems. by rewrite <- Hitems.
Defined.

End MoreStoreExamples.

Section SharedExamples.
Import shared.

Lemma testDoc_allocated : AllocatedDocument testHeap testDoc.
Proof.
  assert (H0 : (0 : nat) ∈ dom testHeap)
    by (apply elem_of_dom; eexists; reflexivity).
  assert (H1 : (1 : nat) ∈ dom testHeap)
    by (apply elem_of_dom; eexists; reflexivity).
  assert (H2 : (2 : nat) ∈ dom testHeap)
    by (apply elem_of_dom; eexists; reflexivity).
  split.
  - apply Forall_cons. split; [exact H0|]. apply Forall_singleton. exact H1.
  - apply Forall_singleton. split; [exact H2|]. split; [exact H0|exact H1].
Qed.

(** The test document read as a value is the sample document of the
    value model. *)
Example testDoc_view : GraphDocument.view testHeap testDoc = sample_doc.
Proof. vm_compute. reflexivity. Qed.

Lemma Node_Clone_independent_witness :
  Allocated testHeap (Node.Properties node1)
  ∧ Node.view (Node_Clone node1 testHeap).1 (Node_Clone node1 testHeap).2
    = alice
  ∧ Node.view
      (Node_SetProperty "name" (VStr "Alicia") (Node_Clone node1 testHeap).2
         (Node_Clone node1 testHeap).1).1 node1
    = alice.
Proof.
  assert (Ha : Allocated testHeap (Node.Properties node1)).
  { destruct testDoc_allocated as [Hn _].
    by apply Forall_cons in Hn as [Hn _]. }
  destruct (Node_Clone_independent node1 testHeap Ha)
    as (Hview & _ & _ & _ & Hwrites).
  destruct (Hwrites "name" (VStr "Alicia")) as (Hset & _).
  split; [exact Ha|]. split.
  - rewrite Hview. vm_compute. reflexivity.
  - rewrite Hset. vm_compute. reflexivity.
Defined.

Lemma Relationship_Clone_deep_witness :
  Allocated testHeap (Relationship.Properties rel12)
  ∧ Relationship.view (Relationship_Clone rel12 testHeap).1
      (Relationship_Clone rel12 testHeap).2
    = knows
  ∧ Relationship.Source (Relationship_Clone rel12 testHeap).2
    = Node.mk "1" "Person" (Some 3).
Proof.
  destruct testDoc_allocated as [_ Hr].
  apply Forall_singleton in Hr as (Hown & Hsrc & Htgt).
  destruct (Relationship_Clone_deep rel12 testHeap Hown Hsrc Htgt)
    as (Hview & _).
  split; [exact Hown|]. split.
  - rewrite Hview. vm_compute. reflexivity.
  - vm_compute. reflexivity.
Defined.

Lemma Clone_copies_maps_but_shares_end_nodes_witness :
  AllocatedDocument testHeap testDoc
  ∧ GraphDocument.view (Clone testDoc testHeap).1 (Clone testDoc testHeap).2
    = sample_doc
  ∧ Node.Properties <$> GraphDocument.Nodes (Clone testDoc testHeap).2
    = [Some 3; Some 4]
  ∧ Relationship.Source <$> GraphDocument.Relationships (Clone testDoc testHeap).2
    = [node1].
Proof.
  destruct (Clone_copies_maps_but_shares_end_nodes testDoc testHeap
              testDoc_allocated) as (Hview & _).
  split; [exact testDoc_allocated|]. split.
  - rewrite Hview. vm_compute. reflexivity.
  - split; vm_compute; reflexivity.
Defined.

(** On the test document, [UpdateNode] shows in the end node of the
    relationship, which shares the node's map; on its clone it does not,
    because the clone's node has a map of its own while the end node still
    refers to the original's. *)
Example UpdateNode_original_and_clone :
  let age : gmap string Value := {[ "age" := VInt 30 ]} in
  let '(h1, gd1, _) := UpdateNode "1" age testDoc testHeap in
  let '(h2, clone) := Clone testDoc testHeap in
  let '(h3, clone1, _) := UpdateNode "1" age clone h2 in
  (graphs.Node.Properties ∘ graphs.Relationship.Source ∘ Relationship.view h1
     <$> GraphDocument.Relationships gd1)
  = [{[ "name" := VStr "Alice"; "age" := VInt 30 ]}]
  ∧ (graphs.Node.Properties ∘ Node.view h3 <$> GraphDocument.Nodes clone1)
    = [{[ "name" := VStr "Alice"; "age" := VInt 30 ]};
       {[ "name" := VStr "Bob" ]}]
  ∧ (graphs.Node.Properties ∘ graphs.Relationship.Source ∘ Relationship.view h3
       <$> GraphDocument.Relationships clone1)
    = [{[ "name" := VStr "Alice" ]}].
Proof. vm_compute. repeat split. Qed.

End SharedExamples.
